(** * Dijkstra analysis: the graph model, the operation counter and the two
      shortest-path implementations of [dijkstra.py], with the properties
      of the specification stated over them; then the conversions between
      graphs and matrices of [structures.py], [measure_runs.run_dijkstra]
      and the helpers of [random_graph.py].

    Python objects live in a store, a finite map from object identities
    ([id(x)], a natural number) to field records, one table per class.
    A length is a Python number or [math.inf]; an edge weight is a finite
    number.

    Scope: weights and finite lengths are Python integers, which are
    unbounded and whose sums and comparisons are exact; that is how
    [random_graph.generate_random_graph] draws the weights
    ([random.randint]) and how a matrix of integers gives them (with
    [math.inf] for no edge).  Every property below is a property of the
    code on such graphs.  Float weights, as [graph_io] reads them from an
    adjacency file, are outside the model: nothing here speaks of the
    rounding of their sums or of a sum that overflows to [inf].  The
    float arithmetic of [OpsTracker.heap_ops], a base-2 logarithm, is
    kept behind an interface. *)

From Stdlib Require Import ZArith Lia.
From stdpp Require Import gmap list strings.

Local Open Scope Z_scope.

(** ** Numbers *)

(** A node length: a finite number or [math.inf]. *)
Inductive num : Type :=
  | Fin (z : Z)
  | Inf.

#[global] Instance num_eq_dec : EqDecision num.
Proof. solve_decision. Defined.

(** [a + w] for a length [a] and a finite weight [w]. *)
Definition num_add (a : num) (w : Z) : num :=
  match a with
  | Fin z => Fin (z + w)
  | Inf => Inf
  end.

(** [a < b] *)
Definition num_ltb (a b : num) : bool :=
  match a, b with
  | Fin x, Fin y => x <? y
  | Fin _, Inf => true
  | Inf, _ => false
  end.

(** [a == b] *)
Definition num_eqb (a b : num) : bool :=
  match a, b with
  | Fin x, Fin y => x =? y
  | Inf, Inf => true
  | _, _ => false
  end.

Definition num_lt (a b : num) : Prop := num_ltb a b = true.
Definition num_le (a b : num) : Prop := num_ltb b a = false.

(** ** The data model of [structures.py] *)

(** The payload of a node, opaque to the algorithms. *)
Inductive pyobj : Type :=
  | PyNone
  | PyInt (z : Z)
  | PyStr (s : string).

Module Node.
Record t : Type := mk {
  data : pyobj;
  inbound : list nat;
  outbound : list nat;
  length : num
}.
Definition with_length (v : num) (nd : t) : t :=
  mk (data nd) (inbound nd) (outbound nd) v.
Definition with_inbound (es : list nat) (nd : t) : t :=
  mk (data nd) es (outbound nd) (length nd).
Definition with_outbound (es : list nat) (nd : t) : t :=
  mk (data nd) (inbound nd) es (length nd).
End Node.

Module Edge.
Record t : Type := mk {
  tail : nat;
  head : nat;
  weight : Z
}.
End Edge.

Module Graph.
Record t : Type := mk {
  nodes : list nat;
  edges : list nat
}.
End Graph.

(** Exceptions the modelled code can raise. *)
Inductive exn : Type :=
  | ValueError   (* math.log2 of a non-positive number *)
  | IndexError   (* pop from an empty list *)
  | OverflowError.  (* int of an infinite length *)

Inductive result (A : Type) : Type :=
  | Ok (a : A)
  | Err (e : exn).
Arguments Ok {A} a.
Arguments Err {A} e.

(** ** Float arithmetic of the heap counter, as an interface *)

Class FloatOps (F : Type) : Type := {
  f_of_Z : Z → F;        (* an int used where a float is expected *)
  f_add : F → F → F;     (* + *)
  f_log2 : Z → F         (* math.log2 of a positive int *)
}.

Section Program.
Context {F : Type} `{FloatOps F}.

(** ** [OpsTracker] *)

Record OpsTracker : Type := mkOps {
  simple_ops : Z;
  heap_ops : F
}.

(** ** The store *)

Record World : Type := mkWorld {
  node_tbl : gmap nat Node.t;
  edge_tbl : gmap nat Edge.t;
  graph_tbl : gmap nat Graph.t;
  tracker : OpsTracker
}.

Definition with_tracker (t : OpsTracker) (w : World) : World :=
  mkWorld (node_tbl w) (edge_tbl w) (graph_tbl w) t.
Definition with_nodes (m : gmap nat Node.t) (w : World) : World :=
  mkWorld m (edge_tbl w) (graph_tbl w) (tracker w).
Definition with_edges (m : gmap nat Edge.t) (w : World) : World :=
  mkWorld (node_tbl w) m (graph_tbl w) (tracker w).
Definition with_graphs (m : gmap nat Graph.t) (w : World) : World :=
  mkWorld (node_tbl w) (edge_tbl w) m (tracker w).

(** Field reads.  A reference that is not in the store reads as an object
    with empty fields; the stores of interest are closed ([closed] below),
    as every Python store is. *)
Definition node_at (w : World) (n : nat) : Node.t :=
  default (Node.mk PyNone [] [] Inf) (node_tbl w !! n).
Definition edge_at (w : World) (e : nat) : Edge.t :=
  default (Edge.mk 0 0 0) (edge_tbl w !! e).
Definition graph_at (w : World) (g : nat) : Graph.t :=
  default (Graph.mk [] []) (graph_tbl w !! g).

Definition length_of (w : World) (n : nat) : num := Node.length (node_at w n).
Definition outbound_of (w : World) (n : nat) : list nat := Node.outbound (node_at w n).
Definition tail_of (w : World) (e : nat) : nat := Edge.tail (edge_at w e).
Definition head_of (w : World) (e : nat) : nat := Edge.head (edge_at w e).
Definition weight_of (w : World) (e : nat) : Z := Edge.weight (edge_at w e).

(** [node.length = v] *)
Definition set_length (n : nat) (v : num) (w : World) : World :=
  with_nodes (alter (Node.with_length v) n (node_tbl w)) w.

(** *** Constructors *)

(** [Node(data, length)]: a new node object; returns its identity. *)
Definition Node_init (d : pyobj) (len : num) (w : World) : nat * World :=
  let n := fresh (dom (node_tbl w)) in
  (n, with_nodes (<[n := Node.mk d [] [] len]> (node_tbl w)) w).

(** [node.add_inbound(edge)], [node.add_outbound(edge)] *)
Definition add_inbound (n e : nat) (w : World) : World :=
  with_nodes (alter (fun nd => Node.with_inbound (Node.inbound nd ++ [e]) nd) n (node_tbl w)) w.
Definition add_outbound (n e : nat) (w : World) : World :=
  with_nodes (alter (fun nd => Node.with_outbound (Node.outbound nd ++ [e]) nd) n (node_tbl w)) w.

(** [Edge(tail, head, weight)]: a new edge object, registered with its
    tail's outbound list and its head's inbound list. *)
Definition Edge_init (tl hd : nat) (wt : Z) (w : World) : nat * World :=
  let e := fresh (dom (edge_tbl w)) in
  let w := with_edges (<[e := Edge.mk tl hd wt]> (edge_tbl w)) w in
  let w := add_outbound tl e w in
  let w := add_inbound hd e w in
  (e, w).

(** [Graph(nodes, edges)] *)
Definition Graph_init (ns es : list nat) (w : World) : nat * World :=
  let g := fresh (dom (graph_tbl w)) in
  (g, with_graphs (<[g := Graph.mk ns es]> (graph_tbl w)) w).

(** *** [Node.__eq__], [Node.__lt__] and list membership *)

Definition Node_eq (w : World) (a b : nat) : bool :=
  num_eqb (length_of w a) (length_of w b).

Definition Node_lt (w : World) (a b : nat) : bool :=
  num_ltb (length_of w a) (length_of w b).

(** [id(x) in (id(y) for y in l)]: membership by identity. *)
Definition id_in (x : nat) (l : list nat) : bool :=
  existsb (Nat.eqb x) l.

(** [x in l] on a list of nodes: Python compares each item by identity
    first and by [==] next. *)
Definition node_in (w : World) (x : nat) (l : list nat) : bool :=
  existsb (fun y => Nat.eqb y x || Node_eq w y x) l.

(** *** Counter operations *)


Definition incr_simple (amount : Z) (w : World) : World :=
  with_tracker (mkOps (simple_ops (tracker w) + amount) (heap_ops (tracker w))) w.

Definition incr_heap (amount : Z) (w : World) : World :=
  with_tracker (mkOps (simple_ops (tracker w))
                      (f_add (heap_ops (tracker w)) (f_of_Z amount))) w.

(** [math.log2(x)] raises ValueError unless [x] is positive. *)
Definition math_log2 (x : Z) : result F :=
  if 0 <? x then Ok (f_log2 x) else Err ValueError.

Definition add_heap_op (heap_size : Z) (w : World) : result World :=
  match math_log2 heap_size with
  | Ok l =>
      Ok (with_tracker
            (mkOps (simple_ops (tracker w))
                   (f_add (heap_ops (tracker w)) (f_add l (f_of_Z 1)))) w)
  | Err e => Err e
  end.

(** ** [simple_shortest_path] *)

(** The body of [for edge in node.outbound] in [get_best_edge]. *)
Definition scan_edge (visited : list nat)
    (acc : World * (option nat * num)) (edge : nat) : World * (option nat * num) :=
  let '(w, (best_edge, best_criterion)) := acc in
  if negb (id_in (head_of w edge) visited) then
    let w := incr_simple 2 w in
    let criterion := num_add (length_of w (tail_of w edge)) (weight_of w edge) in
    if num_ltb criterion best_criterion then
      (incr_simple 2 w, (Some edge, criterion))
    else (w, (best_edge, best_criterion))
  else acc.

(** The body of [for node in visited] in [get_best_edge]. *)
Definition scan_node (visited : list nat)
    (acc : World * (option nat * num)) (node : nat) : World * (option nat * num) :=
  let '(w, best) := acc in
  foldl (scan_edge visited) (incr_simple 1 w, best) (outbound_of w node).

Definition get_best_edge (w : World) (visited : list nat) : World * (option nat * num) :=
  foldl (scan_node visited) (incr_simple 2 w, (None, Inf)) visited.

(** [start.length = 0], then [for node in graph.nodes], with the counter
    increment [incr] of the variant that runs it. *)
Definition init_lengths (incr : Z → World → World) (graph start : nat) (w : World) : World :=
  let w := set_length start (Fin 0) w in
  foldl (fun w node =>
           let w := incr 1 w in
           if negb (Nat.eqb node start) then set_length node Inf (incr 1 w) else w)
        w (Graph.nodes (graph_at w graph)).

(** The [while True] loop; [None] when the fuel runs out. *)
Fixpoint simple_loop (fuel : nat) (w : World) (visited : list nat) : option World :=
  match fuel with
  | O => None
  | S fuel =>
      let '(w, (next_edge, weight)) := get_best_edge w visited in
      let w := incr_simple 1 w in
      match next_edge with
      | None => Some w
      | Some next_edge =>
          let w := incr_simple 2 w in
          let visited := visited ++ [head_of w next_edge] in
          let w := set_length (head_of w next_edge) weight w in
          simple_loop fuel w visited
      end
  end.

Definition simple_shortest_path (fuel : nat) (graph start : nat) (w : World)
    : option (result World) :=
  let w := incr_simple 2 w in
  let visited := [start] in
  let w := init_lengths incr_simple graph start w in
  Ok <$> simple_loop fuel w visited.

(** ** [heapq], as in the standard library's [heapq.py], on a list of items
       compared with [lt] (their [__lt__]) *)

(** The loop of [_siftdown]; [newitem] is written at the final [pos].  The
    position strictly decreases, so [pos] itself bounds the iterations. *)
Fixpoint siftdown_loop (fuel : nat) (lt : nat → nat → bool) (heap : list nat)
    (newitem startpos pos : nat) : list nat :=
  match fuel with
  | O => <[pos := newitem]> heap
  | S fuel =>
      if (startpos <? pos)%nat then
        let parentpos := ((pos - 1) / 2)%nat in
        match heap !! parentpos with
        | Some parent =>
            if lt newitem parent then
              siftdown_loop fuel lt (<[pos := parent]> heap) newitem startpos parentpos
            else <[pos := newitem]> heap
        | None => <[pos := newitem]> heap
        end
      else <[pos := newitem]> heap
  end.

Definition _siftdown (lt : nat → nat → bool) (heap : list nat) (startpos pos : nat) : list nat :=
  match heap !! pos with
  | Some newitem => siftdown_loop pos lt heap newitem startpos pos
  | None => heap
  end.

(** The loop of [_siftup]: returns the heap and the leaf position reached.
    The child position at least doubles, so the length of the heap bounds
    the iterations. *)
Fixpoint siftup_loop (fuel : nat) (lt : nat → nat → bool) (heap : list nat)
    (endpos pos : nat) : list nat * nat :=
  match fuel with
  | O => (heap, pos)
  | S fuel =>
      let childpos := (2 * pos + 1)%nat in
      if (childpos <? endpos)%nat then
        let rightpos := (childpos + 1)%nat in
        let childpos :=
          match heap !! childpos, heap !! rightpos with
          | Some c, Some r =>
              if (rightpos <? endpos)%nat && negb (lt c r) then rightpos
              else childpos
          | _, _ => childpos
          end in
        match heap !! childpos with
        | Some c => siftup_loop fuel lt (<[pos := c]> heap) endpos childpos
        | None => (heap, pos)
        end
      else (heap, pos)
  end.

Definition _siftup (lt : nat → nat → bool) (heap : list nat) (pos : nat) : list nat :=
  match heap !! pos with
  | Some newitem =>
      let endpos := List.length heap in
      let startpos := pos in
      let '(heap, pos) := siftup_loop endpos lt heap endpos pos in
      _siftdown lt (<[pos := newitem]> heap) startpos pos
  | None => heap
  end.

Definition heappush (lt : nat → nat → bool) (heap : list nat) (item : nat) : list nat :=
  let heap := heap ++ [item] in
  _siftdown lt heap 0 (List.length heap - 1).

(** [heap.pop()]: the list without its last item, and that item. *)
Definition list_pop (l : list nat) : result (nat * list nat) :=
  match last l with
  | Some x => Ok (x, removelast l)
  | None => Err IndexError
  end.

Definition heappop (lt : nat → nat → bool) (heap : list nat) : result (nat * list nat) :=
  match list_pop heap with
  | Ok (lastelt, heap) =>
      match heap with
      | returnitem :: _ => Ok (returnitem, _siftup lt (<[0%nat := lastelt]> heap) 0)
      | [] => Ok (lastelt, heap)
      end
  | Err e => Err e
  end.

(** ** [heap_shortest_path] *)

(** The body of [for edge in current.outbound]. *)
Definition relax_edge (visited : list nat) (current edge : nat)
    (st : World * list nat) : result (World * list nat) :=
  let '(w, heap) := st in
  let w := incr_heap 3 w in
  let criterion := num_add (length_of w current) (weight_of w edge) in
  let w :=
    if num_ltb criterion (length_of w (head_of w edge)) then
      set_length (head_of w edge) criterion (incr_heap 1 w)
    else w in
  if negb (node_in w (head_of w edge) visited) then
    match add_heap_op (Z.max 1 (Z.of_nat (List.length heap))) w with
    | Ok w => Ok (w, heappush (Node_lt w) heap (head_of w edge))
    | Err e => Err e
    end
  else Ok (w, heap).

(** [for edge in current.outbound], over the edges still to be processed. *)
Fixpoint heap_edges (visited : list nat) (current : nat) (edges : list nat)
    (st : World * list nat) : result (World * list nat) :=
  match edges with
  | [] => Ok st
  | edge :: edges =>
      match relax_edge visited current edge st with
      | Ok st => heap_edges visited current edges st
      | Err e => Err e
      end
  end.

(** [heap_str(heap)]: what the debug string shows, the data of each node
    of the heap with [int(node.length)]; [int] raises OverflowError on
    [math.inf]. *)
Fixpoint heap_str (w : World) (heap : list nat) : result (list (pyobj * Z)) :=
  match heap with
  | [] => Ok []
  | node :: heap =>
      match length_of w node with
      | Fin z =>
          match heap_str w heap with
          | Ok items => Ok ((Node.data (node_at w node), z) :: items)
          | Err e => Err e
          end
      | Inf => Err OverflowError
      end
  end.

(** The body of [while len(heap) > 0], on the world, the visited list and
    the heap.  The argument [heap_str(heap)] of [logging.debug] is
    evaluated on every iteration, whether or not the message is logged. *)
Definition heap_iter (st : World * list nat * list nat)
    : result (World * list nat * list nat) :=
  let '(w, visited, heap) := st in
  match heap_str w heap with
  | Ok _ =>
      match add_heap_op (Z.of_nat (List.length heap)) w with
      | Ok w =>
          match heappop (Node_lt w) heap with
          | Ok (current, heap) =>
              let w := incr_heap 1 w in
              if id_in current visited then Ok (w, visited, heap)
              else
                let w := incr_heap 1 w in
                let visited := visited ++ [current] in
                match heap_edges visited current (outbound_of w current) (w, heap) with
                | Ok (w, heap) => Ok (w, visited, heap)
                | Err e => Err e
                end
          | Err e => Err e
          end
      | Err e => Err e
      end
  | Err e => Err e
  end.

(** The [while len(heap) > 0] loop; [None] when the fuel runs out. *)
Fixpoint heap_loop (fuel : nat) (st : World * list nat * list nat)
    : option (result World) :=
  match fuel with
  | O => None
  | S fuel =>
      if (0 <? List.length (snd st))%nat then
        match heap_iter st with
        | Ok st => heap_loop fuel st
        | Err e => Some (Err e)
        end
      else Some (Ok (fst (fst st)))
  end.

Definition heap_shortest_path (fuel : nat) (graph start : nat) (w : World)
    : option (result World) :=
  let w := incr_heap 3 w in
  let w := init_lengths incr_heap graph start w in
  let visited := [] in
  let heap := [start] in
  heap_loop fuel (w, visited, heap).

(** The state of the loop after [k] iterations from [st] (fewer when the
    heap empties before). *)
Fixpoint heap_iters (k : nat) (st : World * list nat * list nat)
    : result (World * list nat * list nat) :=
  match k with
  | O => Ok st
  | S k =>
      if (0 <? List.length (snd st))%nat then
        match heap_iter st with
        | Ok st => heap_iters k st
        | Err e => Err e
        end
      else Ok st
  end.

(** ** Notions used to state the properties *)

Definition node_exists (w : World) (n : nat) : Prop := is_Some (node_tbl w !! n).
Definition edge_exists (w : World) (e : nat) : Prop := is_Some (edge_tbl w !! e).

(** Every reference held by an object of the store is to an object of the
    store. *)
Definition closed (w : World) : Prop :=
  map_Forall (fun _ nd =>
      Forall (edge_exists w) (Node.outbound nd) ∧
      Forall (edge_exists w) (Node.inbound nd)) (node_tbl w) ∧
  map_Forall (fun _ ed =>
      node_exists w (Edge.tail ed) ∧ node_exists w (Edge.head ed)) (edge_tbl w) ∧
  map_Forall (fun _ gr =>
      Forall (node_exists w) (Graph.nodes gr) ∧
      Forall (edge_exists w) (Graph.edges gr)) (graph_tbl w).

(** The construction precondition of a graph: tails and heads of its edges
    are among its nodes, and the adjacency lists of its nodes are the
    registrations [Edge.__init__] makes for its edges. *)
Definition graph_wf (w : World) (graph : nat) : Prop :=
  let gr := graph_at w graph in
  Forall (fun e => tail_of w e ∈ Graph.nodes gr ∧ head_of w e ∈ Graph.nodes gr ∧
                   e ∈ outbound_of w (tail_of w e)) (Graph.edges gr) ∧
  Forall (fun n => Forall (fun e => e ∈ Graph.edges gr ∧ tail_of w e = n)
                          (outbound_of w n)) (Graph.nodes gr).

Definition nonneg_weights (w : World) (graph : nat) : Prop :=
  Forall (fun e => 0 ≤ weight_of w e) (Graph.edges (graph_at w graph)).

(** [w'] has the objects of [w], with the same fields except, possibly, the
    lengths of nodes (and the counters). *)
Definition frame (w w' : World) : Prop :=
  graph_tbl w' = graph_tbl w ∧
  edge_tbl w' = edge_tbl w ∧
  ∀ n, match node_tbl w !! n with
       | Some nd => ∃ len, node_tbl w' !! n = Some (Node.with_length len nd)
       | None => node_tbl w' !! n = None
       end.

(** A directed path of the graph from [s]: along edges of [graph.edges],
    from tail to head. *)
Inductive path (w : World) (graph : nat) (s : nat) : nat → Prop :=
  | path_start : path w graph s s
  | path_edge u e :
      path w graph s u →
      e ∈ Graph.edges (graph_at w graph) →
      tail_of w e = u →
      path w graph s (head_of w e).

(** A directed path along adjacency lists: from a node to the head of one
    of its outbound edges. *)
Inductive walk (w : World) (s : nat) : nat → Prop :=
  | walk_start : walk w s s
  | walk_edge u e :
      walk w s u →
      e ∈ outbound_of w u →
      walk w s (head_of w e).

(** The candidate edges of [get_best_edge], in scan order: the outbound
    edges of the visited nodes whose head is not visited. *)
Definition candidates (w : World) (visited : list nat) : list nat :=
  List.filter (fun e => negb (id_in (head_of w e) visited))
              (concat (map (outbound_of w) visited)).

(** [edge.tail.length + edge.weight] *)
Definition criterion_of (w : World) (e : nat) : num :=
  num_add (length_of w (tail_of w e)) (weight_of w e).

(** One comparison of the selection: the candidate replaces the best edge
    so far when its criterion is strictly smaller. *)
Definition better (w : World) (best : option nat * num) (e : nat) : option nat * num :=
  if num_ltb (criterion_of w e) (snd best) then (Some e, criterion_of w e) else best.

(** The stores of [w] and [w'] hold the same objects with the same fields
    (the counters may differ). *)
Definition same_store (w w' : World) : Prop :=
  node_tbl w' = node_tbl w ∧ edge_tbl w' = edge_tbl w ∧ graph_tbl w' = graph_tbl w.

(** The total of [f] over the nodes of [N] that are not visited: what the
    loops still have to go through. *)
Definition pending (f : nat → nat) (N visited : list nat) : nat :=
  sum_list (map f (List.filter (fun n => negb (id_in n visited)) N)).

(** Fuel that suffices for the loops: the simple loop adds a node of the
    store to [visited] in every iteration but the last, and the heap loop
    pops in every iteration one of at most one push per outbound edge. *)
Definition simple_fuel (w : World) : nat := S (size (node_tbl w)).

Definition heap_fuel (w : World) : nat :=
  S (S (sum_list (map (fun n => List.length (outbound_of w n))
                      (elements (dom (node_tbl w)))))).

End Program.

(** ** A term model of the float interface, to run the programs *)

Inductive fexp : Type :=
  | FInt (z : Z)
  | FAdd (a b : fexp)
  | FLog2 (z : Z).

#[global] Instance fexp_ops : FloatOps fexp :=
  {| f_of_Z := FInt; f_add := FAdd; f_log2 := FLog2 |}.

(** The store before any object is made, counters as [reset] leaves them. *)
Definition empty_world : World (F := fexp) :=
  mkWorld ∅ ∅ ∅ (mkOps 0 (FInt 0)).

(** [A -> B (0)], [B -> C (5)]; start [A]. *)
Definition zero_edge_graph : nat * nat * list nat * World (F := fexp) :=
  let '(a, w) := Node_init (PyStr "A") Inf empty_world in
  let '(b, w) := Node_init (PyStr "B") Inf w in
  let '(c, w) := Node_init (PyStr "C") Inf w in
  let '(e1, w) := Edge_init a b 0 w in
  let '(e2, w) := Edge_init b c 5 w in
  let '(g, w) := Graph_init [a; b; c] [e1; e2] w in
  (g, a, [a; b; c], w).

(** Positive weights only:
    [A -> P (5), Q (6), R (7), X (10), W (1)], [W -> X (1)], [X -> Y (1)],
    [Y -> P (1)], [P -> Z (1)]; start [A]. *)
Definition stale_heap_graph : nat * nat * list nat * World (F := fexp) :=
  let '(a, w) := Node_init (PyStr "A") Inf empty_world in
  let '(p, w) := Node_init (PyStr "P") Inf w in
  let '(q, w) := Node_init (PyStr "Q") Inf w in
  let '(r, w) := Node_init (PyStr "R") Inf w in
  let '(x, w) := Node_init (PyStr "X") Inf w in
  let '(wn, w) := Node_init (PyStr "W") Inf w in
  let '(y, w) := Node_init (PyStr "Y") Inf w in
  let '(z, w) := Node_init (PyStr "Z") Inf w in
  let '(e1, w) := Edge_init a p 5 w in
  let '(e2, w) := Edge_init a q 6 w in
  let '(e3, w) := Edge_init a r 7 w in
  let '(e4, w) := Edge_init a x 10 w in
  let '(e5, w) := Edge_init a wn 1 w in
  let '(e6, w) := Edge_init wn x 1 w in
  let '(e7, w) := Edge_init x y 1 w in
  let '(e8, w) := Edge_init y p 1 w in
  let '(e9, w) := Edge_init p z 1 w in
  let '(g, w) := Graph_init [a; p; q; r; x; wn; y; z] [e1; e2; e3; e4; e5; e6; e7; e8; e9] w in
  (g, a, [a; p; q; r; x; wn; y; z], w).

(** Scenario A of the specification: [A -> B (1), C (3)], [B -> C (1)];
    start [A]. *)
Definition scenario_a : nat * nat * list nat * World (F := fexp) :=
  let '(a, w) := Node_init (PyStr "A") Inf empty_world in
  let '(b, w) := Node_init (PyStr "B") Inf w in
  let '(c, w) := Node_init (PyStr "C") Inf w in
  let '(e1, w) := Edge_init a b 1 w in
  let '(e2, w) := Edge_init a c 3 w in
  let '(e3, w) := Edge_init b c 1 w in
  let '(g, w) := Graph_init [a; b; c] [e1; e2; e3] w in
  (g, a, [a; b; c], w).

(** Scenario C of the specification: two nodes and no edge; start the
    first. *)
Definition scenario_c : nat * nat * list nat * World (F := fexp) :=
  let '(a, w) := Node_init (PyInt 1) Inf empty_world in
  let '(b, w) := Node_init (PyInt 2) Inf w in
  let '(g, w) := Graph_init [a; b] [] w in
  (g, a, [a; b], w).


(** Scenario A with the lengths that a run from [A] leaves, given when
    the nodes are made: 0, 1 and 2. *)
Definition scenario_a_solved : nat * nat * list nat * World (F := fexp) :=
  let '(a, w) := Node_init (PyStr "A") (Fin 0) empty_world in
  let '(b, w) := Node_init (PyStr "B") (Fin 1) w in
  let '(c, w) := Node_init (PyStr "C") (Fin 2) w in
  let '(e1, w) := Edge_init a b 1 w in
  let '(e2, w) := Edge_init a c 3 w in
  let '(e3, w) := Edge_init b c 1 w in
  let '(g, w) := Graph_init [a; b; c] [e1; e2; e3] w in
  (g, a, [a; b; c], w).

(** The matrix of scenario A. *)
Definition scenario_a_matrix : list (list num) :=
  [[Inf; Fin 1; Fin 3];
   [Inf; Inf; Fin 1];
   [Inf; Inf; Inf]].

(** The parts of an example: the graph, the start node, the nodes to
    report on, and the store. *)
Definition graph_of {F : Type} (x : nat * nat * list nat * World (F := F)) : nat :=
  fst (fst (fst x)).
Definition start_of {F : Type} (x : nat * nat * list nat * World (F := F)) : nat :=
  snd (fst (fst x)).
Definition nodes_of {F : Type} (x : nat * nat * list nat * World (F := F)) : list nat :=
  snd (fst x).
Definition world_of {F : Type} (x : nat * nat * list nat * World (F := F))
    : World (F := F) := snd x.

(** The lengths of the nodes [ns] after a run. *)
Definition lengths_after {F : Type} (r : option (result (World (F := F)))) (ns : list nat)
    : option (list num) :=
  match r with
  | Some (Ok w) => Some (map (length_of w) ns)
  | _ => None
  end.

(** The state of the heap loop when [heap_shortest_path] enters it. *)
Definition heap_start {F : Type} `{FloatOps F} (graph start : nat) (w : World (F := F))
    : World (F := F) * list nat * list nat :=
  (init_lengths incr_heap graph start (incr_heap 3 w), [], [start]).

(** [distance(v) <= distance(u) + w] for the edge [e] from [u] to [v]. *)
Definition edge_relaxed {F : Type} (w : World (F := F)) (e : nat) : bool :=
  negb (num_ltb (num_add (length_of w (tail_of w e)) (weight_of w e))
                (length_of w (head_of w e))).

(** * The rest of the code *)

(** ** [measure_runs.RunData] *)

Module RunData.
Record t : Type := mk {
  n : Z;
  m : Z;
  simple_ops : Z;
  heap_ops : Z
}.
End RunData.

(** ** Helpers of [random_graph.py] *)

(** [clamp(value, min_value, max_value)] *)
Definition clamp (value min_value max_value : Z) : Z :=
  Z.max min_value (Z.min value max_value).

(** [remove_by_ref(lst, obj)] replaces the content of [lst]; the function
    gives the new content, the items of [lst] that are not (by identity)
    [obj]. *)
Definition remove_by_ref (lst : list nat) (obj : nat) : list nat :=
  List.filter (fun x => negb (Nat.eqb x obj)) lst.

(** ** Sequencing of steps that may raise *)

Definition bind {A B : Type} (r : result A) (k : A → result B) : result B :=
  match r with
  | Ok a => k a
  | Err e => Err e
  end.

(** A [for] loop whose body may raise. *)
Fixpoint fold_result {A B : Type} (f : A → B → result A) (a : A) (l : list B) : result A :=
  match l with
  | [] => Ok a
  | x :: l => bind (f a x) (fun a => fold_result f a l)
  end.

(** [l[i]] *)
Definition list_get {A : Type} (l : list A) (i : nat) : result A :=
  match l !! i with
  | Some x => Ok x
  | None => Err IndexError
  end.

(** [matrix[row][col] = v] *)
Definition matrix_set (matrix : list (list num)) (row col : nat) (v : num)
    : result (list (list num)) :=
  bind (list_get matrix row) (fun r =>
    if (col <? List.length r)%nat then Ok (<[row := <[col := v]> r]> matrix)
    else Err IndexError).

(** The finite entries of a matrix with their positions, rows first. *)
Definition matrix_entries (matrix : list (list num)) : list (nat * nat * Z) :=
  let n := List.length matrix in
  flat_map (fun row =>
    flat_map (fun col =>
      match matrix !! row with
      | Some r => match r !! col with
                  | Some (Fin z) => [(row, col, z)]
                  | _ => []
                  end
      | None => []
      end) (seq 0 n)) (seq 0 n).

Section MoreProgram.
Context {F : Type} `{FloatOps F}.

(** ** The rest of [structures.py] *)

(** [graph.add_node(node)], [graph.add_edge(edge)] *)
Definition add_node (graph node : nat) (w : World (F := F)) : World :=
  with_graphs
    (alter (fun gr => Graph.mk (Graph.nodes gr ++ [node]) (Graph.edges gr))
           graph (graph_tbl w)) w.

Definition add_edge (graph edge : nat) (w : World (F := F)) : World :=
  with_graphs
    (alter (fun gr => Graph.mk (Graph.nodes gr) (Graph.edges gr ++ [edge]))
           graph (graph_tbl w)) w.

(** [nodes.index(x)] on a list of nodes: the first position whose item is
    [x] or compares equal to it; ValueError when there is none. *)
Fixpoint node_index (w : World (F := F)) (l : list nat) (x : nat) : result nat :=
  match l with
  | [] => Err ValueError
  | y :: l =>
      if Nat.eqb y x || Node_eq w y x then Ok 0%nat
      else bind (node_index w l x) (fun i => Ok (S i))
  end.

(** The body of [for edge in self.edges] in [to_matrix]. *)
Definition to_matrix_edge (w : World (F := F)) (nodes : list nat)
    (matrix : list (list num)) (edge : nat) : result (list (list num)) :=
  bind (node_index w nodes (tail_of w edge)) (fun row =>
  bind (node_index w nodes (head_of w edge)) (fun col =>
  matrix_set matrix row col (Fin (weight_of w edge)))).

Definition to_matrix (graph : nat) (w : World (F := F)) : result (list (list num)) :=
  let nodes := Graph.nodes (graph_at w graph) in
  let n := List.length nodes in
  let matrix := replicate n (replicate n Inf) in
  fold_result (to_matrix_edge w nodes) matrix (Graph.edges (graph_at w graph)).

(** [[Node(i) for i in range(n)]] *)
Definition make_nodes (n : nat) (w : World (F := F)) : list nat * World (F := F) :=
  foldl (fun '(nodes, w) i =>
           let '(x, w) := Node_init (PyInt (Z.of_nat i)) Inf w in (nodes ++ [x], w))
        ([], w) (seq 0 n).

(** The body of the inner loop of [matrix_to_graph]. *)
Definition matrix_cell (matrix : list (list num)) (nodes : list nat) (row : nat)
    (st : list nat * World (F := F)) (col : nat) : result (list nat * World (F := F)) :=
  bind (list_get matrix row) (fun r =>
  bind (list_get r col) (fun x =>
  match x with
  | Inf => Ok st
  | Fin z =>
      bind (list_get nodes row) (fun tl =>
      bind (list_get nodes col) (fun hd =>
      let '(e, w) := Edge_init tl hd z (snd st) in
      Ok (fst st ++ [e], w)))
  end)).

Definition matrix_to_graph (matrix : list (list num)) (w : World (F := F)) : result (nat * World (F := F)) :=
  if negb (forallb (fun row => Nat.eqb (List.length row) (List.length matrix)) matrix)
  then Err ValueError
  else
    let n := List.length matrix in
    let '(nodes, w) := make_nodes n w in
    bind (fold_result
            (fun st row => fold_result (matrix_cell matrix nodes row) st (seq 0 n))
            ([], w) (seq 0 n))
         (fun '(edges, w) => Ok (Graph_init nodes edges w)).

(** ** [measure_runs.run_dijkstra] *)


(** ** Notions used to state the properties *)

(** A walk along adjacency lists from [s], with the sum of its weights. *)
Inductive walk_weight (w : World (F := F)) (s : nat) : nat → Z → Prop :=
  | walk_weight_start : walk_weight w s s 0
  | walk_weight_edge u e z :
      walk_weight w s u z →
      e ∈ outbound_of w u →
      walk_weight w s (head_of w e) (z + weight_of w e).

(** The entry of a matrix at a row and a column, if there is one. *)
Definition matrix_get (matrix : list (list num)) (row col : nat) : option num :=
  match matrix !! row with
  | Some r => r !! col
  | None => None
  end.

(** A matrix of [n] rows and [n] columns. *)
Definition square (n : nat) (matrix : list (list num)) : Prop :=
  List.length matrix = n ∧ Forall (fun r => List.length r = n) matrix.

(** What [to_matrix] writes at [(i, j)] for the edges in order, over the
    entry [acc]: the weight of each edge whose tail and head [nodes.index]
    finds at [i] and at [j]. *)
Definition cell_of_edges (w : World (F := F)) (nodes edges : list nat) (i j : nat)
    (acc : num) : num :=
  foldl (fun acc e =>
           match node_index w nodes (tail_of w e), node_index w nodes (head_of w e) with
           | Ok r, Ok c => if Nat.eqb r i && Nat.eqb c j then Fin (weight_of w e) else acc
           | _, _ => acc
           end) acc edges.

(** The weight of the last of the edges, or [math.inf]. *)
Definition last_weight (w : World (F := F)) (edges : list nat) : num :=
  match last edges with
  | Some e => Fin (weight_of w e)
  | None => Inf
  end.

(** A walk through the finite entries of a matrix from row [s], with the
    sum of the entries. *)
Inductive matrix_walk (matrix : list (list num)) (s : nat) : nat → Z → Prop :=
  | matrix_walk_start : matrix_walk matrix s s 0
  | matrix_walk_step i j z d :
      matrix_walk matrix s i z →
      matrix_get matrix i j = Some (Fin d) →
      matrix_walk matrix s j (z + d).

(** What holds of the edges made so far and of the store in the loops of
    [matrix_to_graph], where [wn] is the store after the nodes were made
    and [entries] are the positions and values of the entries gone
    through: the edges are new, one for each entry and in that order, each
    is in the adjacency list of its tail, the adjacency lists of the new
    nodes hold these edges only, and nothing else of the store changed. *)
Definition edges_built (wn : World (F := F)) (nodes : list nat)
    (st : list nat * World (F := F)) (entries : list (nat * nat * Z)) : Prop :=
  (closed wn → closed (snd st)) ∧
  graph_tbl (snd st) = graph_tbl wn ∧
  tracker (snd st) = tracker wn ∧
  (∀ x, node_exists (snd st) x ↔ node_exists wn x) ∧
  (∀ x, length_of (snd st) x = length_of wn x ∧
        Node.data (node_at (snd st) x) = Node.data (node_at wn x)) ∧
  (∀ x, x ∉ nodes → node_tbl (snd st) !! x = node_tbl wn !! x) ∧
  (∀ e, edge_exists wn e → edge_tbl (snd st) !! e = edge_tbl wn !! e) ∧
  Forall2 (fun e en =>
             ¬ edge_exists wn e ∧
             ∃ tl hd, nodes !! en.1.1 = Some tl ∧ nodes !! en.1.2 = Some hd ∧
                      edge_tbl (snd st) !! e = Some (Edge.mk tl hd en.2))
          (fst st) entries ∧
  (∀ x e, x ∈ nodes → e ∈ outbound_of (snd st) x → e ∈ fst st ∧ tail_of (snd st) e = x) ∧
  (∀ e, e ∈ fst st → e ∈ outbound_of (snd st) (tail_of (snd st) e)) ∧
  NoDup (fst st) ∧
  (∀ x, x ∈ nodes → NoDup (outbound_of (snd st) x)).

(** The total length of the adjacency lists of the nodes [ns]. *)
Definition out_total (w : World (F := F)) (ns : list nat) : nat :=
  sum_list (map (fun n => List.length (outbound_of w n)) ns).

(** Two runs end alike: both out of fuel, both raising the same exception,
    or both returning stores with the same objects and fields. *)
Definition same_outcome (r1 r2 : option (result (World (F := F)))) : Prop :=
  match r1, r2 with
  | Some (Ok w1), Some (Ok w2) => same_store w1 w2
  | Some (Err e1), Some (Err e2) => e1 = e2
  | None, None => True
  | _, _ => False
  end.

End MoreProgram.

(** * Properties *)

(** Decision procedures for the side conditions, to check them on concrete
    stores by evaluation. *)
#[global] Instance closed_dec {F : Type} (w : World (F := F)) : Decision (closed w).
Proof. unfold closed, node_exists, edge_exists. apply _. Defined.

#[global] Instance graph_wf_dec {F : Type} (w : World (F := F)) (g : nat) :
  Decision (graph_wf w g).
Proof. unfold graph_wf. apply _. Defined.

#[global] Instance nonneg_weights_dec {F : Type} (w : World (F := F)) (g : nat) :
  Decision (nonneg_weights w g).
Proof. unfold nonneg_weights. apply _. Defined.

#[global] Instance square_dec (n : nat) (matrix : list (list num)) :
  Decision (square n matrix).
Proof. unfold square. apply _. Defined.

Section Proofs.
Context {F : Type} `{FloatOps F}.
Implicit Types (w : World (F := F)) (n e g : nat) (visited heap : list nat).

(** ** Numbers *)

Lemma num_ltb_irrefl (a : num) : num_ltb a a = false.
Proof. destruct a; simpl; [apply Z.ltb_irrefl | reflexivity]. Qed.

Lemma num_eqb_eq (a b : num) : num_eqb a b = true ↔ a = b.
Proof.
  destruct a, b; simpl; split; intros E; try discriminate; try reflexivity.
  - apply Z.eqb_eq in E. by subst.
  - injection E as ->. apply Z.eqb_refl.
Qed.

(** ** The frame of the length updates *)

Lemma frame_same_store w w' :
  node_tbl w' = node_tbl w → edge_tbl w' = edge_tbl w → graph_tbl w' = graph_tbl w →
  frame w w'.
Proof.
  intros N E G. repeat split; [done .. |]. intros n. rewrite N.
  destruct (node_tbl w !! n) as [nd|] eqn:En; [|done].
  exists (Node.length nd). by destruct nd.
Qed.

Lemma frame_refl w : frame w w.
Proof. by apply frame_same_store. Qed.

Lemma frame_trans w1 w2 w3 : frame w1 w2 → frame w2 w3 → frame w1 w3.
Proof.
  intros (G1 & E1 & N1) (G2 & E2 & N2). repeat split; [congruence .. |].
  intros n. specialize (N1 n). specialize (N2 n).
  destruct (node_tbl w1 !! n) as [nd|].
  - destruct N1 as [l1 N1]. rewrite N1 in N2. destruct N2 as [l2 N2].
    exists l2. by rewrite N2.
  - by rewrite N1 in N2.
Qed.

Lemma frame_incr_simple k w : frame w (incr_simple k w).
Proof. by apply frame_same_store. Qed.

Lemma frame_incr_heap k w : frame w (incr_heap k w).
Proof. by apply frame_same_store. Qed.

Lemma frame_set_length n v w : frame w (set_length n v w).
Proof.
  repeat split. intros m. simpl. rewrite lookup_alter.
  destruct (decide (n = m)) as [->|].
  - destruct (node_tbl w !! m) as [nd|]; simpl; eauto.
  - destruct (node_tbl w !! m) as [nd|] eqn:E; [|done].
    exists (Node.length nd). by destruct nd.
Qed.

Lemma add_heap_op_ok (k : Z) w :
  0 < k →
  add_heap_op k w =
    Ok (with_tracker
          (mkOps (simple_ops (tracker w))
                 (f_add (heap_ops (tracker w)) (f_add (f_log2 k) (f_of_Z 1)))) w).
Proof.
  intros Hk. unfold add_heap_op, math_log2.
  by rewrite (proj2 (Z.ltb_lt 0 k) Hk).
Qed.

Lemma frame_node_at w w' n :
  frame w w' → ∃ len, node_at w' n = Node.with_length len (node_at w n).
Proof.
  intros (_ & _ & N). specialize (N n). unfold node_at.
  destruct (node_tbl w !! n) as [nd|].
  - destruct N as [len ->]. by exists len.
  - rewrite N. by exists Inf.
Qed.

Lemma frame_outbound w w' n : frame w w' → outbound_of w' n = outbound_of w n.
Proof.
  intros Fr. destruct (frame_node_at w w' n Fr) as [len E].
  unfold outbound_of. by rewrite E.
Qed.

Lemma frame_edge_at w w' e : frame w w' → edge_at w' e = edge_at w e.
Proof. intros (_ & E & _). unfold edge_at. by rewrite E. Qed.

Lemma frame_head w w' e : frame w w' → head_of w' e = head_of w e.
Proof. intros Fr. unfold head_of. by rewrite (frame_edge_at w w'). Qed.

Lemma frame_tail w w' e : frame w w' → tail_of w' e = tail_of w e.
Proof. intros Fr. unfold tail_of. by rewrite (frame_edge_at w w'). Qed.

Lemma frame_weight w w' e : frame w w' → weight_of w' e = weight_of w e.
Proof. intros Fr. unfold weight_of. by rewrite (frame_edge_at w w'). Qed.

Lemma frame_graph_at w w' g : frame w w' → graph_at w' g = graph_at w g.
Proof. intros (G & _ & _). unfold graph_at. by rewrite G. Qed.

Lemma frame_node_exists w w' n : frame w w' → node_exists w' n ↔ node_exists w n.
Proof.
  intros (_ & _ & N). specialize (N n). unfold node_exists.
  destruct (node_tbl w !! n) as [nd|].
  - destruct N as [len ->]. split; eauto.
  - rewrite N. done.
Qed.

Lemma frame_dom w w' : frame w w' → dom (node_tbl w') = dom (node_tbl w).
Proof.
  intros Fr. apply set_eq. intros n. rewrite !elem_of_dom.
  apply (frame_node_exists w w' n Fr).
Qed.

Lemma frame_edge_exists w w' e : frame w w' → edge_exists w' e ↔ edge_exists w e.
Proof. intros (_ & E & _). unfold edge_exists. by rewrite E. Qed.

Lemma frame_closed w w' : frame w w' → closed w → closed w'.
Proof.
  intros Fr (Cn & Ce & Cg). pose proof Fr as (G & E & N).
  split; [|split].
  - intros n nd' Hn. specialize (N n). specialize (Cn n).
    destruct (node_tbl w !! n) as [nd|]; [|congruence].
    destruct N as [len N]. rewrite N in Hn. injection Hn as <-.
    destruct (Cn nd eq_refl) as [Co Ci]. simpl.
    split; (eapply Forall_impl; [eassumption|]); intros e;
      by apply frame_edge_exists.
  - rewrite E. intros e ed He. destruct (Ce e ed He) as [Ct Ch].
    split; by apply (frame_node_exists w w').
  - rewrite G. intros g gr Hg. destruct (Cg g gr Hg) as [Cnn Cee].
    split; (eapply Forall_impl; [eassumption|]); intros x.
    + by apply frame_node_exists.
    + by apply frame_edge_exists.
Qed.

(** ** [get_best_edge] *)

Lemma same_store_frame w w' : same_store w w' → frame w w'.
Proof. intros (N & E & G). by apply frame_same_store. Qed.

Lemma same_store_length w w' n : same_store w w' → length_of w' n = length_of w n.
Proof. intros (N & _). unfold length_of, node_at. by rewrite N. Qed.

Lemma same_store_outbound w w' n : same_store w w' → outbound_of w' n = outbound_of w n.
Proof. intros (N & _). unfold outbound_of, node_at. by rewrite N. Qed.

Lemma same_store_criterion w w' e : same_store w w' → criterion_of w' e = criterion_of w e.
Proof.
  intros S. pose proof (same_store_frame _ _ S) as Fr. unfold criterion_of.
  by rewrite (frame_tail w w'), (frame_weight w w'), (same_store_length w w').
Qed.

Lemma scan_edge_spec visited w0 w best e :
  same_store w0 w →
  same_store w0 (fst (scan_edge visited (w, best) e)) ∧
  snd (scan_edge visited (w, best) e) =
    if negb (id_in (head_of w0 e) visited) then better w0 best e else best.
Proof.
  intros S. pose proof (same_store_frame _ _ S) as Fr.
  unfold scan_edge. destruct best as [be bc].
  rewrite (frame_head w0 w e Fr).
  destruct (negb (id_in (head_of w0 e) visited)); [|done].
  change (num_add _ _) with (criterion_of w e).
  rewrite (same_store_criterion w0 w e S). unfold better. simpl.
  by destruct (num_ltb (criterion_of w0 e) bc).
Qed.

Lemma scan_edges_spec visited w0 es : ∀ w best,
  same_store w0 w →
  same_store w0 (fst (foldl (scan_edge visited) (w, best) es)) ∧
  snd (foldl (scan_edge visited) (w, best) es) =
    foldl (better w0) best
      (List.filter (fun e => negb (id_in (head_of w0 e) visited)) es).
Proof.
  induction es as [|e es IH]; intros w best S; [done|].
  change (foldl (scan_edge visited) (w, best) (e :: es))
    with (foldl (scan_edge visited) (scan_edge visited (w, best) e) es).
  destruct (scan_edge_spec visited w0 w best e S) as [S1 E1].
  destruct (scan_edge visited (w, best) e) as [w1 best1]. simpl in S1, E1.
  destruct (IH w1 best1 S1) as [S2 E2]. split; [done|].
  rewrite E2, E1. simpl.
  by destruct (negb (id_in (head_of w0 e) visited)).
Qed.

Lemma scan_nodes_spec visited w0 ns : ∀ w best,
  same_store w0 w →
  same_store w0 (fst (foldl (scan_node visited) (w, best) ns)) ∧
  snd (foldl (scan_node visited) (w, best) ns) =
    foldl (better w0) best
      (List.filter (fun e => negb (id_in (head_of w0 e) visited))
                   (concat (map (outbound_of w0) ns))).
Proof.
  induction ns as [|n ns IH]; intros w best S; [done|].
  change (foldl (scan_node visited) (w, best) (n :: ns))
    with (foldl (scan_node visited)
            (foldl (scan_edge visited) (incr_simple 1 w, best) (outbound_of w n)) ns).
  rewrite (same_store_outbound w0 w n S).
  destruct (scan_edges_spec visited w0 (outbound_of w0 n) (incr_simple 1 w) best)
    as [S1 E1]; [done|].
  destruct (foldl (scan_edge visited) (incr_simple 1 w, best) (outbound_of w0 n))
    as [w1 best1]. simpl in S1, E1.
  destruct (IH w1 best1 S1) as [S2 E2]. split; [done|].
  rewrite E2, E1. simpl. by rewrite List.filter_app, foldl_app.
Qed.

Lemma get_best_edge_select w visited :
  same_store w (fst (get_best_edge w visited)) ∧
  snd (get_best_edge w visited) = foldl (better w) (None, Inf) (candidates w visited).
Proof. unfold get_best_edge, candidates. by apply scan_nodes_spec. Qed.

(** The selection over a list of candidates: what [foldl better] returns. *)
Lemma select_none w es :
  fst (foldl (better w) (None, Inf) es) = None →
  foldl (better w) (None, Inf) es = (None, Inf) ∧
  Forall (fun e => criterion_of w e = Inf) es.
Proof.
  induction es as [|e es IH] using rev_ind; [done|].
  rewrite foldl_app. simpl. unfold better at 1 3.
  destruct (num_ltb (criterion_of w e) _) eqn:L; [discriminate|].
  intros E. destruct (IH E) as [E1 A]. rewrite E1 in L |- *. split; [done|].
  apply Forall_app. split; [done|]. constructor; [|done].
  simpl in L. destruct (criterion_of w e); [discriminate|done].
Qed.

Lemma select_all_inf w es :
  Forall (fun e => criterion_of w e = Inf) es →
  foldl (better w) (None, Inf) es = (None, Inf).
Proof.
  induction es as [|e es IH] using rev_ind; [done|].
  intros Hall. apply Forall_app in Hall as [Hes He].
  apply Forall_cons in He as [He _].
  rewrite foldl_app, (IH Hes). simpl. unfold better. by rewrite He.
Qed.

Lemma select_some w es e c :
  foldl (better w) (None, Inf) es = (Some e, c) →
  ∃ pre post, es = pre ++ e :: post ∧ c = criterion_of w e ∧
    Forall (fun e' => num_lt c (criterion_of w e')) pre ∧
    Forall (fun e' => num_le c (criterion_of w e')) post.
Proof.
  revert e c. induction es as [|x es IH] using rev_ind; [done|].
  intros e c. rewrite foldl_app. simpl. unfold better at 1.
  destruct (num_ltb (criterion_of w x) _) eqn:L.
  - intros [= <- <-]. exists es, []. split; [done|]. split; [done|].
    split; [|done].
    destruct (foldl (better w) (None, Inf) es) as [[b|] bc] eqn:E.
    + destruct (IH b bc eq_refl) as (pre & post & -> & -> & Hpre & Hpost).
      simpl in L. apply Forall_app. split; [|constructor].
      * eapply Forall_impl; [exact Hpre|]. intros e' L'. unfold num_lt in *.
        destruct (criterion_of w x), (criterion_of w b), (criterion_of w e');
          simpl in *; try done; lia.
      * done.
      * eapply Forall_impl; [exact Hpost|]. intros e' L'. unfold num_le, num_lt in *.
        destruct (criterion_of w x), (criterion_of w b), (criterion_of w e');
          simpl in *; try done; lia.
    + destruct (select_none w es) as [E1 A]; [by rewrite E|].
      rewrite E in E1. injection E1 as ->.
      eapply Forall_impl; [exact A|]. intros e' ->. exact L.
  - intros E. destruct (IH e c E) as (pre & post & -> & -> & Hpre & Hpost).
    exists pre, (post ++ [x]). split; [by rewrite <- app_assoc|]. split; [done|].
    split; [done|]. apply Forall_app. split; [done|]. constructor; [|done].
    rewrite E in L. exact L.
Qed.

(** ** Membership and the visited list *)

Lemma id_in_spec x l : id_in x l = true ↔ x ∈ l.
Proof.
  unfold id_in. rewrite existsb_exists, list_elem_of_In. split.
  - intros (y & Hy & E). apply Nat.eqb_eq in E. by subst.
  - intros Hx. exists x. split; [done|]. apply Nat.eqb_refl.
Qed.

Lemma id_in_false x l : id_in x l = false ↔ x ∉ l.
Proof.
  rewrite <- id_in_spec. destruct (id_in x l); split; intros; congruence.
Qed.

Lemma candidates_spec w visited e :
  e ∈ candidates w visited ↔
  (∃ n, n ∈ visited ∧ e ∈ outbound_of w n) ∧ head_of w e ∉ visited.
Proof.
  unfold candidates. rewrite list_elem_of_In, List.filter_In, in_concat.
  rewrite negb_true_iff, id_in_false. split.
  - intros [(l & Hl & He) Hh]. split; [|done].
    apply in_map_iff in Hl as (n & <- & Hn).
    exists n. by rewrite !list_elem_of_In.
  - intros [(n & Hn & He) Hh]. split; [|done].
    exists (outbound_of w n). rewrite in_map_iff, <- list_elem_of_In.
    split; [|done]. exists n. by rewrite <- list_elem_of_In.
Qed.

Lemma pending_skip f N visited h :
  h ∉ N → pending f N (visited ++ [h]) = pending f N visited.
Proof.
  unfold pending. induction N as [|x N IH]; [done|].
  intros Hh. apply not_elem_of_cons in Hh as [Hx Hh]. simpl.
  assert (id_in x (visited ++ [h]) = id_in x visited) as ->.
  { destruct (id_in x visited) eqn:E.
    - apply id_in_spec. apply id_in_spec in E. apply elem_of_app. by left.
    - apply id_in_false. apply id_in_false in E.
      rewrite elem_of_app, list_elem_of_singleton. intros [?|?]; congruence. }
  destruct (negb (id_in x visited)); simpl; by rewrite IH.
Qed.

Lemma pending_visit f N visited h :
  NoDup N → h ∈ N → h ∉ visited →
  pending f N visited = (pending f N (visited ++ [h]) + f h)%nat.
Proof.
  induction N as [|x N IH]; intros ND Hh Hv; [by apply elem_of_nil in Hh|].
  apply NoDup_cons in ND as [Hx ND].
  destruct (decide (h = x)) as [->|Hne].
  - unfold pending. simpl.
    rewrite (proj2 (id_in_false x visited) Hv). simpl.
    assert (id_in x (visited ++ [x]) = true) as ->.
    { apply id_in_spec, elem_of_app. right. by apply list_elem_of_singleton. }
    simpl. fold (pending f N (visited ++ [x])). fold (pending f N visited).
    rewrite (pending_skip f N visited x Hx). lia.
  - apply elem_of_cons in Hh as [?|Hh]; [done|].
    specialize (IH ND Hh Hv). unfold pending in *. simpl.
    assert (id_in x (visited ++ [h]) = id_in x visited) as ->.
    { destruct (id_in x visited) eqn:E.
      - apply id_in_spec. apply id_in_spec in E. apply elem_of_app. by left.
      - apply id_in_false. apply id_in_false in E.
        rewrite elem_of_app, list_elem_of_singleton. intros [?|?]; congruence. }
    destruct (negb (id_in x visited)); simpl; lia.
Qed.

Lemma pending_le f N visited : (pending f N visited ≤ sum_list (map f N))%nat.
Proof.
  unfold pending. induction N as [|x N IH]; [done|]. simpl.
  destruct (negb (id_in x visited)); simpl; lia.
Qed.

(** ** Closed stores *)

Lemma closed_outbound w n e :
  closed w → e ∈ outbound_of w n →
  node_exists w n ∧ edge_exists w e ∧ node_exists w (head_of w e).
Proof.
  intros (Cn & Ce & _) He. unfold outbound_of, node_at, node_exists in *.
  destruct (node_tbl w !! n) as [nd|] eqn:En; [|by apply elem_of_nil in He].
  simpl in He. destruct (Cn n nd En) as [Co _].
  rewrite Forall_forall in Co. specialize (Co e He).
  split; [done|]. split; [done|].
  destruct Co as [ed Hed]. unfold head_of, edge_at. rewrite Hed. simpl.
  by destruct (Ce e ed Hed).
Qed.

(** The constructors build closed stores. *)
Lemma closed_empty (t : OpsTracker (F := F)) : closed (mkWorld ∅ ∅ ∅ t).
Proof. split; [|split]; apply map_Forall_empty. Qed.

Lemma closed_extend w w' :
  closed w →
  (∀ n, node_exists w n → node_exists w' n) →
  (∀ e, edge_exists w e → edge_exists w' e) →
  (∀ n nd', node_tbl w' !! n = Some nd' →
     (∃ nd, node_tbl w !! n = Some nd ∧
        Forall (fun e => e ∈ Node.outbound nd ∨ edge_exists w' e) (Node.outbound nd') ∧
        Forall (fun e => e ∈ Node.inbound nd ∨ edge_exists w' e) (Node.inbound nd')) ∨
     (Node.outbound nd' = [] ∧ Node.inbound nd' = [])) →
  (∀ e ed, edge_tbl w' !! e = Some ed →
     edge_tbl w !! e = Some ed ∨
     (node_exists w' (Edge.tail ed) ∧ node_exists w' (Edge.head ed))) →
  (∀ g gr, graph_tbl w' !! g = Some gr →
     graph_tbl w !! g = Some gr ∨
     (Forall (node_exists w') (Graph.nodes gr) ∧ Forall (edge_exists w') (Graph.edges gr))) →
  closed w'.
Proof.
  intros (Cn & Ce & Cg) Hn He Hnodes Hedges Hgraphs. split; [|split].
  - intros n nd' Hl. destruct (Hnodes n nd' Hl) as [(nd & Hnd & Ho & Hi)|[-> ->]]; [|done].
    destruct (Cn n nd Hnd) as [Co Ci]. rewrite Forall_forall in Co, Ci.
    split; (eapply Forall_impl; [eassumption|]); intros e [Hin|Hex]; auto.
  - intros e ed Hl. destruct (Hedges e ed Hl) as [Hold|Hnew]; [|done].
    destruct (Ce e ed Hold). auto.
  - intros g gr Hl. destruct (Hgraphs g gr Hl) as [Hold|Hnew]; [|done].
    destruct (Cg g gr Hold) as [Gn Ge].
    split; (eapply Forall_impl; [eassumption|]); auto.
Qed.

Lemma Node_init_closed d len w : closed w → closed (snd (Node_init d len w)).
Proof.
  intros C. unfold Node_init. simpl.
  set (n := fresh (dom (node_tbl w))).
  assert (∀ m, node_exists w m →
               node_exists (with_nodes (<[n:=Node.mk d [] [] len]> (node_tbl w)) w) m) as Hn.
  { intros m Hm. unfold node_exists. simpl. apply lookup_insert_is_Some.
    destruct (decide (n = m)); auto. }
  apply (closed_extend w); try done; simpl.
  - intros m nd' Hl. apply lookup_insert_Some in Hl as [[_ <-]|[_ Hl]]; [by right|].
    left. exists nd'. split; [done|]. split; apply Forall_forall; auto.
  - auto.
  - auto.
Qed.

Lemma add_outbound_closed n e w :
  closed w → edge_exists w e → closed (add_outbound n e w).
Proof.
  intros C He. apply (closed_extend w); try done; simpl.
  - intros m Hm. unfold node_exists. simpl. by apply lookup_alter_is_Some.
  - intros m nd' Hl. left. apply lookup_alter_Some in Hl as [(_ & nd & Hnd & ->)|[_ Hl]].
    + exists nd. split; [by subst|]. simpl. split; apply Forall_forall; [|auto].
      intros x Hx. apply elem_of_app in Hx as [Hx|Hx]; [auto|].
      apply list_elem_of_singleton in Hx as ->. by right.
    + exists nd'. split; [done|]. split; apply Forall_forall; auto.
  - auto.
  - auto.
Qed.

Lemma add_inbound_closed n e w :
  closed w → edge_exists w e → closed (add_inbound n e w).
Proof.
  intros C He. apply (closed_extend w); try done; simpl.
  - intros m Hm. unfold node_exists. simpl. by apply lookup_alter_is_Some.
  - intros m nd' Hl. left. apply lookup_alter_Some in Hl as [(_ & nd & Hnd & ->)|[_ Hl]].
    + exists nd. split; [by subst|]. simpl. split; apply Forall_forall; [auto|].
      intros x Hx. apply elem_of_app in Hx as [Hx|Hx]; [auto|].
      apply list_elem_of_singleton in Hx as ->. by right.
    + exists nd'. split; [done|]. split; apply Forall_forall; auto.
  - auto.
  - auto.
Qed.

Lemma Edge_init_closed tl hd wt w :
  closed w → node_exists w tl → node_exists w hd →
  closed (snd (Edge_init tl hd wt w)).
Proof.
  intros C Ht Hh. unfold Edge_init. simpl.
  set (e := fresh (dom (edge_tbl w))).
  set (w1 := with_edges (<[e:=Edge.mk tl hd wt]> (edge_tbl w)) w).
  assert (edge_exists w1 e) as He.
  { unfold edge_exists, w1. simpl. rewrite lookup_insert_eq. eauto. }
  apply add_inbound_closed; [apply add_outbound_closed; [|done]|done].
  apply (closed_extend w); try done; simpl.
  - intros x Hx. unfold edge_exists. simpl. apply lookup_insert_is_Some.
    destruct (decide (e = x)); auto.
  - intros m nd' Hl. left. exists nd'. split; [done|]. split; apply Forall_forall; auto.
  - intros x ed Hl. apply lookup_insert_Some in Hl as [[_ <-]|[_ Hl]]; [by right|by left].
  - auto.
Qed.

Lemma Graph_init_closed ns es w :
  closed w → Forall (node_exists w) ns → Forall (edge_exists w) es →
  closed (snd (Graph_init ns es w)).
Proof.
  intros C Hns Hes. unfold Graph_init. simpl.
  apply (closed_extend w); try done; simpl.
  - intros m nd' Hl. left. exists nd'. split; [done|]. split; apply Forall_forall; auto.
  - auto.
  - intros g gr Hl. apply lookup_insert_Some in Hl as [[_ <-]|[_ Hl]]; [by right|by left].
Qed.

Lemma node_exists_dom w n : node_exists w n ↔ n ∈ elements (dom (node_tbl w)).
Proof. by rewrite elem_of_elements, elem_of_dom. Qed.

(** ** The loop of [simple_shortest_path] *)

Lemma same_store_eq w w' : same_store w w' → w' = with_tracker (tracker w') w.
Proof. destruct w, w'. unfold same_store, with_tracker. simpl. by intros (-> & -> & ->). Qed.

(** One iteration, with the selection written over the candidates. *)
Lemma simple_loop_step fuel w visited :
  ∃ t,
    simple_loop (S fuel) w visited =
      match foldl (better w) (None, Inf) (candidates w visited) with
      | (None, _) => Some (incr_simple 1 (with_tracker t w))
      | (Some e, c) =>
          simple_loop fuel
            (set_length (head_of w e) c (incr_simple 2 (incr_simple 1 (with_tracker t w))))
            (visited ++ [head_of w e])
      end.
Proof.
  destruct (get_best_edge_select w visited) as [S E].
  simpl. destruct (get_best_edge w visited) as [w1 [ne c]]. simpl in S, E.
  rewrite <- E. exists (tracker w1).
  pose proof (same_store_eq w w1 S) as Ew. rewrite Ew.
  by destruct ne.
Qed.

Lemma select_some_candidate w visited e c :
  foldl (better w) (None, Inf) (candidates w visited) = (Some e, c) →
  e ∈ candidates w visited ∧ c = criterion_of w e ∧ c ≠ Inf.
Proof.
  intros E. destruct (select_some _ _ _ _ E) as (pre & post & Ec & -> & _ & _).
  split; [|split; [done|]].
  - rewrite Ec. apply elem_of_app. right. by left.
  - clear Ec. revert E. generalize (candidates w visited).
    intros es. induction es as [|x es IH] using rev_ind; [done|].
    rewrite foldl_app. simpl. unfold better at 1.
    destruct (num_ltb (criterion_of w x) _) eqn:L.
    + intros [= <-] Ei. rewrite Ei in L. by destruct (_ .2).
    + done.
Qed.

(** The loop returns, given fuel for the nodes still to be visited. *)
Lemma simple_loop_terminates fuel : ∀ w visited,
  closed w →
  (pending (fun _ => 1%nat) (elements (dom (node_tbl w))) visited < fuel)%nat →
  ∃ w', simple_loop fuel w visited = Some w'.
Proof.
  induction fuel as [|fuel IH]; intros w visited C Hf; [lia|].
  destruct (simple_loop_step fuel w visited) as [t ->].
  destruct (foldl _ _ _) as [[e|] c] eqn:E; [|eauto].
  destruct (select_some_candidate _ _ _ _ E) as (Hc & _ & _).
  apply candidates_spec in Hc as [(n & Hn & He) Hh].
  destruct (closed_outbound w n e C He) as (_ & _ & Hx).
  apply IH.
  - eapply frame_closed; [|exact C].
    eapply frame_trans; [|apply frame_set_length]. by apply frame_same_store.
  - erewrite frame_dom;
      [|eapply frame_trans; [|apply frame_set_length]; by apply frame_same_store].
    simpl.
    rewrite (pending_visit _ _ visited (head_of w e)) in Hf;
      [lia | apply NoDup_elements | by apply node_exists_dom | done].
Qed.

(** Invariants of the loop: a property of the store and the visited list
    that each visit keeps holds when the loop returns, and then no edge
    with a finite criterion leaves the visited nodes. *)
Lemma simple_loop_inv (I : World → list nat → Prop) :
  (∀ w t visited, I w visited → I (with_tracker t w) visited) →
  (∀ w visited e c,
      I w visited →
      foldl (better w) (None, Inf) (candidates w visited) = (Some e, c) →
      I (set_length (head_of w e) c w) (visited ++ [head_of w e])) →
  ∀ fuel w visited w',
    I w visited → simple_loop fuel w visited = Some w' →
    ∃ visited', I w' visited' ∧
      fst (foldl (better w') (None, Inf) (candidates w' visited')) = None.
Proof.
  intros It Is. induction fuel as [|fuel IH]; intros w visited w' Hi; [done|].
  destruct (simple_loop_step fuel w visited) as [t ->].
  destruct (foldl _ _ _) as [[e|] c] eqn:E.
  - apply IH.
    apply (It (set_length (head_of w e) c w) (tracker (incr_simple 2 (incr_simple 1 (with_tracker t w))))).
    by apply Is.
  - intros [= <-]. exists visited. split.
    + by apply (It w (tracker (incr_simple 1 (with_tracker t w)))).
    + change (candidates _ visited) with (candidates w visited).
      change (better _) with (better w) at 1.  by rewrite E.
Qed.

(** ** Length updates and the initialisation *)

Lemma length_set_length_eq w n v :
  node_exists w n → length_of (set_length n v w) n = v.
Proof.
  intros [nd E]. unfold length_of, node_at, set_length. simpl.
  by rewrite lookup_alter_eq, E.
Qed.

Lemma length_set_length_ne w n m v :
  n ≠ m → length_of (set_length n v w) m = length_of w m.
Proof.
  intros Hne. unfold length_of, node_at, set_length. simpl.
  by rewrite lookup_alter_ne.
Qed.

Lemma length_set_length w n m v :
  length_of (set_length n v w) m = v ∨
  length_of (set_length n v w) m = length_of w m.
Proof.
  destruct (decide (n = m)) as [->|Hne]; [|right; by apply length_set_length_ne].
  unfold length_of, node_at, set_length. simpl. rewrite lookup_alter_eq.
  destruct (node_tbl w !! m); simpl; auto.
Qed.

Lemma length_set_length_inf w n : length_of (set_length n Inf w) n = Inf.
Proof.
  unfold length_of, node_at, set_length. simpl. rewrite lookup_alter_eq.
  by destruct (node_tbl w !! n).
Qed.

Section Init.
Variable incr : Z → World (F := F) → World (F := F).
Hypothesis incr_tracker : ∀ k w, incr k w = with_tracker (tracker (incr k w)) w.

Lemma incr_frame k w : frame w (incr k w).
Proof. rewrite incr_tracker. by apply frame_same_store. Qed.

Lemma incr_length k w n : length_of (incr k w) n = length_of w n.
Proof. by rewrite incr_tracker. Qed.

Lemma init_fold start ns : ∀ w,
  let init_step := fun w node =>
    let w := incr 1 w in
    if negb (Nat.eqb node start) then set_length node Inf (incr 1 w) else w in
  let w' := foldl init_step w ns in
  frame w w' ∧
  ∀ n, (n ∈ ns → n ≠ start → length_of w' n = Inf) ∧
       (n ∉ ns ∨ n = start → length_of w' n = length_of w n).
Proof.
  intros w init_step. revert w.
  induction ns as [|x ns IH]; intros w; simpl.
  { split; [apply frame_refl|]. intros n. split; [|done].
    intros Hn. by apply elem_of_nil in Hn. }
  destruct (IH (init_step w x)) as [Fr Hl].
  assert (frame w (init_step w x)) as Fx.
  { unfold init_step. destruct (negb (x =? start)%nat).
    - eapply frame_trans; [|apply frame_set_length].
      eapply frame_trans; apply incr_frame.
    - apply incr_frame. }
  split; [by eapply frame_trans|].
  assert (∀ n, n ≠ x ∨ n = start →
            length_of (init_step w x) n = length_of w n) as Hx.
  { intros n Hn. unfold init_step.
    destruct (x =? start)%nat eqn:E; simpl.
    - apply incr_length.
    - apply Nat.eqb_neq in E. rewrite length_set_length_ne.
      + by rewrite !incr_length.
      + destruct Hn; congruence. }
  intros n. destruct (Hl n) as [Hl1 Hl2]. split.
  - intros Hn Hne. destruct (decide (n ∈ ns)) as [Hin|Hnin]; [by apply Hl1|].
    apply elem_of_cons in Hn as [->|?]; [|done].
    rewrite Hl2 by (by left). unfold init_step.
    apply Nat.eqb_neq in Hne. rewrite Hne. simpl.
    apply length_set_length_inf.
  - intros Hn. rewrite Hl2, Hx; [done| |].
    + destruct Hn as [Hn|Hn]; [|by right].
      left. intros ->. apply Hn. by left.
    + destruct Hn as [Hn|Hn]; [|by right].
      left. intros Hin. apply Hn. by right.
Qed.

(** After the initialisation the start node has length 0 and every other
    node of the graph has length [math.inf]. *)
Lemma init_lengths_spec graph start w :
  let w' := init_lengths incr graph start w in
  frame w w' ∧
  (node_exists w start → length_of w' start = Fin 0) ∧
  (∀ n, n ∈ Graph.nodes (graph_at w graph) → n ≠ start → length_of w' n = Inf) ∧
  (∀ n, n ∉ Graph.nodes (graph_at w graph) → n ≠ start →
        length_of w' n = length_of w n).
Proof.
  unfold init_lengths.
  pose proof (frame_graph_at w (set_length start (Fin 0) w) graph
                (frame_set_length _ _ _)) as Eg.
  destruct (init_fold start (Graph.nodes (graph_at (set_length start (Fin 0) w) graph))
              (set_length start (Fin 0) w)) as [Fr Hl].
  cbv zeta in Fr, Hl |- *. split; [|split; [|split]].
  - eapply frame_trans; [apply frame_set_length | exact Fr].
  - intros Hs. destruct (Hl start) as [_ E]. rewrite E by (by right).
    by apply length_set_length_eq.
  - intros n Hn Hne. rewrite <- Eg in Hn. by apply Hl.
  - intros n Hn Hne. rewrite <- Eg in Hn. destruct (Hl n) as [_ E].
    rewrite E by (by left). by apply length_set_length_ne.
Qed.
End Init.

Lemma incr_simple_tracker k w :
  incr_simple k w = with_tracker (tracker (incr_simple k w)) w.
Proof. done. Qed.

Lemma incr_heap_tracker k w :
  incr_heap k w = with_tracker (tracker (incr_heap k w)) w.
Proof. done. Qed.

(** ** What a run of [simple_shortest_path] establishes *)

Lemma simple_fuel_enough w w' visited fuel :
  frame w w' → (simple_fuel w ≤ fuel)%nat →
  (pending (fun _ => 1%nat) (elements (dom (node_tbl w'))) visited < fuel)%nat.
Proof.
  intros Fr Hf. rewrite (frame_dom w w' Fr).
  eapply Nat.le_lt_trans; [apply pending_le|].
  assert (∀ l : list nat, sum_list (map (fun _ => 1%nat) l) = List.length l) as ->.
  { induction l; simpl; congruence. }
  assert (List.length (elements (dom (node_tbl w))) = size (node_tbl w)) as ->.
  { rewrite <- size_dom. reflexivity. }
  unfold simple_fuel in Hf. lia.
Qed.

Lemma simple_run fuel graph start w :
  closed w → node_exists w start → (simple_fuel w ≤ fuel)%nat →
  ∃ w' visited,
    simple_shortest_path fuel graph start w = Some (Ok w') ∧
    frame w w' ∧
    length_of w' start = Fin 0 ∧
    start ∈ visited ∧
    (∀ n, n ∈ visited → walk w start n) ∧
    (∀ n, n ∈ Graph.nodes (graph_at w graph) → n ∉ visited → length_of w' n = Inf).
Proof.
  intros C Hs Hf. unfold simple_shortest_path.
  destruct (init_lengths_spec incr_simple incr_simple_tracker graph start (incr_simple 2 w))
    as (Fr & H0 & Hinf & _).
  set (wi := init_lengths incr_simple graph start (incr_simple 2 w)) in *.
  assert (frame w wi) as Fri.
  { eapply frame_trans; [apply (frame_incr_simple 2)|exact Fr]. }
  destruct (simple_loop_terminates fuel wi [start]) as [w' Hw'].
  { by eapply frame_closed. }
  { by eapply simple_fuel_enough. }
  rewrite Hw'. simpl.
  pose (I := fun (w1 : World (F := F)) (visited : list nat) =>
    frame w w1 ∧ length_of w1 start = Fin 0 ∧ start ∈ visited ∧
    (∀ n, n ∈ visited → walk w start n) ∧
    (∀ n, n ∈ Graph.nodes (graph_at w graph) → n ∉ visited → length_of w1 n = Inf)).
  destruct (simple_loop_inv I) with (fuel := fuel) (w := wi) (visited := [start]) (w' := w')
    as (visited' & (I1 & I2 & I3 & I4 & I5) & _); [| | |done|].
  - intros w1 t visited (I1 & I2 & I3 & I4 & I5).
    refine (conj _ (conj I2 (conj I3 (conj I4 I5)))).
    eapply frame_trans; [exact I1|]. by apply frame_same_store.
  - intros w1 visited e c (I1 & I2 & I3 & I4 & I5) E.
    destruct (select_some_candidate _ _ _ _ E) as (Hc & _ & _).
    apply candidates_spec in Hc as [(n & Hn & He) Hh].
    refine (conj _ (conj _ (conj _ (conj _ _)))).
    + eapply frame_trans; [exact I1|apply frame_set_length].
    + rewrite length_set_length_ne; [done|]. intros Eh. by rewrite Eh in Hh.
    + apply elem_of_app. by left.
    + intros m Hm. apply elem_of_app in Hm as [Hm|Hm]; [by apply I4|].
      apply list_elem_of_singleton in Hm as ->.
      rewrite (frame_head w w1 e I1). apply (walk_edge w start n e); [by apply I4|].
      by rewrite <- (frame_outbound w w1 n I1).
    + intros m Hm Hv. rewrite length_set_length_ne.
      * apply I5; [done|]. intros Hv'. apply Hv, elem_of_app. by left.
      * intros Em. apply Hv, elem_of_app. right. by apply list_elem_of_singleton.
  - refine (conj _ (conj _ (conj _ (conj _ _)))).
    + done.
    + by apply H0.
    + by apply list_elem_of_singleton.
    + intros n Hn. apply list_elem_of_singleton in Hn as ->. constructor.
    + intros n Hn Hv. apply Hinf; [done|]. intros ->.
      apply Hv. by apply list_elem_of_singleton.
  - by exists w', visited'.
Qed.

(** ** [heapq]: the items of the heap *)

Section HeapItems.
Variable P : nat → Prop.
Variable lt : nat → nat → bool.

Lemma siftdown_loop_Forall fuel : ∀ heap newitem startpos pos,
  Forall P heap → P newitem →
  Forall P (siftdown_loop fuel lt heap newitem startpos pos).
Proof.
  induction fuel as [|fuel IH]; intros heap newitem startpos pos Hh Hn; cbn [siftdown_loop].
  { by apply Forall_insert. }
  destruct (startpos <? pos)%nat; [|by apply Forall_insert].
  destruct (heap !! ((pos - 1) / 2)%nat) as [parent|] eqn:E; [|by apply Forall_insert].
  destruct (lt newitem parent); [|by apply Forall_insert].
  apply IH; [|done]. apply Forall_insert; [done|].
  by eapply Forall_lookup_1.
Qed.

Lemma siftdown_Forall heap startpos pos :
  Forall P heap → Forall P (_siftdown lt heap startpos pos).
Proof.
  intros Hh. unfold _siftdown. destruct (heap !! pos) as [newitem|] eqn:E; [|done].
  apply siftdown_loop_Forall; [done|]. by eapply Forall_lookup_1.
Qed.

Lemma siftup_loop_Forall fuel : ∀ heap endpos pos,
  Forall P heap → Forall P (fst (siftup_loop fuel lt heap endpos pos)).
Proof.
  induction fuel as [|fuel IH]; intros heap endpos pos Hh; cbn [siftup_loop]; [done|].
  destruct (2 * pos + 1 <? endpos)%nat; [|done].
  set (childpos := match heap !! _, heap !! _ with
                   | Some c, Some r => _ | _, _ => _ end).
  destruct (heap !! childpos) as [c|] eqn:E; [|done].
  apply IH. apply Forall_insert; [done|]. by eapply Forall_lookup_1.
Qed.

Lemma siftup_Forall heap pos : Forall P heap → Forall P (_siftup lt heap pos).
Proof.
  intros Hh. unfold _siftup. destruct (heap !! pos) as [newitem|] eqn:E; [|done].
  pose proof (siftup_loop_Forall (List.length heap) heap (List.length heap) pos Hh) as Hl.
  destruct (siftup_loop _ lt heap _ pos) as [heap1 pos1]. simpl in Hl.
  apply siftdown_Forall, Forall_insert; [done|].
  exact (Forall_lookup_1 P heap pos newitem Hh E).
Qed.

Lemma heappush_Forall heap item :
  Forall P heap → P item → Forall P (heappush lt heap item).
Proof.
  intros Hh Hi. unfold heappush. apply siftdown_Forall, Forall_app. split; [done|].
  by constructor.
Qed.

Lemma heappop_Forall heap x heap' :
  Forall P heap → heappop lt heap = Ok (x, heap') → P x ∧ Forall P heap'.
Proof.
  intros Hh. unfold heappop, list_pop.
  destruct (last heap) as [lastelt|] eqn:El; [|done].
  apply last_Some in El as [l' ->]. rewrite removelast_last.
  apply Forall_app in Hh as [Hl Hx]. apply Forall_cons in Hx as [Hx _].
  destruct l' as [|returnitem l'].
  - by intros [= <- <-].
  - intros [= <- <-]. apply Forall_cons in Hl as [Hr Hl]. split; [done|].
    apply siftup_Forall. simpl. by constructor.
Qed.
End HeapItems.

(** ** [heapq]: the size of the heap *)

Lemma siftdown_loop_length fuel lt : ∀ heap newitem startpos pos,
  List.length (siftdown_loop fuel lt heap newitem startpos pos) = List.length heap.
Proof.
  induction fuel as [|fuel IH]; intros heap newitem startpos pos; cbn [siftdown_loop].
  { apply length_insert. }
  destruct (startpos <? pos)%nat; [|apply length_insert].
  destruct (heap !! ((pos - 1) / 2)%nat) as [parent|]; [|apply length_insert].
  destruct (lt newitem parent); [|apply length_insert].
  by rewrite IH, length_insert.
Qed.

Lemma siftdown_length lt heap startpos pos :
  List.length (_siftdown lt heap startpos pos) = List.length heap.
Proof.
  unfold _siftdown. destruct (heap !! pos); [|done]. apply siftdown_loop_length.
Qed.

Lemma siftup_loop_length fuel lt : ∀ heap endpos pos,
  List.length (fst (siftup_loop fuel lt heap endpos pos)) = List.length heap.
Proof.
  induction fuel as [|fuel IH]; intros heap endpos pos; cbn [siftup_loop]; [done|].
  destruct (2 * pos + 1 <? endpos)%nat; [|done].
  set (childpos := match heap !! _, heap !! _ with
                   | Some c, Some r => _ | _, _ => _ end).
  destruct (heap !! childpos) as [c|]; [|done].
  by rewrite IH, length_insert.
Qed.

Lemma siftup_length lt heap pos :
  List.length (_siftup lt heap pos) = List.length heap.
Proof.
  unfold _siftup. destruct (heap !! pos) as [newitem|]; [|done].
  pose proof (siftup_loop_length (List.length heap) lt heap (List.length heap) pos) as Hl.
  destruct (siftup_loop _ lt heap _ pos) as [heap1 pos1]. simpl in Hl.
  by rewrite siftdown_length, length_insert.
Qed.

Lemma heappush_length lt heap item :
  List.length (heappush lt heap item) = S (List.length heap).
Proof.
  unfold heappush. rewrite siftdown_length, length_app. simpl. lia.
Qed.

(** [heappop] succeeds on a heap that is not empty, and takes one item. *)
Lemma heappop_length lt heap :
  (0 < List.length heap)%nat →
  ∃ x heap', heappop lt heap = Ok (x, heap') ∧ List.length heap = S (List.length heap').
Proof.
  intros Hl. unfold heappop, list_pop.
  destruct (last heap) as [lastelt|] eqn:El.
  - apply last_Some in El as [l' ->]. rewrite removelast_last.
    destruct l' as [|returnitem l'].
    + by exists lastelt, [].
    + eexists _, _. split; [done|].
      rewrite siftup_length, length_insert, length_app. simpl. lia.
  - apply last_None in El as ->. simpl in Hl. lia.
Qed.

(** [heappop] on the empty list raises IndexError. *)
Lemma heappop_empty lt : heappop lt [] = Err IndexError.
Proof. done. Qed.

(** ** [heapq]: the fuel of the sift loops is enough *)

(** [_siftdown] runs its loop with fuel [pos]; more fuel changes nothing,
    as the position at least halves in every iteration. *)
Lemma siftdown_loop_fuel lt fuel : ∀ heap newitem startpos pos,
  (pos ≤ fuel)%nat →
  siftdown_loop (S fuel) lt heap newitem startpos pos =
  siftdown_loop fuel lt heap newitem startpos pos.
Proof.
  induction fuel as [|fuel IH]; intros heap newitem startpos pos Hp.
  - assert (pos = 0%nat) as -> by lia. cbn [siftdown_loop].
    by destruct (startpos <? 0)%nat eqn:E; [apply Nat.ltb_lt in E; lia|].
  - change (siftdown_loop (S (S fuel)) lt heap newitem startpos pos) with
      (if (startpos <? pos)%nat then
         match heap !! ((pos - 1) / 2)%nat with
         | Some parent =>
             if lt newitem parent then
               siftdown_loop (S fuel) lt (<[pos := parent]> heap) newitem startpos
                             ((pos - 1) / 2)%nat
             else <[pos := newitem]> heap
         | None => <[pos := newitem]> heap
         end
       else <[pos := newitem]> heap).
    cbn [siftdown_loop].
    destruct (startpos <? pos)%nat eqn:E; [|done]. apply Nat.ltb_lt in E.
    destruct (heap !! ((pos - 1) / 2)%nat) as [parent|]; [|done].
    destruct (lt newitem parent); [|done].
    apply IH. assert ((pos - 1) / 2 ≤ pos - 1)%nat by (apply Nat.Div0.div_le_upper_bound; lia).
    lia.
Qed.

Lemma siftdown_loop_enough lt k : ∀ heap newitem startpos pos,
  siftdown_loop (pos + k) lt heap newitem startpos pos =
  siftdown_loop pos lt heap newitem startpos pos.
Proof.
  induction k as [|k IH]; intros heap newitem startpos pos.
  - by rewrite Nat.add_0_r.
  - rewrite Nat.add_succ_r, siftdown_loop_fuel by lia. apply IH.
Qed.

(** [_siftup] runs its loop with fuel [endpos]; more fuel changes nothing,
    as the position grows in every iteration and stays below [endpos]. *)
Lemma siftup_loop_fuel lt fuel : ∀ heap endpos pos,
  (endpos - pos ≤ fuel)%nat →
  siftup_loop (S fuel) lt heap endpos pos = siftup_loop fuel lt heap endpos pos.
Proof.
  induction fuel as [|fuel IH]; intros heap endpos pos Hp.
  - cbn [siftup_loop].
    by destruct (2 * pos + 1 <? endpos)%nat eqn:E; [apply Nat.ltb_lt in E; lia|].
  - change (siftup_loop (S (S fuel)) lt heap endpos pos) with
      (let childpos := (2 * pos + 1)%nat in
       if (childpos <? endpos)%nat then
         let rightpos := (childpos + 1)%nat in
         let childpos :=
           match heap !! childpos, heap !! rightpos with
           | Some c, Some r =>
               if (rightpos <? endpos)%nat && negb (lt c r) then rightpos else childpos
           | _, _ => childpos
           end in
         match heap !! childpos with
         | Some c => siftup_loop (S fuel) lt (<[pos := c]> heap) endpos childpos
         | None => (heap, pos)
         end
       else (heap, pos)).
    cbn [siftup_loop]. cbv zeta.
    destruct (2 * pos + 1 <? endpos)%nat eqn:E; [|done]. apply Nat.ltb_lt in E.
    set (childpos :=
           match heap !! (2 * pos + 1)%nat, heap !! (2 * pos + 1 + 1)%nat with
           | Some c, Some r =>
               if (2 * pos + 1 + 1 <? endpos)%nat && negb (lt c r)
               then (2 * pos + 1 + 1)%nat else (2 * pos + 1)%nat
           | _, _ => (2 * pos + 1)%nat
           end).
    assert (2 * pos + 1 ≤ childpos)%nat as Hc.
    { unfold childpos.
      destruct (heap !! (2 * pos + 1)%nat) as [c|]; [|lia].
      destruct (heap !! (2 * pos + 1 + 1)%nat) as [r|]; [|lia].
      destruct ((2 * pos + 1 + 1 <? endpos)%nat && negb (lt c r)); lia. }
    destruct (heap !! childpos) as [c|]; [|done].
    apply IH. lia.
Qed.

Lemma siftup_loop_enough lt k : ∀ heap endpos pos,
  siftup_loop (endpos + k) lt heap endpos pos = siftup_loop endpos lt heap endpos pos.
Proof.
  induction k as [|k IH]; intros heap endpos pos.
  - by rewrite Nat.add_0_r.
  - rewrite Nat.add_succ_r, siftup_loop_fuel by lia. apply IH.
Qed.

(** The comparison of nodes reads their lengths only. *)
Lemma Node_lt_tracker t w : Node_lt (with_tracker t w) = Node_lt w.
Proof. done. Qed.

(** ** The loops of [heap_shortest_path] *)

(** One edge: the relaxation, then the push unless the membership test
    finds the head in [visited].  No step raises. *)
Lemma relax_edge_spec visited current e w heap :
  let h := head_of w e in
  let crit := num_add (length_of w current) (weight_of w e) in
  let w1 := if num_ltb crit (length_of w h) then set_length h crit w else w in
  ∃ t, relax_edge visited current e (w, heap) =
       Ok (with_tracker t w1,
           if node_in w1 h visited then heap else heappush (Node_lt w1) heap h).
Proof.
  intros h crit w1. unfold relax_edge.
  change (head_of (incr_heap 3 w) e) with h.
  change (num_add (length_of (incr_heap 3 w) current) (weight_of (incr_heap 3 w) e))
    with crit.
  change (length_of (incr_heap 3 w) h) with (length_of w h).
  set (w2 := if num_ltb crit (length_of w h) then _ else _).
  assert (∃ t, w2 = with_tracker t w1) as [t ->].
  { unfold w2, w1. destruct (num_ltb crit (length_of w h)); eexists; reflexivity. }
  assert (head_of w1 e = h) as Eh.
  { unfold w1. destruct (num_ltb crit (length_of w h)); [|done].
    apply frame_head, frame_set_length. }
  change (head_of (with_tracker t w1) e) with (head_of w1 e). rewrite Eh.
  change (node_in (with_tracker t w1) h visited) with (node_in w1 h visited).
  destruct (node_in w1 h visited); simpl; [by exists t|].
  rewrite add_heap_op_ok by lia.
  match goal with
  | |- context [with_tracker ?t' (with_tracker t w1)] =>
      exists t'; change (head_of (with_tracker t' (with_tracker t w1)) e) with (head_of w1 e)
  end.
  by rewrite Eh.
Qed.

(** Invariants of the loop over the outbound edges; [J] also sees the edges
    still to be processed.  The loop returns. *)
Lemma heap_edges_inv (J : list nat → World (F := F) → list nat → Prop) visited current :
  (∀ es w t heap, J es w heap → J es (with_tracker t w) heap) →
  (∀ e es w heap,
      J (e :: es) w heap →
      let h := head_of w e in
      let crit := num_add (length_of w current) (weight_of w e) in
      let w1 := if num_ltb crit (length_of w h) then set_length h crit w else w in
      J es w1 (if node_in w1 h visited then heap else heappush (Node_lt w1) heap h)) →
  ∀ edges w heap,
    J edges w heap →
    ∃ w' heap', heap_edges visited current edges (w, heap) = Ok (w', heap') ∧ J [] w' heap'.
Proof.
  intros Jt Js. induction edges as [|e es IH]; intros w heap Hj.
  { by exists w, heap. }
  cbn [heap_edges].
  destruct (relax_edge_spec visited current e w heap) as [t ->].
  apply IH, Jt. by apply Js.
Qed.

(** The debug string raises nothing when the lengths of the nodes of the
    heap are finite. *)
Lemma heap_str_finite w heap :
  Forall (fun n => length_of w n ≠ Inf) heap → ∃ items, heap_str w heap = Ok items.
Proof.
  induction heap as [|n heap IH]; intros Hf; [by eexists|].
  apply Forall_cons in Hf as [Hn Hf]. destruct (IH Hf) as [items E].
  cbn [heap_str]. rewrite E. destruct (length_of w n); [by eexists|done].
Qed.

Lemma heap_str_tracker t w heap : heap_str (with_tracker t w) heap = heap_str w heap.
Proof.
  induction heap as [|n heap IH]; [done|]. cbn [heap_str]. rewrite IH.
  reflexivity.
Qed.

Lemma heap_str_infinite w heap :
  Exists (fun n => length_of w n = Inf) heap → heap_str w heap = Err OverflowError.
Proof.
  induction heap as [|n heap IH]; intros Hex; [by apply Exists_nil in Hex|].
  cbn [heap_str]. destruct (length_of w n) as [z|] eqn:E; [|done].
  apply Exists_cons in Hex as [Hn|Hex]; [congruence|]. by rewrite IH.
Qed.

(** An iteration that starts with a node of infinite length in the heap
    raises, before anything is popped. *)
Lemma heap_iter_infinite w visited heap :
  Exists (fun n => length_of w n = Inf) heap →
  heap_iter (w, visited, heap) = Err OverflowError.
Proof. intros Hex. unfold heap_iter. by rewrite heap_str_infinite. Qed.

Lemma heap_str_raises w heap (err : exn) :
  heap_str w heap = Err err →
  err = OverflowError ∧ ∃ n, n ∈ heap ∧ length_of w n = Inf.
Proof.
  induction heap as [|n heap IH]; [done|]. cbn [heap_str].
  destruct (length_of w n) eqn:El.
  - destruct (heap_str w heap); [done|]. intros [= ->].
    destruct (IH eq_refl) as (-> & m & Hm & Em). split; [done|]. exists m.
    split; [by right|done].
  - intros [= <-]. split; [done|]. exists n. split; [by left|done].
Qed.

(** One iteration of the loop, on a heap that is not empty. *)
Lemma heap_iter_spec w visited heap :
  (0 < List.length heap)%nat →
  ∃ t1 t2 current heap1,
    heappop (Node_lt w) heap = Ok (current, heap1) ∧
    List.length heap = S (List.length heap1) ∧
    heap_iter (w, visited, heap) =
      match heap_str w heap with
      | Ok _ =>
          if id_in current visited then Ok (with_tracker t1 w, visited, heap1)
          else
            match heap_edges (visited ++ [current]) current (outbound_of w current)
                             (with_tracker t2 w, heap1) with
            | Ok (w', heap') => Ok (w', visited ++ [current], heap')
            | Err e => Err e
            end
      | Err e => Err e
      end.
Proof.
  intros Hl. destruct (heappop_length (Node_lt w) heap Hl) as (x & heap1 & Ep & El).
  unfold heap_iter. rewrite add_heap_op_ok by lia.
  rewrite Node_lt_tracker, Ep.
  eexists _, _, x, heap1. split; [done|]. split; [done|].
  destruct (heap_str w heap); [|done].
  destruct (id_in x visited); reflexivity.
Qed.

Lemma heap_iter_inv (I : World (F := F) → list nat → list nat → Prop)
    (J : nat → list nat → list nat → World (F := F) → list nat → Prop) :
  (∀ w t visited heap, I w visited heap → I (with_tracker t w) visited heap) →
  (∀ cur visited es w t heap,
      J cur visited es w heap → J cur visited es (with_tracker t w) heap) →
  (∀ w visited heap cur heap1,
      I w visited heap → heappop (Node_lt w) heap = Ok (cur, heap1) →
      cur ∈ visited → I w visited heap1) →
  (∀ w visited heap cur heap1,
      I w visited heap → heappop (Node_lt w) heap = Ok (cur, heap1) →
      cur ∉ visited → J cur (visited ++ [cur]) (outbound_of w cur) w heap1) →
  (∀ cur visited e es w heap,
      J cur visited (e :: es) w heap →
      let h := head_of w e in
      let crit := num_add (length_of w cur) (weight_of w e) in
      let w1 := if num_ltb crit (length_of w h) then set_length h crit w else w in
      J cur visited es w1
        (if node_in w1 h visited then heap else heappush (Node_lt w1) heap h)) →
  (∀ cur visited w heap, J cur visited [] w heap → I w visited heap) →
  ∀ w visited heap,
    I w visited heap → Forall (fun n => length_of w n ≠ Inf) heap →
    (0 < List.length heap)%nat →
    ∃ w' visited' heap',
      heap_iter (w, visited, heap) = Ok (w', visited', heap') ∧ I w' visited' heap'.
Proof.
  intros It Jt Istale Ifresh Jstep Jend w visited heap Hi Hfin Hl.
  destruct (heap_iter_spec w visited heap Hl) as (t1 & t2 & cur & heap1 & Ep & _ & ->).
  destruct (heap_str_finite w heap Hfin) as [items ->].
  destruct (id_in cur visited) eqn:Ev.
  - apply id_in_spec in Ev. eexists _, _, _. split; [done|].
    apply It. exact (Istale w visited heap cur heap1 Hi Ep Ev).
  - apply id_in_false in Ev.
    destruct (heap_edges_inv (J cur (visited ++ [cur])) (visited ++ [cur]) cur)
      with (edges := outbound_of w cur) (w := with_tracker t2 w) (heap := heap1)
      as (w' & heap' & -> & Hj).
    + intros es w1 t heap2. apply Jt.
    + intros e es w1 heap2. apply Jstep.
    + apply Jt. exact (Ifresh w visited heap cur heap1 Hi Ep Ev).
    + eexists _, _, _. split; [done|]. by apply (Jend cur).
Qed.

(** Invariants of the [while] loop: the loop raises nothing, and what every
    iteration keeps holds, with the heap empty, when it returns. *)
Lemma heap_loop_inv (I : World (F := F) → list nat → list nat → Prop) :
  (∀ w visited heap,
      I w visited heap → (0 < List.length heap)%nat →
      ∃ w' visited' heap',
        heap_iter (w, visited, heap) = Ok (w', visited', heap') ∧ I w' visited' heap') →
  ∀ fuel w visited heap r,
    I w visited heap → heap_loop fuel (w, visited, heap) = Some r →
    ∃ w' visited', r = Ok w' ∧ I w' visited' [].
Proof.
  intros Hstep. induction fuel as [|fuel IH]; intros w visited heap r Hi; [done|].
  cbn [heap_loop snd fst].
  destruct (0 <? List.length heap)%nat eqn:El.
  - apply Nat.ltb_lt in El.
    destruct (Hstep w visited heap Hi El) as (w' & visited' & heap' & -> & Hi').
    by apply IH.
  - intros [= <-]. exists w, visited. split; [done|].
    apply Nat.ltb_ge in El. destruct heap; [done|simpl in El; lia].
Qed.

(** *** The heap loop returns *)

Lemma num_ltb_finite (a b : num) : num_ltb a b = true → a ≠ Inf.
Proof. by destruct a. Qed.

Lemma num_ltb_inf (z : Z) (b : num) : num_ltb (Fin z) b = false → b ≠ Inf.
Proof. by destruct b. Qed.

Lemma num_add_finite (a : num) (z : Z) : a ≠ Inf → num_add a z ≠ Inf.
Proof. by destruct a. Qed.

(** A relaxation writes a finite length, and after it the head has one when
    the current node has. *)
Lemma relax_keeps_finite w h (crit : num) n :
  length_of w n ≠ Inf →
  length_of (if num_ltb crit (length_of w h) then set_length h crit w else w) n ≠ Inf.
Proof.
  intros Hn. destruct (num_ltb crit (length_of w h)) eqn:E; [|done].
  destruct (length_set_length w h n crit) as [-> | ->]; [|done].
  by eapply num_ltb_finite.
Qed.

Lemma relax_head_finite w h (crit : num) :
  node_exists w h → crit ≠ Inf →
  length_of (if num_ltb crit (length_of w h) then set_length h crit w else w) h ≠ Inf.
Proof.
  intros Hh Hc. destruct (num_ltb crit (length_of w h)) eqn:E.
  - by rewrite length_set_length_eq.
  - destruct crit as [z|]; [|done]. by eapply num_ltb_inf.
Qed.

Lemma Forall_finite_relax w h (crit : num) heap :
  Forall (fun n => length_of w n ≠ Inf) heap →
  Forall (fun n =>
    length_of (if num_ltb crit (length_of w h) then set_length h crit w else w) n ≠ Inf)
    heap.
Proof.
  intros Hf. eapply Forall_impl; [exact Hf|]. intros n. apply relax_keeps_finite.
Qed.

(** The measure: the size of the heap and the outbound edges of the nodes
    not yet visited.  The lengths of the nodes of the heap stay finite, so
    the debug string raises nothing. *)
Lemma heap_iter_decreases w0 w visited heap :
  let f := fun n => List.length (outbound_of w0 n) in
  let N := elements (dom (node_tbl w0)) in
  closed w0 → frame w0 w → Forall (node_exists w0) heap →
  Forall (fun n => length_of w n ≠ Inf) heap → (0 < List.length heap)%nat →
  ∃ w' visited' heap',
    heap_iter (w, visited, heap) = Ok (w', visited', heap') ∧
    frame w0 w' ∧ Forall (node_exists w0) heap' ∧
    Forall (fun n => length_of w' n ≠ Inf) heap' ∧
    (List.length heap' + pending f N visited' < List.length heap + pending f N visited)%nat.
Proof.
  intros f N C Fr Hh Hfin Hl.
  destruct (heap_iter_spec w visited heap Hl) as (t1 & t2 & cur & heap1 & Ep & El & ->).
  destruct (heap_str_finite w heap Hfin) as [items ->].
  destruct (heappop_Forall _ _ _ _ _ Hh Ep) as [Hcur Hh1].
  destruct (heappop_Forall _ _ _ _ _ Hfin Ep) as [Fcur Fh1].
  destruct (id_in cur visited) eqn:Ev.
  { eexists _, _, _. split; [done|]. split; [|split; [done|split; [done|lia]]].
    eapply frame_trans; [exact Fr|]. by apply frame_same_store. }
  apply id_in_false in Ev.
  pose (J := fun (es : list nat) (w1 : World (F := F)) (heap2 : list nat) =>
    frame w0 w1 ∧ Forall (node_exists w0) heap2 ∧
    Forall (fun e => node_exists w0 (head_of w0 e)) es ∧
    (List.length heap2 + List.length es ≤ List.length heap1 + f cur)%nat ∧
    Forall (fun n => length_of w1 n ≠ Inf) heap2 ∧ length_of w1 cur ≠ Inf).
  destruct (heap_edges_inv J (visited ++ [cur]) cur)
    with (edges := outbound_of w cur) (w := with_tracker t2 w) (heap := heap1)
    as (w' & heap' & -> & (J1 & J2 & _ & J4 & J5 & _)).
  - intros es w1 t heap2 (J1 & J2 & J3 & J4 & J5 & J6).
    refine (conj _ (conj J2 (conj J3 (conj J4 (conj J5 J6))))).
    eapply frame_trans; [exact J1|]. by apply frame_same_store.
  - intros e es w1 heap2 (J1 & J2 & J3 & J4 & J5 & J6) h crit w2.
    apply Forall_cons in J3 as [Je J3]. simpl in J4.
    assert (frame w0 w2) as Fr2.
    { unfold w2. destruct (num_ltb crit (length_of w1 h)); [|done].
      eapply frame_trans; [exact J1|apply frame_set_length]. }
    assert (node_exists w1 h) as Eh.
    { apply (frame_node_exists w0 w1 h J1). unfold h. by rewrite (frame_head w0 w1 e J1). }
    assert (length_of w2 h ≠ Inf) as Fh.
    { apply relax_head_finite; [done|]. by apply num_add_finite. }
    refine (conj Fr2 (conj _ (conj J3 (conj _ (conj _ _))))).
    + destruct (node_in w2 h _); [done|].
      apply heappush_Forall; [done|]. unfold h. by rewrite (frame_head w0 w1 e J1).
    + destruct (node_in w2 h _); [lia|]. rewrite heappush_length. lia.
    + destruct (node_in w2 h _); [by apply Forall_finite_relax|].
      apply heappush_Forall; [by apply Forall_finite_relax|done].
    + by apply relax_keeps_finite.
  - refine (conj _ (conj Hh1 (conj _ (conj _ (conj Fh1 Fcur))))).
    + eapply frame_trans; [exact Fr|]. by apply frame_same_store.
    + change (outbound_of (with_tracker t2 w) cur) with (outbound_of w cur).
      rewrite (frame_outbound w0 w cur Fr). apply Forall_forall. intros e He.
      by destruct (closed_outbound w0 cur e C He) as (_ & _ & ?).
    + change (outbound_of (with_tracker t2 w) cur) with (outbound_of w cur).
      rewrite (frame_outbound w0 w cur Fr). unfold f. lia.
  - eexists _, _, _. split; [done|]. split; [done|]. split; [done|]. split; [done|].
    rewrite (pending_visit f N visited cur);
      [|apply NoDup_elements|by apply node_exists_dom|done].
    simpl in J4. lia.
Qed.

Lemma heap_loop_terminates w0 fuel : ∀ w visited heap,
  let f := fun n => List.length (outbound_of w0 n) in
  let N := elements (dom (node_tbl w0)) in
  closed w0 → frame w0 w → Forall (node_exists w0) heap →
  Forall (fun n => length_of w n ≠ Inf) heap →
  (List.length heap + pending f N visited < fuel)%nat →
  ∃ w', heap_loop fuel (w, visited, heap) = Some (Ok w').
Proof.
  induction fuel as [|fuel IH]; intros w visited heap f N C Fr Hh Hfin Hf; [lia|].
  cbn [heap_loop snd fst].
  destruct (0 <? List.length heap)%nat eqn:El; [|eauto].
  apply Nat.ltb_lt in El.
  destruct (heap_iter_decreases w0 w visited heap C Fr Hh Hfin El)
    as (w' & visited' & heap' & -> & Fr' & Hh' & Hfin' & Hd).
  apply (IH w' visited' heap' C Fr' Hh' Hfin'). cbv zeta in Hd. unfold f, N in Hf. lia.
Qed.

(** Invariants of the [while] loop on a store whose references exist: the
    loop raises nothing, and what every iteration keeps holds, with the heap
    empty, when it returns. *)
Lemma heap_loop_inv_closed w0 (I : World (F := F) → list nat → list nat → Prop) :
  closed w0 →
  (∀ w visited heap,
      I w visited heap → Forall (fun n => length_of w n ≠ Inf) heap →
      (0 < List.length heap)%nat →
      ∃ w' visited' heap',
        heap_iter (w, visited, heap) = Ok (w', visited', heap') ∧ I w' visited' heap') →
  ∀ fuel w visited heap r,
    frame w0 w → Forall (node_exists w0) heap →
    Forall (fun n => length_of w n ≠ Inf) heap →
    I w visited heap → heap_loop fuel (w, visited, heap) = Some r →
    ∃ w' visited', r = Ok w' ∧ I w' visited' [].
Proof.
  intros C Hstep fuel w visited heap r Fr Hh Hfin Hi Hl.
  destruct (heap_loop_inv (fun w1 visited1 heap1 =>
              I w1 visited1 heap1 ∧ frame w0 w1 ∧ Forall (node_exists w0) heap1 ∧
              Forall (fun n => length_of w1 n ≠ Inf) heap1))
    with (fuel := fuel) (w := w) (visited := visited) (heap := heap) (r := r)
    as (w' & visited' & -> & Hi' & _); [|done|done|by exists w', visited'].
  intros w1 visited1 heap1 (Hi1 & Fr1 & Hh1 & Hfin1) Hl1.
  destruct (Hstep w1 visited1 heap1 Hi1 Hfin1 Hl1) as (w2 & visited2 & heap2 & E & Hi2).
  destruct (heap_iter_decreases w0 w1 visited1 heap1 C Fr1 Hh1 Hfin1 Hl1)
    as (w2' & visited2' & heap2' & E' & Fr2 & Hh2 & Hfin2 & _).
  rewrite E in E'. injection E' as <- <- <-.
  by exists w2, visited2, heap2.
Qed.

(** ** What a run of [heap_shortest_path] establishes *)

Lemma nonneg_add (a : num) (z : Z) :
  num_ltb a (Fin 0) = false → 0 ≤ z → num_ltb (num_add a z) (Fin 0) = false.
Proof. destruct a; simpl; [|done]. rewrite !Z.ltb_ge. lia. Qed.

Lemma graph_wf_outbound w graph n e :
  graph_wf w graph → n ∈ Graph.nodes (graph_at w graph) → e ∈ outbound_of w n →
  e ∈ Graph.edges (graph_at w graph) ∧ tail_of w e = n ∧
  head_of w e ∈ Graph.nodes (graph_at w graph).
Proof.
  intros [We Wn] Hn He. rewrite Forall_forall in We, Wn.
  specialize (Wn n Hn). rewrite Forall_forall in Wn.
  destruct (Wn e He) as [Hin Ht]. split; [done|]. split; [done|].
  by destruct (We e Hin) as (_ & ? & _).
Qed.

Lemma heap_fuel_enough w (start : nat) :
  (List.length [start] +
     pending (fun n => List.length (outbound_of w n)) (elements (dom (node_tbl w))) []
   < heap_fuel w)%nat.
Proof.
  unfold heap_fuel. simpl.
  pose proof (pending_le (fun n => List.length (outbound_of w n))
                (elements (dom (node_tbl w))) []).
  lia.
Qed.

Lemma heap_run fuel graph start w :
  closed w → node_exists w start → (heap_fuel w ≤ fuel)%nat →
  ∃ w',
    heap_shortest_path fuel graph start w = Some (Ok w') ∧
    frame w w' ∧
    (∀ n, n ∈ Graph.nodes (graph_at w graph) →
          length_of w' n ≠ Inf → walk w start n) ∧
    (graph_wf w graph → nonneg_weights w graph →
     start ∈ Graph.nodes (graph_at w graph) →
     length_of w' start = Fin 0).
Proof.
  intros C Hs Hf. unfold heap_shortest_path.
  destruct (init_lengths_spec incr_heap incr_heap_tracker graph start (incr_heap 3 w))
    as (Fr & H0 & Hinf & _).
  set (wi := init_lengths incr_heap graph start (incr_heap 3 w)) in *.
  assert (frame w wi) as Fri.
  { eapply frame_trans; [apply (frame_incr_heap 3)|exact Fr]. }
  set (nodes := Graph.nodes (graph_at w graph)).
  pose (WF := graph_wf w graph ∧ nonneg_weights w graph ∧ start ∈ nodes).
  pose (I := fun (w1 : World (F := F)) (visited heap : list nat) =>
    frame w w1 ∧ Forall (walk w start) heap ∧
    (∀ n, n ∈ nodes → length_of w1 n ≠ Inf → walk w start n) ∧
    (WF → Forall (fun n => n ∈ nodes) heap ∧
          (∀ n, n ∈ nodes → num_ltb (length_of w1 n) (Fin 0) = false) ∧
          length_of w1 start = Fin 0)).
  pose (J := fun (cur : nat) (visited es : list nat) (w1 : World (F := F)) (heap : list nat) =>
    I w1 visited heap ∧ walk w start cur ∧
    Forall (fun e => e ∈ outbound_of w cur) es ∧ (WF → cur ∈ nodes)).
  assert (Forall (fun n => length_of wi n ≠ Inf) [start]) as Hfin.
  { constructor; [|constructor]. by rewrite H0. }
  destruct (heap_loop_terminates w fuel wi [] [start]) as [w' Hw'].
  { done. }
  { done. }
  { by constructor. }
  { done. }
  { eapply Nat.lt_le_trans; [apply heap_fuel_enough|exact Hf]. }
  exists w'. split; [done|].
  destruct (heap_loop_inv_closed w I C) with (fuel := fuel) (w := wi)
    (visited := @nil nat) (heap := [start]) (r := Ok w')
    as (w'' & visited' & [= <-] & (I1 & _ & I3 & I4));
    [|done|by constructor|done| |done|].
  - apply (heap_iter_inv I J).
    + intros w1 t visited heap (I1 & I2 & I3 & I4). refine (conj _ (conj I2 (conj I3 I4))).
      eapply frame_trans; [exact I1|]. by apply frame_same_store.
    + intros cur visited es w1 t heap ((I1 & I2 & I3 & I4) & J2).
      refine (conj (conj _ (conj I2 (conj I3 I4))) J2).
      eapply frame_trans; [exact I1|]. by apply frame_same_store.
    + intros w1 visited heap cur heap1 (I1 & I2 & I3 & I4) Ep _.
      refine (conj I1 (conj _ (conj I3 _))).
      * by destruct (heappop_Forall _ _ _ _ _ I2 Ep).
      * intros Hwf. destruct (I4 Hwf) as (I5 & I6 & I7).
        refine (conj _ (conj I6 I7)). by destruct (heappop_Forall _ _ _ _ _ I5 Ep).
    + intros w1 visited heap cur heap1 (I1 & I2 & I3 & I4) Ep _.
      destruct (heappop_Forall _ _ _ _ _ I2 Ep) as [Hc Hh1].
      refine (conj (conj I1 (conj Hh1 (conj I3 _))) (conj Hc (conj _ _))).
      * intros Hwf. destruct (I4 Hwf) as (I5 & I6 & I7).
        refine (conj _ (conj I6 I7)). by destruct (heappop_Forall _ _ _ _ _ I5 Ep).
      * rewrite (frame_outbound w w1 cur I1). by apply Forall_forall.
      * intros Hwf. destruct (I4 Hwf) as (I5 & _).
        by destruct (heappop_Forall _ _ _ _ _ I5 Ep).
    + intros cur visited e es w1 heap ((I1 & I2 & I3 & I4) & J2 & J3 & J4) h crit w2.
      apply Forall_cons in J3 as [He J3].
      assert (h = head_of w e) as Eh by apply (frame_head w w1 e I1).
      assert (walk w start h) as Hwalk by (rewrite Eh; by apply (walk_edge w start cur e)).
      assert (frame w w2) as Fr2.
      { unfold w2. destruct (num_ltb crit (length_of w1 h)); [|done].
        eapply frame_trans; [exact I1|apply frame_set_length]. }
      refine (conj (conj Fr2 (conj _ (conj _ _))) (conj J2 (conj J3 J4))).
      * destruct (node_in w2 h _); [done|]. by apply heappush_Forall.
      * intros n Hn Hlen. destruct (decide (n = h)) as [->|Hne]; [done|].
        apply I3; [done|]. unfold w2 in Hlen.
        destruct (num_ltb crit (length_of w1 h)); [|done].
        by rewrite length_set_length_ne in Hlen.
      * intros Hwf. destruct (I4 Hwf) as (I5 & I6 & I7).
        pose proof Hwf as (Wg & Wn & Ws).
        destruct (graph_wf_outbound w graph cur e Wg (J4 Hwf) He) as (Hin & _ & Hh).
        fold nodes in Hh. rewrite <- Eh in Hh.
        assert (num_ltb crit (Fin 0) = false) as Hcrit.
        { apply nonneg_add; [by apply I6, J4|].
          rewrite (frame_weight w w1 e I1).
          unfold nonneg_weights in Wn. rewrite Forall_forall in Wn. by apply Wn. }
        refine (conj _ (conj _ _)).
        -- destruct (node_in w2 h _); [done|]. by apply heappush_Forall.
        -- intros n Hn. unfold w2.
           destruct (num_ltb crit (length_of w1 h)); [|by apply I6].
           destruct (length_set_length w1 h n crit) as [-> | ->]; [done|by apply I6].
        -- unfold w2. destruct (num_ltb crit (length_of w1 h)) eqn:Elt; [|done].
           rewrite length_set_length_ne; [done|]. intros ->.
           rewrite I7 in Elt. congruence.
    + by intros cur visited w1 heap (Hi & _).
  - refine (conj Fri (conj _ (conj _ _))).
    + constructor; [constructor|done].
    + intros n Hn Hlen. destruct (decide (n = start)) as [->|Hne]; [constructor|].
      by rewrite Hinf in Hlen.
    + intros (Wg & Wn & Ws). refine (conj _ (conj _ _)).
      * by constructor.
      * intros n Hn. destruct (decide (n = start)) as [->|Hne].
        -- by rewrite H0.
        -- by rewrite Hinf.
      * by apply H0.
  - split; [done|]. split; [done|]. intros Wg Wn Ws. by apply I4.
Qed.

(** ** The simple variant relaxes every edge *)

Lemma num_le_refl (a : num) : num_le a a.
Proof. apply num_ltb_irrefl. Qed.

Lemma num_lt_le (a b : num) : num_lt a b → num_le a b.
Proof. unfold num_lt, num_le. destruct a, b; simpl; try done. rewrite Z.ltb_lt, Z.ltb_ge. lia. Qed.

Lemma num_le_trans (a b c : num) : num_le a b → num_le b c → num_le a c.
Proof.
  unfold num_le. destruct a, b, c; simpl; try done. rewrite !Z.ltb_ge. lia.
Qed.

Lemma num_le_add (a : num) (z : Z) : 0 ≤ z → num_le a (num_add a z).
Proof. unfold num_le. destruct a; simpl; [|done]. rewrite Z.ltb_ge. lia. Qed.

Lemma candidates_frame w w' visited :
  frame w w' → candidates w' visited = candidates w visited.
Proof.
  intros Fr. unfold candidates.
  rewrite (map_ext (outbound_of w') (outbound_of w)) by (intros n; by apply frame_outbound).
  apply List.filter_ext. intros e. by rewrite (frame_head w w' e Fr).
Qed.

Lemma criterion_frame w w' e :
  frame w w' →
  criterion_of w' e = num_add (length_of w' (tail_of w e)) (weight_of w e).
Proof.
  intros Fr. unfold criterion_of. by rewrite (frame_tail w w'), (frame_weight w w').
Qed.

Lemma select_some_min w es e c :
  foldl (better w) (None, Inf) es = (Some e, c) →
  ∀ e', e' ∈ es → num_le c (criterion_of w e').
Proof.
  intros E. destruct (select_some _ _ _ _ E) as (pre & post & -> & -> & Hpre & Hpost).
  rewrite Forall_forall in Hpre, Hpost.
  intros e' He'. apply elem_of_app in He' as [He'|He'].
  - by apply num_lt_le, Hpre.
  - apply elem_of_cons in He' as [->|He']; [apply num_le_refl|by apply Hpost].
Qed.

(** The simple half of C2.  After a run of [simple_shortest_path] on a
    graph built as its precondition asks, with non-negative weights and a
    member start node, every edge of the graph whose tail has a finite
    length has a head of at most the tail's length plus the weight. *)
Lemma simple_run_relaxes_every_edge fuel graph start w :
  closed w → graph_wf w graph → nonneg_weights w graph →
  start ∈ Graph.nodes (graph_at w graph) →
  (simple_fuel w ≤ fuel)%nat →
  ∃ ws,
    simple_shortest_path fuel graph start w = Some (Ok ws) ∧
    ∀ e, e ∈ Graph.edges (graph_at w graph) →
         length_of ws (tail_of ws e) ≠ Inf → edge_relaxed ws e = true.
Proof.
  intros C Wg Wn Hin Hf.
  set (nodes := Graph.nodes (graph_at w graph)) in *.
  assert (node_exists w start) as Hs.
  { destruct C as (_ & _ & Cg). unfold nodes, graph_at in Hin.
    destruct (graph_tbl w !! graph) as [gr|] eqn:Eg; [|by apply elem_of_nil in Hin].
    destruct (Cg graph gr Eg) as [Cn _]. rewrite Forall_forall in Cn. by apply Cn. }
  assert (∀ u e, u ∈ nodes → e ∈ outbound_of w u →
            tail_of w e = u ∧ head_of w e ∈ nodes ∧ 0 ≤ weight_of w e) as Hout.
  { intros u e Hu He.
    destruct (graph_wf_outbound w graph u e Wg Hu He) as (He' & Ht & Hh).
    split; [done|]. split; [done|].
    unfold nonneg_weights in Wn. rewrite Forall_forall in Wn. by apply Wn. }
  unfold simple_shortest_path.
  destruct (init_lengths_spec incr_simple incr_simple_tracker graph start (incr_simple 2 w))
    as (Fr & H0 & Hinf & _).
  set (wi := init_lengths incr_simple graph start (incr_simple 2 w)) in *.
  assert (frame w wi) as Fri.
  { eapply frame_trans; [apply (frame_incr_simple 2)|exact Fr]. }
  destruct (simple_loop_terminates fuel wi [start]) as [ws Hws].
  { by eapply frame_closed. }
  { by eapply simple_fuel_enough. }
  rewrite Hws. simpl. exists ws. split; [done|].
  pose (crit := fun (w1 : World (F := F)) (e : nat) =>
    num_add (length_of w1 (tail_of w e)) (weight_of w e)).
  pose (I := fun (w1 : World (F := F)) (visited : list nat) =>
    frame w w1 ∧
    (∀ u, u ∈ visited → u ∈ nodes ∧ ∃ z, length_of w1 u = Fin z) ∧
    (∀ n, n ∈ nodes → n ∉ visited → length_of w1 n = Inf) ∧
    (∀ u e, u ∈ visited → e ∈ outbound_of w u → head_of w e ∈ visited →
            num_le (length_of w1 (head_of w e)) (crit w1 e)) ∧
    (∀ u e, u ∈ visited → e ∈ candidates w visited →
            num_le (length_of w1 u) (crit w1 e))).
  destruct (simple_loop_inv I) with (fuel := fuel) (w := wi) (visited := [start]) (w' := ws)
    as (visited & (I1 & I2 & I3 & I4 & _) & Hnone); [| | |done|].
  - intros w1 t visited (I1 & I2). refine (conj _ I2).
    eapply frame_trans; [exact I1|]. by apply frame_same_store.
  - intros w1 visited e c (I1 & I2 & I3 & I4 & I5) E.
    destruct (select_some_candidate _ _ _ _ E) as (Hc & Ec & Hfin).
    pose proof (select_some_min _ _ _ _ E) as Hmin.
    rewrite (candidates_frame w w1 visited I1) in Hc, Hmin.
    rewrite (criterion_frame w w1 e I1) in Ec. fold (crit w1 e) in Ec.
    assert (∀ e', e' ∈ candidates w visited → num_le c (crit w1 e')) as Hmin'.
    { intros e' He'. specialize (Hmin e' He').
      by rewrite (criterion_frame w w1 e' I1) in Hmin. }
    clear Hmin. rewrite (frame_head w w1 e I1).
    set (h := head_of w e).
    pose proof Hc as Hc'. apply candidates_spec in Hc' as [(n & Hn & He) Hh]. fold h in Hh.
    destruct (I2 n Hn) as [Hnn _].
    destruct (Hout n e Hnn He) as (Ht & Hhn & Hwt). fold h in Hhn.
    assert (node_exists w1 h) as Hex.
    { apply (frame_node_exists w w1 h I1).
      by destruct (closed_outbound w n e C He) as (_ & _ & ?). }
    set (w2 := set_length h c w1).
    assert (length_of w2 h = c) as Lh by by apply length_set_length_eq.
    assert (∀ m, m ≠ h → length_of w2 m = length_of w1 m) as Lo.
    { intros m Hm. by apply length_set_length_ne. }
    assert (∀ u, u ∈ visited → u ≠ h) as Vne by (intros u Hu ->; done).
    assert (∀ u e', u ∈ visited → e' ∈ outbound_of w u → crit w2 e' = crit w1 e') as Cold.
    { intros u e' Hu He'. destruct (I2 u Hu) as [Hun _].
      destruct (Hout u e' Hun He') as (Ht' & _). unfold crit. rewrite Ht'.
      by rewrite Lo by by apply Vne. }
    assert (∀ e', e' ∈ outbound_of w h → crit w2 e' = num_add c (weight_of w e') ∧
                                         0 ≤ weight_of w e') as Cnew.
    { intros e' He'. destruct (Hout h e' Hhn He') as (Ht' & _ & Hw').
      split; [|done]. unfold crit. by rewrite Ht', Lh. }
    assert (∀ u, u ∈ visited → num_le (length_of w1 u) c) as Vle.
    { intros u Hu. rewrite Ec. by apply I5. }
    refine (conj _ (conj _ (conj _ (conj _ _)))).
    + eapply frame_trans; [exact I1|apply frame_set_length].
    + intros u Hu. apply elem_of_app in Hu as [Hu|Hu].
      * destruct (I2 u Hu) as [Hun [z Hz]]. split; [done|]. exists z.
        by rewrite Lo by by apply Vne.
      * apply list_elem_of_singleton in Hu as ->. split; [done|].
        rewrite Lh. destruct c as [z|]; [by exists z|done].
    + intros m Hm Hv. rewrite Lo.
      * apply I3; [done|]. intros Hv'. apply Hv, elem_of_app. by left.
      * intros ->. apply Hv, elem_of_app. right. by apply list_elem_of_singleton.
    + intros u e' Hu He' Hh'.
      apply elem_of_app in Hu as [Hu|Hu]; apply elem_of_app in Hh' as [Hh'|Hh'].
      * rewrite (Cold u e' Hu He'), Lo by by apply Vne. by apply (I4 u).
      * apply list_elem_of_singleton in Hh'. rewrite Hh', Lh, (Cold u e' Hu He').
        apply Hmin'. apply candidates_spec. split; [by exists u|]. by rewrite Hh'.
      * apply list_elem_of_singleton in Hu as ->.
        destruct (Cnew e' He') as [-> Hw']. rewrite Lo by by apply Vne.
        eapply num_le_trans; [by apply Vle|by apply num_le_add].
      * apply list_elem_of_singleton in Hu as ->. apply list_elem_of_singleton in Hh'.
        destruct (Cnew e' He') as [-> Hw']. rewrite Hh', Lh. by apply num_le_add.
    + intros u e' Hu He'.
      apply candidates_spec in He' as [(m & Hm & He') Hh'].
      assert (head_of w e' ∉ visited) as Hhv.
      { intros Hv. apply Hh', elem_of_app. by left. }
      assert (num_le c (crit w2 e')) as Hce.
      { apply elem_of_app in Hm as [Hm|Hm].
        - rewrite (Cold m e' Hm He'). apply Hmin'. apply candidates_spec.
          split; [by exists m|done].
        - apply list_elem_of_singleton in Hm as ->.
          destruct (Cnew e' He') as [-> Hw']. by apply num_le_add. }
      apply elem_of_app in Hu as [Hu|Hu].
      * rewrite Lo by by apply Vne. eapply num_le_trans; [by apply Vle|done].
      * apply list_elem_of_singleton in Hu as ->. by rewrite Lh.
  - assert (length_of wi start = Fin 0) as L0 by by apply H0.
    refine (conj Fri (conj _ (conj _ (conj _ _)))).
    + intros u Hu. apply list_elem_of_singleton in Hu as ->. split; [done|by exists 0].
    + intros n Hn Hv. apply Hinf; [done|]. intros ->.
      apply Hv. by apply list_elem_of_singleton.
    + intros u e Hu He Hh. apply list_elem_of_singleton in Hu as ->.
      apply list_elem_of_singleton in Hh.
      destruct (Hout start e Hin He) as (Ht & _ & Hw).
      unfold crit. rewrite Hh, Ht. by apply num_le_add.
    + intros u e Hu He. apply list_elem_of_singleton in Hu as ->.
      apply candidates_spec in He as [(m & Hm & He) _].
      apply list_elem_of_singleton in Hm as ->.
      destruct (Hout start e Hin He) as (Ht & _ & Hw).
      unfold crit. rewrite Ht. by apply num_le_add.
  - intros e He Hfin.
    destruct Wg as [We _]. rewrite Forall_forall in We.
    destruct (We e He) as (Ht & _ & Ho). fold nodes in Ht.
    rewrite (frame_tail w ws e I1) in Hfin.
    assert (tail_of w e ∈ visited) as Hv.
    { destruct (decide (tail_of w e ∈ visited)) as [|Hnv]; [done|].
      destruct Hfin. by apply I3. }
    assert (head_of w e ∈ visited) as Hh.
    { destruct (decide (head_of w e ∈ visited)) as [|Hnh]; [done|]. exfalso.
      destruct (select_none ws (candidates ws visited) Hnone) as [_ Hall].
      rewrite Forall_forall in Hall.
      assert (e ∈ candidates ws visited) as Hc.
      { rewrite (candidates_frame w ws visited I1). apply candidates_spec.
        split; [by exists (tail_of w e)|done]. }
      specialize (Hall e Hc). rewrite (criterion_frame w ws e I1) in Hall.
      destruct (I2 _ Hv) as [_ [z Hz]]. by rewrite Hz in Hall. }
    specialize (I4 (tail_of w e) e Hv Ho Hh). unfold edge_relaxed.
    rewrite (frame_tail w ws e I1), (frame_weight w ws e I1), (frame_head w ws e I1).
    unfold num_le, crit in I4. by rewrite I4.
Qed.

(** * The claims *)

Lemma walk_path w graph start n :
  graph_wf w graph → start ∈ Graph.nodes (graph_at w graph) →
  walk w start n → path w graph start n ∧ n ∈ Graph.nodes (graph_at w graph).
Proof.
  intros Wg Hs. induction 1 as [|u e _ [IHp IHn] He].
  - split; [constructor|done].
  - destruct (graph_wf_outbound w graph u e Wg IHn He) as (Hin & Ht & Hh).
    split; [|done]. by apply (path_edge w graph start u e).
Qed.

Lemma node_in_spec w x l :
  node_in w x l = true ↔ ∃ y, y ∈ l ∧ (y = x ∨ length_of w y = length_of w x).
Proof.
  unfold node_in. rewrite existsb_exists. split.
  - intros (y & Hy & E). exists y. rewrite list_elem_of_In. split; [done|].
    apply orb_true_iff in E as [E|E].
    + left. by apply Nat.eqb_eq.
    + right. by apply num_eqb_eq.
  - intros (y & Hy & E). exists y. rewrite <- list_elem_of_In. split; [done|].
    apply orb_true_iff. destruct E as [->|E].
    + left. apply Nat.eqb_refl.
    + right. by apply num_eqb_eq.
Qed.







(** C5 (as amended).  For every heap size of at least 1, [add_heap_op]
    succeeds and adds [log2(heap_size) + 1] to the heap total, leaving
    everything else as it is; the clamp to a minimum of 1 is made by the
    caller, and with it every size is accepted. *)
Theorem add_heap_op_adds_log2 (heap_size : Z) w :
  1 ≤ heap_size →
  (∃ w',
     add_heap_op heap_size w = Ok w' ∧
     heap_ops (tracker w') =
       f_add (heap_ops (tracker w)) (f_add (f_log2 heap_size) (f_of_Z 1)) ∧
     simple_ops (tracker w') = simple_ops (tracker w) ∧
     same_store w w') ∧
  (∀ len : nat, ∃ w',
     add_heap_op (Z.max 1 (Z.of_nat len)) w = Ok w' ∧
     heap_ops (tracker w') =
       f_add (heap_ops (tracker w))
             (f_add (f_log2 (Z.max (Z.of_nat len) 1)) (f_of_Z 1))).
Proof.
  intros Hk. split.
  - rewrite add_heap_op_ok by lia. by eexists.
  - intros len. rewrite add_heap_op_ok by lia. eexists. split; [done|].
    by rewrite Z.max_comm.
Qed.

(** C6.  After either run, every node of the graph that no directed path
    from the start node reaches has length [math.inf]; a path follows the
    adjacency lists or, on a graph built as its precondition asks, the
    edges of the graph. *)
Theorem unreachable_nodes_keep_inf fuel_s fuel_h graph start w :
  closed w → node_exists w start →
  (simple_fuel w ≤ fuel_s)%nat → (heap_fuel w ≤ fuel_h)%nat →
  ∃ ws wh,
    simple_shortest_path fuel_s graph start w = Some (Ok ws) ∧
    heap_shortest_path fuel_h graph start w = Some (Ok wh) ∧
    (∀ n, n ∈ Graph.nodes (graph_at w graph) → ¬ walk w start n →
          length_of ws n = Inf ∧ length_of wh n = Inf) ∧
    (graph_wf w graph → start ∈ Graph.nodes (graph_at w graph) →
     ∀ n, n ∈ Graph.nodes (graph_at w graph) → ¬ path w graph start n →
          length_of ws n = Inf ∧ length_of wh n = Inf).
Proof.
  intros C Hs Hfs Hfh.
  destruct (simple_run fuel_s graph start w C Hs Hfs)
    as (ws & visited & Es & _ & _ & _ & Sw & Sinf).
  destruct (heap_run fuel_h graph start w C Hs Hfh) as (wh & Eh & _ & Hw & _).
  exists ws, wh. split; [done|]. split; [done|].
  assert (∀ n, n ∈ Graph.nodes (graph_at w graph) → ¬ walk w start n →
               length_of ws n = Inf ∧ length_of wh n = Inf) as Hwalk.
  { intros n Hn Hnw. split.
    - apply Sinf; [done|]. intros Hv. by apply Hnw, Sw.
    - destruct (decide (length_of wh n = Inf)) as [|Hne]; [done|].
      destruct Hnw. by apply Hw. }
  split; [done|]. intros Wg Hin n Hn Hnp. apply Hwalk; [done|].
  intros Hwk. apply Hnp. by destruct (walk_path w graph start n Wg Hin Hwk).
Qed.

(** C7.  After either run on a graph with non-negative edge weights and a
    member start node, the start node's length is exactly 0. *)
Theorem start_length_is_zero fuel_s fuel_h graph start w :
  closed w → graph_wf w graph → nonneg_weights w graph →
  start ∈ Graph.nodes (graph_at w graph) →
  (simple_fuel w ≤ fuel_s)%nat → (heap_fuel w ≤ fuel_h)%nat →
  ∃ ws wh,
    simple_shortest_path fuel_s graph start w = Some (Ok ws) ∧
    heap_shortest_path fuel_h graph start w = Some (Ok wh) ∧
    length_of ws start = Fin 0 ∧ length_of wh start = Fin 0.
Proof.
  intros C Wg Wn Hin Hfs Hfh.
  assert (node_exists w start) as Hs.
  { destruct C as (_ & _ & Cg). unfold graph_at in Hin.
    destruct (graph_tbl w !! graph) as [gr|] eqn:Eg; [|by apply elem_of_nil in Hin].
    destruct (Cg graph gr Eg) as [Cn _]. rewrite Forall_forall in Cn. by apply Cn. }
  destruct (simple_run fuel_s graph start w C Hs Hfs) as (ws & _ & Es & _ & S0 & _).
  destruct (heap_run fuel_h graph start w C Hs Hfh) as (wh & Eh & _ & _ & H0).
  exists ws, wh. split; [done|]. split; [done|]. split; [done|]. by apply H0.
Qed.

(** C8.  [get_best_edge] changes nothing but the counter.  Its candidates
    are, in scan order, the outbound edges of the visited nodes whose head
    is not (by identity) in the visited list.  It returns the first
    candidate of least criterion [tail.length + weight]: strictly less
    than every earlier candidate, at most every later one.  It returns
    [(None, math.inf)] exactly when no candidate has a finite criterion, as
    when there is no candidate, and the loop then stops at once. *)
Theorem get_best_edge_selects_first_minimum w visited :
  let cs := candidates w visited in
  let r := snd (get_best_edge w visited) in
  same_store w (fst (get_best_edge w visited)) ∧
  (∀ e, e ∈ cs ↔ (∃ n, n ∈ visited ∧ e ∈ outbound_of w n) ∧ head_of w e ∉ visited) ∧
  (∀ e c, r = (Some e, c) →
     ∃ pre post, cs = pre ++ e :: post ∧ c = criterion_of w e ∧
       Forall (fun e' => num_lt c (criterion_of w e')) pre ∧
       Forall (fun e' => num_le c (criterion_of w e')) post) ∧
  (fst r = None ↔ Forall (fun e => criterion_of w e = Inf) cs) ∧
  (fst r = None → r = (None, Inf) ∧
     ∀ fuel, ∃ t, simple_loop (S fuel) w visited = Some (with_tracker t w)) ∧
  (cs = [] → r = (None, Inf)).
Proof.
  intros cs r. destruct (get_best_edge_select w visited) as [S E].
  assert (r = foldl (better w) (None, Inf) cs) as -> by exact E. clear E.
  split; [done|]. split; [apply candidates_spec|]. split; [|split; [|split]].
  - intros e c Er. by apply select_some.
  - split; [by intros Hn; apply select_none|].
    intros Hall. by rewrite select_all_inf.
  - intros Hn. destruct (select_none w cs Hn) as [Er _]. split; [done|].
    intros fuel. destruct (simple_loop_step fuel w visited) as [t ->].
    fold cs. rewrite Er. by eexists.
  - by intros ->.
Qed.

(** C9.  Neither run adds or removes an object: afterwards the store holds
    the same graphs and edges, field for field, and the same nodes, with
    the data, inbound and outbound fields they had; only lengths of nodes
    (and the operation counters) may differ. *)
Theorem shortest_paths_change_lengths_only fuel_s fuel_h graph start w :
  closed w → node_exists w start →
  (simple_fuel w ≤ fuel_s)%nat → (heap_fuel w ≤ fuel_h)%nat →
  ∃ ws wh,
    simple_shortest_path fuel_s graph start w = Some (Ok ws) ∧
    heap_shortest_path fuel_h graph start w = Some (Ok wh) ∧
    frame w ws ∧ frame w wh.
Proof.
  intros C Hs Hfs Hfh.
  destruct (simple_run fuel_s graph start w C Hs Hfs) as (ws & _ & Es & Fs & _).
  destruct (heap_run fuel_h graph start w C Hs Hfh) as (wh & Eh & Fh & _).
  by exists ws, wh.
Qed.

(** C10.  [a == b] holds exactly when the lengths are equal and [a < b]
    exactly when the length of [a] is less, whatever the nodes are; so the
    membership test of the heap variant finds the head in the visited list
    as soon as some visited node has the head's length, and then the head
    is not pushed, visited or not. *)
Theorem node_comparisons_read_length_only w (a b : nat) visited current e heap :
  (Node_eq w a b = true ↔ length_of w a = length_of w b) ∧
  (Node_lt w a b = true ↔
     match length_of w a, length_of w b with
     | Fin x, Fin y => x < y
     | Fin _, Inf => True
     | Inf, _ => False
     end) ∧
  ((∃ v, v ∈ visited ∧ length_of w v = length_of w a) → node_in w a visited = true) ∧
  (∀ w' heap',
     relax_edge visited current e (w, heap) = Ok (w', heap') →
     (∃ v, v ∈ visited ∧ length_of w' v = length_of w' (head_of w e)) →
     heap' = heap).
Proof.
  split; [apply num_eqb_eq|]. split; [|split].
  - unfold Node_lt. destruct (length_of w a), (length_of w b); simpl; try done.
    apply Z.ltb_lt.
  - intros (v & Hv & E). apply node_in_spec. exists v. auto.
  - intros w' heap' E (v & Hv & El).
    destruct (relax_edge_spec visited current e w heap) as [t E'].
    rewrite E' in E. injection E as <- <-.
    match goal with
    | |- (if node_in ?w1 ?h visited then _ else _) = _ =>
        assert (node_in w1 h visited = true) as ->; [|done]
    end.
    apply node_in_spec. exists v. split; [done|]. right. exact El.
Qed.

End Proofs.

(** * More properties of the code *)

Section MoreProofs.
Context {F : Type} `{FloatOps F}.
Implicit Types (w : World (F := F)) (n e g : nat) (visited heap : list nat).

(** ** The two totals of [OpsTracker] *)













(** ** Runs from stores that differ in counters or in stale lengths *)

Lemma frame_sym w w' : frame w w' → frame w' w.
Proof.
  intros (G & E & N). split; [done|]. split; [done|]. intros n. specialize (N n).
  destruct (node_tbl w !! n) as [nd|].
  - destruct N as [len ->]. exists (Node.length nd). by destruct nd.
  - by rewrite N.
Qed.

Lemma frame_lengths_same_store w w' :
  frame w w' → (∀ n, length_of w' n = length_of w n) → same_store w w'.
Proof.
  intros (G & E & N) Hl. split; [|done]. apply map_eq. intros n.
  specialize (N n). specialize (Hl n). unfold length_of, node_at in Hl.
  destruct (node_tbl w !! n) as [nd|].
  - destruct N as [len N]. rewrite N in Hl |- *. simpl in Hl. subst len. by destruct nd.
  - done.
Qed.

Lemma length_of_missing w n : ¬ node_exists w n → length_of w n = Inf.
Proof.
  intros Hn. unfold length_of, node_at. destruct (node_tbl w !! n) eqn:E; [|done].
  destruct Hn. by eexists.
Qed.

Lemma init_lengths_agree incr graph start w1 w2 :
  (∀ k w, incr k w = with_tracker (tracker (incr k w)) w) →
  frame w1 w2 →
  (∀ n, n ∉ Graph.nodes (graph_at w1 graph) → n ≠ start →
        length_of w2 n = length_of w1 n) →
  same_store (init_lengths incr graph start w1) (init_lengths incr graph start w2).
Proof.
  intros Hincr Fr Hout.
  destruct (init_lengths_spec incr Hincr graph start w1) as (F1 & Z1 & I1 & O1).
  destruct (init_lengths_spec incr Hincr graph start w2) as (F2 & Z2 & I2 & O2).
  rewrite (frame_graph_at w1 w2 graph Fr) in I2, O2.
  apply frame_lengths_same_store.
  - eapply frame_trans; [apply frame_sym, F1|]. exact (frame_trans _ _ _ Fr F2).
  - intros n. destruct (decide (n = start)) as [->|Hne].
    + destruct (decide (node_exists w1 start)) as [Hs|Hs].
      * rewrite Z1 by done. apply Z2. by apply (frame_node_exists w1 w2).
      * rewrite !length_of_missing; [done| |].
        -- intros Hx. by apply Hs, (frame_node_exists w1 _ start F1).
        -- intros Hx. apply Hs, (frame_node_exists w1 w2 start Fr).
           by apply (frame_node_exists w2 _ start F2).
    + destruct (decide (n ∈ Graph.nodes (graph_at w1 graph))) as [Hin|Hnin].
      * by rewrite I1, I2.
      * rewrite O1, O2 by done. by apply Hout.
Qed.

Lemma simple_loop_agree fuel : ∀ w1 w2 visited,
  same_store w1 w2 →
  match simple_loop fuel w1 visited, simple_loop fuel w2 visited with
  | Some a, Some b => same_store a b
  | None, None => True
  | _, _ => False
  end.
Proof.
  induction fuel as [|fuel IH]; intros w1 w2 visited S; [done|].
  rewrite (same_store_eq w1 w2 S).
  destruct (simple_loop_step fuel w1 visited) as [t1 ->].
  destruct (simple_loop_step fuel (with_tracker (tracker w2) w1) visited) as [t2 ->].
  change (candidates (with_tracker (tracker w2) w1) visited) with (candidates w1 visited).
  change (better (with_tracker (tracker w2) w1)) with (better w1).
  destruct (foldl (better w1) (None, Inf) (candidates w1 visited)) as [[e|] c]; [|done].
  by apply IH.
Qed.

Lemma heap_edges_agree visited current es : ∀ w1 w2 heap,
  same_store w1 w2 →
  ∃ a b heap',
    heap_edges visited current es (w1, heap) = Ok (a, heap') ∧
    heap_edges visited current es (w2, heap) = Ok (b, heap') ∧
    same_store a b.
Proof.
  induction es as [|e es IH]; intros w1 w2 heap S.
  { by exists w1, w2, heap. }
  cbn [heap_edges]. rewrite (same_store_eq w1 w2 S).
  destruct (relax_edge_spec visited current e w1 heap) as [t1 ->].
  destruct (relax_edge_spec visited current e (with_tracker (tracker w2) w1) heap) as [t2 ->].
  cbn [bind].
  change (head_of (with_tracker (tracker w2) w1) e) with (head_of w1 e).
  change (weight_of (with_tracker (tracker w2) w1) e) with (weight_of w1 e).
  change (length_of (with_tracker (tracker w2) w1)) with (length_of w1).
  destruct (num_ltb _ (length_of w1 (head_of w1 e))).
  - change (node_in (set_length ?h ?c (with_tracker (tracker w2) w1)))
      with (node_in (set_length h c w1)).
    destruct (node_in _ (head_of w1 e) visited); by apply IH.
  - change (node_in (with_tracker (tracker w2) w1)) with (node_in w1).
    destruct (node_in w1 (head_of w1 e) visited); by apply IH.
Qed.

Lemma heap_loop_agree fuel : ∀ w1 w2 visited heap,
  same_store w1 w2 →
  same_outcome (heap_loop fuel (w1, visited, heap)) (heap_loop fuel (w2, visited, heap)).
Proof.
  induction fuel as [|fuel IH]; intros w1 w2 visited heap S; [done|].
  cbn [heap_loop snd fst].
  destruct (0 <? List.length heap)%nat eqn:El; [|done].
  apply Nat.ltb_lt in El. rewrite (same_store_eq w1 w2 S).
  destruct (heap_iter_spec w1 visited heap El) as (t1 & t2 & cur & heap1 & Ep & _ & ->).
  destruct (heap_iter_spec (with_tracker (tracker w2) w1) visited heap El)
    as (t3 & t4 & cur' & heap1' & Ep' & _ & ->).
  rewrite Node_lt_tracker, Ep in Ep'. injection Ep' as <- <-.
  rewrite heap_str_tracker. destruct (heap_str w1 heap) as [items|err]; [|done].
  destruct (id_in cur visited); [by apply IH|].
  change (outbound_of (with_tracker (tracker w2) w1) cur) with (outbound_of w1 cur).
  destruct (heap_edges_agree (visited ++ [cur]) cur (outbound_of w1 cur)
              (with_tracker t2 w1) (with_tracker t4 (with_tracker (tracker w2) w1)) heap1)
    as (a & b & heap' & -> & -> & Sab); [done|].
  by apply IH.
Qed.

Lemma runs_agree fuel graph start w1 w2 :
  frame w1 w2 →
  (∀ n, n ∉ Graph.nodes (graph_at w1 graph) → n ≠ start →
        length_of w2 n = length_of w1 n) →
  same_outcome (simple_shortest_path fuel graph start w1)
               (simple_shortest_path fuel graph start w2) ∧
  same_outcome (heap_shortest_path fuel graph start w1)
               (heap_shortest_path fuel graph start w2).
Proof.
  intros Fr Hout. split.
  - unfold simple_shortest_path.
    pose proof (simple_loop_agree fuel
      (init_lengths incr_simple graph start (incr_simple 2 w1))
      (init_lengths incr_simple graph start (incr_simple 2 w2)) [start]) as Ha.
    destruct (simple_loop fuel (init_lengths _ _ _ (incr_simple 2 w1)) _),
             (simple_loop fuel (init_lengths _ _ _ (incr_simple 2 w2)) _);
      simpl; apply Ha; by apply init_lengths_agree.
  - unfold heap_shortest_path. apply heap_loop_agree.
    by apply init_lengths_agree.
Qed.

(** ** Lengths are weights of walks, and only nodes of the graph are written *)

Lemma member_start_exists w graph start :
  closed w → start ∈ Graph.nodes (graph_at w graph) → node_exists w start.
Proof.
  intros (_ & _ & Cg) Hin. unfold graph_at in Hin.
  destruct (graph_tbl w !! graph) as [gr|] eqn:Eg; [|by apply elem_of_nil in Hin].
  destruct (Cg graph gr Eg) as [Cn _]. rewrite Forall_forall in Cn. by apply Cn.
Qed.

Lemma simple_run_sound fuel graph start w :
  closed w → graph_wf w graph → start ∈ Graph.nodes (graph_at w graph) →
  (simple_fuel w ≤ fuel)%nat →
  ∃ ws,
    simple_shortest_path fuel graph start w = Some (Ok ws) ∧
    frame w ws ∧
    length_of ws start = Fin 0 ∧
    (∀ n, n ∉ Graph.nodes (graph_at w graph) → length_of ws n = length_of w n) ∧
    (∀ n z, n ∈ Graph.nodes (graph_at w graph) → length_of ws n = Fin z →
            walk_weight w start n z).
Proof.
  intros C Wg Hin Hf.
  pose proof (member_start_exists w graph start C Hin) as Hs.
  destruct (simple_run fuel graph start w C Hs Hf) as (ws & _ & Es & Frs & L0 & _).
  exists ws. split; [done|]. split; [done|]. split; [done|].
  set (nodes := Graph.nodes (graph_at w graph)) in *.
  unfold simple_shortest_path in Es.
  destruct (init_lengths_spec incr_simple incr_simple_tracker graph start (incr_simple 2 w))
    as (Fr & H0 & Hinf & Hout).
  set (wi := init_lengths incr_simple graph start (incr_simple 2 w)) in *.
  assert (frame w wi) as Fri.
  { eapply frame_trans; [apply (frame_incr_simple 2)|exact Fr]. }
  destruct (simple_loop fuel wi [start]) as [w'|] eqn:El; [|done].
  injection Es as ->.
  pose (I := fun (w1 : World (F := F)) (visited : list nat) =>
    frame w w1 ∧
    (∀ u, u ∈ visited → u ∈ nodes) ∧
    (∀ n, n ∉ nodes → length_of w1 n = length_of w n) ∧
    (∀ n z, n ∈ nodes → length_of w1 n = Fin z → walk_weight w start n z)).
  destruct (simple_loop_inv I) with (fuel := fuel) (w := wi) (visited := [start]) (w' := ws)
    as (visited & (_ & _ & I3 & I4) & _); [| | |done|done].
  - intros w1 t visited (I1 & I2). refine (conj _ I2).
    eapply frame_trans; [exact I1|]. by apply frame_same_store.
  - intros w1 visited e c (I1 & I2 & I3 & I4) E.
    destruct (select_some_candidate _ _ _ _ E) as (Hc & Ec & Hfin).
    apply candidates_spec in Hc as [(n & Hn & He) Hh].
    rewrite (frame_outbound w w1 n I1) in He.
    destruct (graph_wf_outbound w graph n e Wg (I2 n Hn) He) as (_ & Ht & Hhn).
    rewrite (criterion_frame w w1 e I1), Ht in Ec.
    rewrite (frame_head w w1 e I1) in Hh |- *.
    refine (conj _ (conj _ (conj _ _))).
    + eapply frame_trans; [exact I1|apply frame_set_length].
    + intros u Hu. apply elem_of_app in Hu as [Hu|Hu]; [by apply I2|].
      by apply list_elem_of_singleton in Hu as ->.
    + intros m Hm. rewrite length_set_length_ne; [by apply I3|]. by intros <-.
    + intros m z Hm Hz.
      destruct (decide (m = head_of w e)) as [->|Hne].
      * destruct (length_set_length w1 (head_of w e) (head_of w e) c) as [E'|E'];
          rewrite E' in Hz; [|by apply I4].
        rewrite Ec in Hz. destruct (length_of w1 n) as [zn|] eqn:Ln; [|done].
        simpl in Hz. injection Hz as <-.
        apply (walk_weight_edge w start n e zn); [|done]. apply I4; [by apply I2|done].
      * rewrite length_set_length_ne in Hz by done. by apply I4.
  - refine (conj Fri (conj _ (conj _ _))).
    + intros u Hu. by apply list_elem_of_singleton in Hu as ->.
    + intros n Hn. rewrite Hout; [done|done|]. by intros ->.
    + intros n z Hn Hz. destruct (decide (n = start)) as [->|Hne].
      * rewrite H0 in Hz by done. injection Hz as <-. constructor.
      * by rewrite Hinf in Hz.
Qed.

Lemma heap_run_sound fuel graph start w :
  closed w → graph_wf w graph → start ∈ Graph.nodes (graph_at w graph) →
  (heap_fuel w ≤ fuel)%nat →
  ∃ wh,
    heap_shortest_path fuel graph start w = Some (Ok wh) ∧
    frame w wh ∧
    (∀ n, n ∉ Graph.nodes (graph_at w graph) → length_of wh n = length_of w n) ∧
    (∀ n z, n ∈ Graph.nodes (graph_at w graph) → length_of wh n = Fin z →
            walk_weight w start n z).
Proof.
  intros C Wg Hin Hf.
  pose proof (member_start_exists w graph start C Hin) as Hs.
  destruct (heap_run fuel graph start w C Hs Hf) as (wh & Eh & Frh & _).
  exists wh. split; [done|]. split; [done|].
  set (nodes := Graph.nodes (graph_at w graph)) in *.
  unfold heap_shortest_path in Eh.
  destruct (init_lengths_spec incr_heap incr_heap_tracker graph start (incr_heap 3 w))
    as (Fr & H0 & Hinf & Hout).
  set (wi := init_lengths incr_heap graph start (incr_heap 3 w)) in *.
  assert (frame w wi) as Fri.
  { eapply frame_trans; [apply (frame_incr_heap 3)|exact Fr]. }
  pose (I := fun (w1 : World (F := F)) (visited heap : list nat) =>
    frame w w1 ∧ Forall (fun n => n ∈ nodes) heap ∧
    (∀ n, n ∉ nodes → length_of w1 n = length_of w n) ∧
    (∀ n z, n ∈ nodes → length_of w1 n = Fin z → walk_weight w start n z)).
  pose (J := fun (cur : nat) (visited es : list nat) (w1 : World (F := F)) (heap : list nat) =>
    I w1 visited heap ∧ cur ∈ nodes ∧ Forall (fun e => e ∈ outbound_of w cur) es).
  assert (Forall (fun n => length_of wi n ≠ Inf) [start]) as Hfin.
  { constructor; [|constructor]. by rewrite H0. }
  destruct (heap_loop_inv_closed w I C) with (fuel := fuel) (w := wi)
    (visited := @nil nat) (heap := [start]) (r := Ok wh)
    as (w'' & visited' & [= <-] & (_ & _ & I3 & I4));
    [|done|by constructor|done| |done|done].
  - apply (heap_iter_inv I J).
    + intros w1 t visited heap (I1 & I2). refine (conj _ I2).
      eapply frame_trans; [exact I1|]. by apply frame_same_store.
    + intros cur visited es w1 t heap ((I1 & I2) & J2). refine (conj (conj _ I2) J2).
      eapply frame_trans; [exact I1|]. by apply frame_same_store.
    + intros w1 visited heap cur heap1 (I1 & I2 & I3) Ep _.
      refine (conj I1 (conj _ I3)). by destruct (heappop_Forall _ _ _ _ _ I2 Ep).
    + intros w1 visited heap cur heap1 (I1 & I2 & I3) Ep _.
      destruct (heappop_Forall _ _ _ _ _ I2 Ep) as [Hc Hh1].
      refine (conj (conj I1 (conj Hh1 I3)) (conj Hc _)).
      rewrite (frame_outbound w w1 cur I1). by apply Forall_forall.
    + intros cur visited e es w1 heap ((I1 & I2 & I3 & I4) & J2 & J3) h crit w2.
      apply Forall_cons in J3 as [He J3].
      destruct (graph_wf_outbound w graph cur e Wg J2 He) as (_ & _ & Hhn).
      assert (h = head_of w e) as Eh' by apply (frame_head w w1 e I1).
      rewrite <- Eh' in Hhn.
      assert (frame w w2) as Fr2.
      { unfold w2. destruct (num_ltb crit (length_of w1 h)); [|done].
        eapply frame_trans; [exact I1|apply frame_set_length]. }
      refine (conj (conj Fr2 (conj _ (conj _ _))) (conj J2 J3)).
      * destruct (node_in w2 h _); [done|]. by apply heappush_Forall.
      * intros m Hm. unfold w2. destruct (num_ltb crit (length_of w1 h)); [|by apply I3].
        rewrite length_set_length_ne; [by apply I3|]. by intros <-.
      * intros m z Hm Hz. unfold w2 in Hz.
        destruct (num_ltb crit (length_of w1 h)) eqn:Elt; [|by apply I4].
        destruct (decide (m = h)) as [->|Hne].
        -- destruct (length_set_length w1 h h crit) as [E'|E'];
             rewrite E' in Hz; [|by apply I4].
           unfold crit in Hz. destruct (length_of w1 cur) as [zc|] eqn:Lc; [|done].
           simpl in Hz. injection Hz as <-.
           rewrite Eh', (frame_weight w w1 e I1).
           apply (walk_weight_edge w start cur e zc); [by apply I4|done].
        -- rewrite length_set_length_ne in Hz by done. by apply I4.
    + by intros cur visited w1 heap (Hi & _).
  - refine (conj Fri (conj _ (conj _ _))).
    + by constructor.
    + intros n Hn. rewrite Hout; [done|done|]. by intros ->.
    + intros n z Hn Hz. destruct (decide (n = start)) as [->|Hne].
      * rewrite H0 in Hz by done. injection Hz as <-. constructor.
      * by rewrite Hinf in Hz.
Qed.

Lemma same_outcome_ok (r1 r2 : option (result (World (F := F)))) w1 :
  r1 = Some (Ok w1) → same_outcome r1 r2 → ∃ w2, r2 = Some (Ok w2) ∧ same_store w1 w2.
Proof.
  intros ->. unfold same_outcome. destruct r2 as [[w2|]|]; try done. by exists w2.
Qed.

(** X2.  The counters do not influence the results: from two stores that
    differ in the counters only, each variant returns stores with the same
    objects and the same fields, lengths included. *)
Theorem counters_do_not_influence_runs fuel_s fuel_h graph start w1 w2 :
  closed w1 → node_exists w1 start →
  (simple_fuel w1 ≤ fuel_s)%nat → (heap_fuel w1 ≤ fuel_h)%nat →
  same_store w1 w2 →
  ∃ s1 s2 h1 h2,
    simple_shortest_path fuel_s graph start w1 = Some (Ok s1) ∧
    simple_shortest_path fuel_s graph start w2 = Some (Ok s2) ∧
    heap_shortest_path fuel_h graph start w1 = Some (Ok h1) ∧
    heap_shortest_path fuel_h graph start w2 = Some (Ok h2) ∧
    same_store s1 s2 ∧ same_store h1 h2.
Proof.
  intros C Hs Hfs Hfh S.
  destruct (simple_run fuel_s graph start w1 C Hs Hfs) as (s1 & _ & Es & _).
  destruct (heap_run fuel_h graph start w1 C Hs Hfh) as (h1 & Eh & _).
  assert (∀ n, length_of w2 n = length_of w1 n) as Hl
    by (intros n; by apply same_store_length).
  destruct (runs_agree fuel_s graph start w1 w2) as [As _];
    [by apply same_store_frame|auto|].
  destruct (runs_agree fuel_h graph start w1 w2) as [_ Ah];
    [by apply same_store_frame|auto|].
  destruct (same_outcome_ok _ _ s1 Es As) as (s2 & Es2 & Ss).
  destruct (same_outcome_ok _ _ h1 Eh Ah) as (h2 & Eh2 & Sh).
  by exists s1, s2, h1, h2.
Qed.

(** X3.  Each run initialises the graph itself: from two stores with the
    same objects that differ only in the lengths of nodes of the graph and
    of the start node (and in the counters), each variant returns stores
    with the same objects and fields. *)
Theorem stale_lengths_do_not_influence_runs fuel_s fuel_h graph start w1 w2 :
  closed w1 → node_exists w1 start →
  (simple_fuel w1 ≤ fuel_s)%nat → (heap_fuel w1 ≤ fuel_h)%nat →
  frame w1 w2 →
  (∀ n, n ∉ Graph.nodes (graph_at w1 graph) → n ≠ start →
        length_of w2 n = length_of w1 n) →
  ∃ s1 s2 h1 h2,
    simple_shortest_path fuel_s graph start w1 = Some (Ok s1) ∧
    simple_shortest_path fuel_s graph start w2 = Some (Ok s2) ∧
    heap_shortest_path fuel_h graph start w1 = Some (Ok h1) ∧
    heap_shortest_path fuel_h graph start w2 = Some (Ok h2) ∧
    same_store s1 s2 ∧ same_store h1 h2.
Proof.
  intros C Hs Hfs Hfh Fr Hl.
  destruct (simple_run fuel_s graph start w1 C Hs Hfs) as (s1 & _ & Es & _).
  destruct (heap_run fuel_h graph start w1 C Hs Hfh) as (h1 & Eh & _).
  destruct (runs_agree fuel_s graph start w1 w2 Fr Hl) as [As _].
  destruct (runs_agree fuel_h graph start w1 w2 Fr Hl) as [_ Ah].
  destruct (same_outcome_ok _ _ s1 Es As) as (s2 & Es2 & Ss).
  destruct (same_outcome_ok _ _ h1 Eh Ah) as (h2 & Eh2 & Sh).
  by exists s1, s2, h1, h2.
Qed.

(** X4.  With integer weights, after either run on a graph built as its
    precondition asks, from a member start node, every finite length of a
    node of the graph is the total weight of a walk from the start node to
    it: a length is never below the shortest distance. *)
Theorem lengths_are_weights_of_walks fuel_s fuel_h graph start w :
  closed w → graph_wf w graph → start ∈ Graph.nodes (graph_at w graph) →
  (simple_fuel w ≤ fuel_s)%nat → (heap_fuel w ≤ fuel_h)%nat →
  ∃ ws wh,
    simple_shortest_path fuel_s graph start w = Some (Ok ws) ∧
    heap_shortest_path fuel_h graph start w = Some (Ok wh) ∧
    ∀ n z, n ∈ Graph.nodes (graph_at w graph) →
      (length_of ws n = Fin z → walk_weight w start n z) ∧
      (length_of wh n = Fin z → walk_weight w start n z).
Proof.
  intros C Wg Hin Hfs Hfh.
  destruct (simple_run_sound fuel_s graph start w C Wg Hin Hfs) as (ws & Es & _ & _ & _ & Ss).
  destruct (heap_run_sound fuel_h graph start w C Wg Hin Hfh) as (wh & Eh & _ & _ & Sh).
  exists ws, wh. split; [done|]. split; [done|]. intros n z Hn. split; auto.
Qed.


Lemma relaxed_lower_bound graph start w ws :
  graph_wf w graph → start ∈ Graph.nodes (graph_at w graph) →
  frame w ws → length_of ws start = Fin 0 →
  (∀ e, e ∈ Graph.edges (graph_at w graph) →
        length_of ws (tail_of ws e) ≠ Inf → edge_relaxed ws e = true) →
  ∀ n z, walk_weight w start n z →
    n ∈ Graph.nodes (graph_at w graph) ∧ ∃ z', length_of ws n = Fin z' ∧ z' ≤ z.
Proof.
  intros Wg Hin Fr L0 Hrel n z. induction 1 as [|u e z _ [IHn (zu & Lu & Hle)] He].
  - split; [done|]. exists 0. split; [done|lia].
  - destruct (graph_wf_outbound w graph u e Wg IHn He) as (Hein & Ht & Hhn).
    split; [done|].
    assert (edge_relaxed ws e = true) as Hr.
    { apply Hrel; [done|]. by rewrite (frame_tail w ws e Fr), Ht, Lu. }
    unfold edge_relaxed in Hr.
    rewrite (frame_tail w ws e Fr), (frame_weight w ws e Fr), (frame_head w ws e Fr),
      Ht, Lu in Hr.
    apply negb_true_iff in Hr. simpl in Hr.
    destruct (length_of ws (head_of w e)) as [zh|]; [|done].
    exists zh. split; [done|]. apply Z.ltb_ge in Hr. lia.
Qed.

Lemma simple_run_distances fuel graph start w :
  closed w → graph_wf w graph → nonneg_weights w graph →
  start ∈ Graph.nodes (graph_at w graph) →
  (simple_fuel w ≤ fuel)%nat →
  ∃ ws,
    simple_shortest_path fuel graph start w = Some (Ok ws) ∧
    ∀ n, n ∈ Graph.nodes (graph_at w graph) →
      match length_of ws n with
      | Fin z => walk_weight w start n z ∧ ∀ z', walk_weight w start n z' → z ≤ z'
      | Inf => ∀ z', ¬ walk_weight w start n z'
      end.
Proof.
  intros C Wg Wn Hin Hf.
  destruct (simple_run_sound fuel graph start w C Wg Hin Hf) as (ws & Es & Fr & L0 & _ & Ss).
  destruct (simple_run_relaxes_every_edge fuel graph start w C Wg Wn Hin Hf)
    as (ws' & Es' & Hrel).
  rewrite Es in Es'. injection Es' as <-.
  exists ws. split; [done|]. intros n Hn.
  pose proof (relaxed_lower_bound graph start w ws Wg Hin Fr L0) as Hlow.
  specialize (Hlow Hrel n).
  destruct (length_of ws n) as [z|] eqn:Ln.
  - split; [by apply Ss|]. intros z' Hw.
    destruct (Hlow z' Hw) as (_ & z'' & E & Hle). by injection E as <-.
  - intros z' Hw. by destruct (Hlow z' Hw) as (_ & z'' & E & _).
Qed.

(** X6.  With integer weights, the simple variant computes the shortest
    distances: on a graph built as its precondition asks, with
    non-negative weights and a member start node, a node of the graph ends
    with a finite length exactly when a walk from the start node reaches
    it, and that length is then the least total weight of such walks. *)
Theorem simple_shortest_path_computes_distances fuel graph start w :
  closed w → graph_wf w graph → nonneg_weights w graph →
  start ∈ Graph.nodes (graph_at w graph) →
  (simple_fuel w ≤ fuel)%nat →
  ∃ ws,
    simple_shortest_path fuel graph start w = Some (Ok ws) ∧
    ∀ n, n ∈ Graph.nodes (graph_at w graph) →
      match length_of ws n with
      | Fin z => walk_weight w start n z ∧ ∀ z', walk_weight w start n z' → z ≤ z'
      | Inf => ∀ z', ¬ walk_weight w start n z'
      end.
Proof. apply simple_run_distances. Qed.

(** X7.  With integer weights, a second run is not affected by the first:
    on a graph built as its precondition asks, from a member start node,
    running a variant on the store either variant returned gives the same
    objects and fields as running it on the store before (as when [main]
    runs the heap variant after the simple one). *)
Theorem second_run_as_on_fresh_store fuel_s fuel_h graph start w :
  closed w → graph_wf w graph → start ∈ Graph.nodes (graph_at w graph) →
  (simple_fuel w ≤ fuel_s)%nat → (heap_fuel w ≤ fuel_h)%nat →
  ∃ ws wh wss wsh whs whh,
    simple_shortest_path fuel_s graph start w = Some (Ok ws) ∧
    heap_shortest_path fuel_h graph start w = Some (Ok wh) ∧
    simple_shortest_path fuel_s graph start ws = Some (Ok wss) ∧
    heap_shortest_path fuel_h graph start ws = Some (Ok wsh) ∧
    simple_shortest_path fuel_s graph start wh = Some (Ok whs) ∧
    heap_shortest_path fuel_h graph start wh = Some (Ok whh) ∧
    same_store ws wss ∧ same_store wh wsh ∧ same_store ws whs ∧ same_store wh whh.
Proof.
  intros C Wg Hin Hfs Hfh.
  destruct (simple_run_sound fuel_s graph start w C Wg Hin Hfs)
    as (ws & Es & Frs & _ & Os & _).
  destruct (heap_run_sound fuel_h graph start w C Wg Hin Hfh) as (wh & Eh & Frh & Oh & _).
  destruct (runs_agree fuel_s graph start w ws Frs) as [A1 _]; [auto|].
  destruct (runs_agree fuel_h graph start w ws Frs) as [_ A2]; [auto|].
  destruct (runs_agree fuel_s graph start w wh Frh) as [A3 _]; [auto|].
  destruct (runs_agree fuel_h graph start w wh Frh) as [_ A4]; [auto|].
  destruct (same_outcome_ok _ _ ws Es A1) as (wss & E1 & S1).
  destruct (same_outcome_ok _ _ wh Eh A2) as (wsh & E2 & S2).
  destruct (same_outcome_ok _ _ ws Es A3) as (whs & E3 & S3).
  destruct (same_outcome_ok _ _ wh Eh A4) as (whh & E4 & S4).
  by exists ws, wh, wss, wsh, whs, whh.
Qed.

(** X8.  With integer weights, none negative, on a graph built as its
    precondition asks and from a member start node, the heap variant never
    ends with a length below the simple variant's: where the two differ,
    the heap variant's length is the larger one (or infinite). *)
Theorem heap_lengths_not_below_simple fuel_s fuel_h graph start w :
  closed w → graph_wf w graph → nonneg_weights w graph →
  start ∈ Graph.nodes (graph_at w graph) →
  (simple_fuel w ≤ fuel_s)%nat → (heap_fuel w ≤ fuel_h)%nat →
  ∃ ws wh,
    simple_shortest_path fuel_s graph start w = Some (Ok ws) ∧
    heap_shortest_path fuel_h graph start w = Some (Ok wh) ∧
    ∀ n, num_le (length_of ws n) (length_of wh n).
Proof.
  intros C Wg Wn Hin Hfs Hfh.
  destruct (simple_run_distances fuel_s graph start w C Wg Wn Hin Hfs) as (ws & Es & Hd).
  destruct (simple_run_sound fuel_s graph start w C Wg Hin Hfs) as (ws' & Es' & _ & _ & Os & _).
  rewrite Es in Es'. injection Es' as <-.
  destruct (heap_run_sound fuel_h graph start w C Wg Hin Hfh) as (wh & Eh & _ & Oh & Sh).
  exists ws, wh. split; [done|]. split; [done|]. intros n.
  destruct (decide (n ∈ Graph.nodes (graph_at w graph))) as [Hn|Hn].
  - specialize (Hd n Hn). unfold num_le. destruct (length_of wh n) as [z|] eqn:Lh; [|done].
    pose proof (Sh n z Hn Lh) as Hw. destruct (length_of ws n) as [z0|].
    + destruct Hd as [_ Hmin]. specialize (Hmin z Hw). simpl. apply Z.ltb_ge. lia.
    + by destruct (Hd z).
  - rewrite (Os n Hn), (Oh n Hn). apply num_le_refl.
Qed.

(** ** An upper bound of the simple total *)

Lemma scan_edge_ops_le visited w best e :
  simple_ops (tracker (fst (scan_edge visited (w, best) e))) ≤ simple_ops (tracker w) + 4.
Proof.
  unfold scan_edge. destruct best as [be bc].
  destruct (negb _); [|simpl; lia].
  destruct (num_ltb _ bc); simpl; lia.
Qed.

Lemma scan_edges_ops_le visited es : ∀ w best,
  simple_ops (tracker (fst (foldl (scan_edge visited) (w, best) es)))
    ≤ simple_ops (tracker w) + 4 * Z.of_nat (List.length es).
Proof.
  induction es as [|e es IH]; intros w best; [simpl; lia|].
  change (foldl (scan_edge visited) (w, best) (e :: es))
    with (foldl (scan_edge visited) (scan_edge visited (w, best) e) es).
  pose proof (scan_edge_ops_le visited w best e) as L1.
  destruct (scan_edge visited (w, best) e) as [w1 best1]. simpl in L1.
  specialize (IH w1 best1). rewrite length_cons. lia.
Qed.

Lemma out_total_cons w x ns :
  out_total w (x :: ns) = (List.length (outbound_of w x) + out_total w ns)%nat.
Proof. reflexivity. Qed.

Lemma scan_nodes_ops_le visited w0 ns : ∀ w best,
  same_store w0 w →
  simple_ops (tracker (fst (foldl (scan_node visited) (w, best) ns)))
    ≤ simple_ops (tracker w) + Z.of_nat (List.length ns) + 4 * Z.of_nat (out_total w0 ns).
Proof.
  induction ns as [|x ns IH]; intros w best S; [simpl; lia|].
  change (foldl (scan_node visited) (w, best) (x :: ns))
    with (foldl (scan_node visited)
            (foldl (scan_edge visited) (incr_simple 1 w, best) (outbound_of w x)) ns).
  rewrite (same_store_outbound w0 w x S).
  pose proof (scan_edges_ops_le visited (outbound_of w0 x) (incr_simple 1 w) best) as L1.
  destruct (scan_edges_spec visited w0 (outbound_of w0 x) (incr_simple 1 w) best)
    as [S1 _]; [done|].
  destruct (foldl (scan_edge visited) (incr_simple 1 w, best) (outbound_of w0 x))
    as [w1 best1]. simpl in S1, L1.
  specialize (IH w1 best1 S1). rewrite length_cons, out_total_cons. lia.
Qed.

Lemma get_best_edge_ops_le w visited :
  simple_ops (tracker (fst (get_best_edge w visited)))
    ≤ simple_ops (tracker w) + 2 + Z.of_nat (List.length visited)
      + 4 * Z.of_nat (out_total w visited).
Proof.
  unfold get_best_edge.
  pose proof (scan_nodes_ops_le visited w visited (incr_simple 2 w) (None, Inf)) as L.
  simpl in L. specialize (L ltac:(done)). lia.
Qed.

Lemma out_total_submseteq w l k : l ⊆+ k → (out_total w l ≤ out_total w k)%nat.
Proof.
  induction 1 as [|x l k _ IH|x y l|x l k _ IH|l k m _ IH1 _ IH2];
    rewrite ?out_total_cons; try lia.
Qed.

Lemma out_total_frame w w' ns : frame w w' → out_total w' ns = out_total w ns.
Proof.
  intros Fr. unfold out_total. f_equal. apply map_ext. intros x.
  by rewrite (frame_outbound w w' x Fr).
Qed.

Lemma init_simple_ops_le graph start w :
  simple_ops (tracker (init_lengths incr_simple graph start w))
    ≤ simple_ops (tracker w) + 2 * Z.of_nat (List.length (Graph.nodes (graph_at w graph))).
Proof.
  unfold init_lengths.
  change (graph_at (set_length start (Fin 0) w) graph) with (graph_at w graph).
  change (tracker w) with (tracker (set_length start (Fin 0) w)).
  generalize (set_length start (Fin 0) w). generalize (Graph.nodes (graph_at w graph)).
  intros ns. induction ns as [|x ns IH]; intros w0; [simpl; lia|].
  cbn [foldl]. match goal with |- context [foldl _ ?w1 ns] => specialize (IH w1) end.
  rewrite length_cons. etrans; [exact IH|].
  destruct (negb (x =? start)%nat); simpl; lia.
Qed.

Lemma simple_loop_ops_le w0 (nodes : list nat) fuel : ∀ w visited w',
  (∀ x e', x ∈ nodes → e' ∈ outbound_of w0 x → head_of w0 e' ∈ nodes) →
  frame w0 w →
  (∀ x, x ∈ visited → x ∈ nodes) → NoDup visited →
  simple_loop fuel w visited = Some w' →
  simple_ops (tracker w')
    ≤ simple_ops (tracker w)
      + (Z.of_nat (List.length nodes) - Z.of_nat (List.length visited) + 1)
        * (5 + Z.of_nat (List.length nodes) + 4 * Z.of_nat (out_total w0 nodes)).
Proof.
  induction fuel as [|fuel IH]; intros w visited w' Hcl Fr Hsub ND; [done|].
  assert (visited ⊆+ nodes) as Hms by (by apply NoDup_submseteq).
  pose proof (submseteq_length _ _ Hms) as Hlen.
  pose proof (out_total_submseteq w0 _ _ Hms) as Hout.
  cbn [simple_loop].
  pose proof (get_best_edge_ops_le w visited) as L.
  rewrite (out_total_frame w0 w visited Fr) in L.
  destruct (get_best_edge_select w visited) as [S E].
  destruct (get_best_edge w visited) as [w1 [[e|] c]]; cbn [fst snd] in *.
  - intros Hl.
    destruct (select_some_candidate _ _ _ _ (eq_sym E)) as (Hc & _ & _).
    apply candidates_spec in Hc as [(x & Hx & He) Hh].
    assert (head_of w e ∈ nodes) as Hhead.
    { rewrite (frame_head w0 w e Fr). apply (Hcl x); [by apply Hsub|].
      by rewrite <- (frame_outbound w0 w x Fr). }
    apply IH in Hl; [| done | | |].
    + rewrite length_app in Hl. simpl in Hl, L.
      assert (List.length (visited ++ [head_of w e]) ≤ List.length nodes)%nat as Hlen'.
      { apply submseteq_length, NoDup_submseteq.
        - apply NoDup_app. split; [done|]. split; [|apply NoDup_singleton].
          intros y Hy ->%list_elem_of_singleton. done.
        - intros y Hy. apply elem_of_app in Hy as [Hy|Hy]; [by apply Hsub|].
          by apply list_elem_of_singleton in Hy as ->. }
      rewrite length_app in Hlen'. simpl in Hlen'. nia.
    + eapply frame_trans; [exact Fr|]. eapply frame_trans; [|apply frame_set_length].
      eapply frame_trans; [by apply same_store_frame|].
      eapply frame_trans; [apply (frame_incr_simple 1)|apply (frame_incr_simple 2)].
    + intros y Hy. apply elem_of_app in Hy as [Hy|Hy]; [by apply Hsub|].
      apply list_elem_of_singleton in Hy as ->.
      change (head_of w1 e ∈ nodes). by rewrite (frame_head w w1 e (same_store_frame _ _ S)).
    + apply NoDup_app. split; [done|]. split; [|apply NoDup_singleton].
      intros y Hy ->%list_elem_of_singleton.
      change (head_of w1 e ∈ visited) in Hy.
      by rewrite (frame_head w w1 e (same_store_frame _ _ S)) in Hy.
  - intros [= <-]. simpl in *. nia.
Qed.

Lemma simple_run_simple_ops_le fuel graph start w ws :
  graph_wf w graph → start ∈ Graph.nodes (graph_at w graph) →
  simple_shortest_path fuel graph start w = Some (Ok ws) →
  simple_ops (tracker ws)
    ≤ simple_ops (tracker w) + 2
      + 2 * Z.of_nat (List.length (Graph.nodes (graph_at w graph)))
      + Z.of_nat (List.length (Graph.nodes (graph_at w graph)))
        * (5 + Z.of_nat (List.length (Graph.nodes (graph_at w graph)))
           + 4 * Z.of_nat (out_total w (Graph.nodes (graph_at w graph)))).
Proof.
  intros Wg Hin Es. unfold simple_shortest_path in Es.
  destruct (simple_loop _ _ _) as [w'|] eqn:El; [|done]. injection Es as <-.
  destruct (init_lengths_spec incr_simple incr_simple_tracker graph start (incr_simple 2 w))
    as (Fr & _).
  pose proof (init_simple_ops_le graph start (incr_simple 2 w)) as Li.
  change (graph_at (incr_simple 2 w) graph) with (graph_at w graph) in Li.
  apply (simple_loop_ops_le w (Graph.nodes (graph_at w graph))) in El.
  - simpl in El, Li. lia.
  - intros x e' Hx He'. by destruct (graph_wf_outbound w graph x e' Wg Hx He') as (_ & _ & ?).
  - eapply frame_trans; [apply (frame_incr_simple 2)|exact Fr].
  - intros x Hx. by apply list_elem_of_singleton in Hx as ->.
  - apply NoDup_singleton.
Qed.

Lemma out_total_length w ns :
  out_total w ns = List.length (concat (map (outbound_of w) ns)).
Proof.
  induction ns as [|x ns IH]; [done|]. rewrite out_total_cons. simpl.
  rewrite length_app. by rewrite IH.
Qed.

Lemma elem_of_concat_map (f : nat → list nat) (x : nat) (l : list nat) :
  x ∈ concat (map f l) ↔ ∃ y, y ∈ l ∧ x ∈ f y.
Proof.
  induction l as [|y l IH]; simpl.
  - split; [by intros ?%elem_of_nil|by intros (? & ?%elem_of_nil & _)].
  - rewrite elem_of_app, IH. split.
    + intros [Hx|(z & Hz & Hx)]; [exists y; split; [by left|done]|].
      exists z. split; [by right|done].
    + intros (z & Hz & Hx). apply elem_of_cons in Hz as [->|Hz]; [by left|].
      right. by exists z.
Qed.

Lemma out_total_le_edges w graph :
  graph_wf w graph →
  NoDup (Graph.nodes (graph_at w graph)) →
  (∀ x, x ∈ Graph.nodes (graph_at w graph) → NoDup (outbound_of w x)) →
  (out_total w (Graph.nodes (graph_at w graph))
     ≤ List.length (Graph.edges (graph_at w graph)))%nat.
Proof.
  intros [_ Wn] ND Ho. rewrite out_total_length. rewrite Forall_forall in Wn.
  apply submseteq_length, NoDup_submseteq.
  - revert ND Ho Wn. generalize (Graph.nodes (graph_at w graph)).
    induction l as [|x l IH]; intros ND Ho Wn; [constructor|].
    apply NoDup_cons in ND as [Hx ND]. simpl. apply NoDup_app.
    split; [apply Ho; by left|]. split.
    + intros e' He' Hin. apply elem_of_concat_map in Hin as (y & Hy & Hin).
      assert (tail_of w e' = x) as Hx'.
      { specialize (Wn x ltac:(by left)). rewrite Forall_forall in Wn. by apply Wn. }
      assert (tail_of w e' = y) as Hy'.
      { specialize (Wn y ltac:(by right)). rewrite Forall_forall in Wn. by apply Wn. }
      congruence.
    + apply IH; [done| |].
      * intros y Hy. apply Ho. by right.
      * intros y Hy. apply Wn. by right.
  - intros e' Hin. apply elem_of_concat_map in Hin as (y & Hy & Hin).
    specialize (Wn y Hy). rewrite Forall_forall in Wn. by apply Wn.
Qed.

(** X9.  The simple variant is quadratic at most: on a graph built as its
    precondition asks, with [n] nodes whose adjacency lists have [d] items
    in total, a run adds at most [2 + 2 n + n (5 + n + 4 d)] to the simple
    total; [d] is at most the number of edges of the graph when no node
    and no item of an adjacency list is repeated. *)
Theorem simple_ops_upper_bound fuel graph start w :
  closed w → graph_wf w graph → start ∈ Graph.nodes (graph_at w graph) →
  (simple_fuel w ≤ fuel)%nat →
  ∃ ws,
    simple_shortest_path fuel graph start w = Some (Ok ws) ∧
    simple_ops (tracker ws)
      ≤ simple_ops (tracker w) + 2
        + 2 * Z.of_nat (List.length (Graph.nodes (graph_at w graph)))
        + Z.of_nat (List.length (Graph.nodes (graph_at w graph)))
          * (5 + Z.of_nat (List.length (Graph.nodes (graph_at w graph)))
             + 4 * Z.of_nat (out_total w (Graph.nodes (graph_at w graph)))) ∧
    (NoDup (Graph.nodes (graph_at w graph)) →
     (∀ x, x ∈ Graph.nodes (graph_at w graph) → NoDup (outbound_of w x)) →
     (out_total w (Graph.nodes (graph_at w graph))
        ≤ List.length (Graph.edges (graph_at w graph)))%nat).
Proof.
  intros C Wg Hin Hf.
  destruct (simple_run_sound fuel graph start w C Wg Hin Hf) as (ws & Es & _).
  exists ws. split; [done|].
  split; [by apply (simple_run_simple_ops_le fuel graph start)|].
  by apply out_total_le_edges.
Qed.

(** ** [run_dijkstra] *)





(** ** Helpers of [random_graph.py] *)

(** X11.  [clamp] returns a value between the bounds when the bounds are in
    order: the value itself when it is between them, the nearer bound
    otherwise.  When the bounds are out of order it returns the lower
    bound [min_value]. *)
Theorem clamp_between_bounds (value min_value max_value : Z) :
  (min_value ≤ max_value →
     min_value ≤ clamp value min_value max_value ≤ max_value ∧
     (min_value ≤ value ≤ max_value → clamp value min_value max_value = value) ∧
     (value < min_value → clamp value min_value max_value = min_value) ∧
     (max_value < value → clamp value min_value max_value = max_value)) ∧
  (max_value < min_value → clamp value min_value max_value = min_value).
Proof. unfold clamp. lia. Qed.

Lemma remove_by_ref_elem (lst : list nat) (obj x : nat) :
  x ∈ remove_by_ref lst obj ↔ x ∈ lst ∧ x ≠ obj.
Proof.
  unfold remove_by_ref. rewrite !list_elem_of_In, List.filter_In, negb_true_iff.
  by rewrite Nat.eqb_neq.
Qed.

Lemma remove_by_ref_absent (lst : list nat) (obj : nat) :
  obj ∉ lst → remove_by_ref lst obj = lst.
Proof.
  intros Hn. unfold remove_by_ref. induction lst as [|y lst IH]; [done|].
  apply not_elem_of_cons in Hn as [Hy Hn]. simpl.
  destruct (Nat.eqb_spec y obj) as [Heq|_]; [by subst|]. simpl. f_equal. by apply IH.
Qed.

Lemma remove_by_ref_length (lst : list nat) (obj : nat) :
  NoDup lst → obj ∈ lst →
  S (List.length (remove_by_ref lst obj)) = List.length lst.
Proof.
  induction lst as [|y lst IH]; intros ND Hin; [by apply elem_of_nil in Hin|].
  apply NoDup_cons in ND as [Hy ND].
  change (remove_by_ref (y :: lst) obj)
    with (if negb (y =? obj)%nat then y :: remove_by_ref lst obj else remove_by_ref lst obj).
  destruct (Nat.eqb_spec y obj) as [->|Hne]; simpl.
  - by rewrite remove_by_ref_absent.
  - f_equal. apply IH; [done|]. apply elem_of_cons in Hin as [->|Hin]; done.
Qed.

(** X12.  [remove_by_ref] keeps, in order, exactly the items that are not
    the given object.  From a list of distinct nodes that holds the object
    it takes one item, so in [generate_random_graph] the number of heads
    to draw, clamped between 0 and [n - 1], is never above the number of
    nodes to draw from. *)
Theorem remove_by_ref_removes_the_object_only (lst : list nat) (obj : nat) :
  (∀ x, x ∈ remove_by_ref lst obj ↔ x ∈ lst ∧ x ≠ obj) ∧
  sublist (remove_by_ref lst obj) lst ∧
  (obj ∉ lst → remove_by_ref lst obj = lst) ∧
  (NoDup lst → obj ∈ lst →
     S (List.length (remove_by_ref lst obj)) = List.length lst ∧
     ∀ num_edges : Z,
       0 ≤ clamp num_edges 0 (Z.of_nat (List.length lst) - 1)
         ≤ Z.of_nat (List.length (remove_by_ref lst obj))).
Proof.
  split; [intros x; apply remove_by_ref_elem|]. split; [|split].
  - unfold remove_by_ref. induction lst as [|y lst IH]; [constructor|]. simpl.
    destruct (negb (y =? obj)%nat); by constructor.
  - apply remove_by_ref_absent.
  - intros ND Hin. pose proof (remove_by_ref_length lst obj ND Hin) as Hl.
    split; [done|]. intros k. unfold clamp. lia.
Qed.

End MoreProofs.

Section MatrixProofs.
Context {F : Type} `{FloatOps F}.
Implicit Types w wn : World (F := F).

(** ** [matrix_to_graph] *)

Lemma fold_result_inv {S B C : Type} (Inv : S → list C → Prop) (f : S → B → result S)
    (g : B → list C) (P : B → Prop) :
  (∀ st acc b, P b → Inv st acc → ∃ st', f st b = Ok st' ∧ Inv st' (acc ++ g b)) →
  ∀ l, Forall P l → ∀ st acc, Inv st acc →
  ∃ st', fold_result f st l = Ok st' ∧ Inv st' (acc ++ flat_map g l).
Proof.
  intros Hstep l. induction l as [|b l IH]; intros HP st acc HI.
  - exists st. simpl. by rewrite app_nil_r.
  - apply Forall_cons in HP as [Hb HP]. destruct (Hstep st acc b Hb HI) as (st1 & E1 & I1).
    destruct (IH HP st1 _ I1) as (st2 & E2 & I2). exists st2. simpl. rewrite E1. simpl.
    split; [done|]. by rewrite app_assoc.
Qed.

Lemma make_nodes_S n w :
  make_nodes (S n) w =
    let '(nodes, w1) := make_nodes n w in
    let '(x, w2) := Node_init (PyInt (Z.of_nat n)) Inf w1 in (nodes ++ [x], w2).
Proof.
  unfold make_nodes. rewrite seq_S, foldl_app. simpl.
  by destruct (foldl _ _ _).
Qed.

Lemma make_nodes_spec n w :
  List.length (fst (make_nodes n w)) = n ∧
  NoDup (fst (make_nodes n w)) ∧
  edge_tbl (snd (make_nodes n w)) = edge_tbl w ∧
  graph_tbl (snd (make_nodes n w)) = graph_tbl w ∧
  tracker (snd (make_nodes n w)) = tracker w ∧
  (∀ x, x ∉ fst (make_nodes n w) → node_tbl (snd (make_nodes n w)) !! x = node_tbl w !! x) ∧
  (∀ i x, fst (make_nodes n w) !! i = Some x →
     node_tbl w !! x = None ∧
     node_tbl (snd (make_nodes n w)) !! x = Some (Node.mk (PyInt (Z.of_nat i)) [] [] Inf)).
Proof.
  induction n as [|n IH]; [by repeat split; try constructor|].
  rewrite make_nodes_S. destruct (make_nodes n w) as [nodes w1]. simpl in IH.
  destruct IH as (I1 & I2 & I3 & I4 & I5 & I6 & I7).
  unfold Node_init. simpl. set (x := fresh (dom (node_tbl w1))).
  assert (node_tbl w1 !! x = None) as Hx.
  { apply not_elem_of_dom. apply is_fresh. }
  assert (x ∉ nodes) as Hxn.
  { intros Hin. apply list_elem_of_lookup in Hin as [i Hi].
    apply I7 in Hi as [_ Hi]. congruence. }
  split; [rewrite length_app; simpl; lia|].
  split. { apply NoDup_app. split; [done|]. split; [|apply NoDup_singleton].
           intros y Hy ->%list_elem_of_singleton. done. }
  split; [done|]. split; [done|]. split; [done|]. split.
  - intros y Hy. apply not_elem_of_app in Hy as [Hy1 Hy2].
    rewrite lookup_insert_ne; [by apply I6|]. intros ->. apply Hy2. by apply list_elem_of_singleton.
  - intros i y Hi. apply lookup_app_Some in Hi as [Hi|[Hlen Hi]].
    + destruct (I7 _ _ Hi) as [Ha Hb]. split; [done|].
      rewrite lookup_insert_ne; [done|]. intros ->. congruence.
    + apply list_lookup_singleton_Some in Hi as [Hi <-].
      split; [by rewrite <- I6|]. rewrite lookup_insert_eq. do 3 f_equal. lia.
Qed.


Lemma Edge_init_fresh tl hd z w : edge_tbl w !! fst (Edge_init tl hd z w) = None.
Proof. simpl. apply not_elem_of_dom. apply is_fresh. Qed.

Lemma Edge_init_edge_tbl tl hd z w :
  edge_tbl (snd (Edge_init tl hd z w))
    = <[fst (Edge_init tl hd z w) := Edge.mk tl hd z]> (edge_tbl w).
Proof. reflexivity. Qed.

Lemma Edge_init_graph_tbl tl hd z w : graph_tbl (snd (Edge_init tl hd z w)) = graph_tbl w.
Proof. reflexivity. Qed.

Lemma Edge_init_tracker tl hd z w : tracker (snd (Edge_init tl hd z w)) = tracker w.
Proof. reflexivity. Qed.

Lemma Edge_init_node_tbl tl hd z w x :
  node_tbl (snd (Edge_init tl hd z w)) !! x =
    (fun nd => Node.mk (Node.data nd)
                 (if decide (x = hd) then Node.inbound nd ++ [fst (Edge_init tl hd z w)]
                  else Node.inbound nd)
                 (if decide (x = tl) then Node.outbound nd ++ [fst (Edge_init tl hd z w)]
                  else Node.outbound nd)
                 (Node.length nd)) <$> node_tbl w !! x.
Proof.
  simpl. destruct (decide (x = hd)) as [Hh|Hh], (decide (x = tl)) as [Ht|Ht]; subst.
  - rewrite !lookup_alter_eq. by destruct (node_tbl w !! tl) as [[]|].
  - rewrite lookup_alter_eq, lookup_alter_ne by done. by destruct (node_tbl w !! hd) as [[]|].
  - rewrite lookup_alter_ne, lookup_alter_eq by done. by destruct (node_tbl w !! tl) as [[]|].
  - rewrite !lookup_alter_ne by done. by destruct (node_tbl w !! x) as [[]|].
Qed.

Lemma Edge_init_node_exists tl hd z w x :
  node_exists (snd (Edge_init tl hd z w)) x ↔ node_exists w x.
Proof. unfold node_exists. rewrite Edge_init_node_tbl. apply fmap_is_Some. Qed.

Lemma Edge_init_length tl hd z w x :
  length_of (snd (Edge_init tl hd z w)) x = length_of w x ∧
  Node.data (node_at (snd (Edge_init tl hd z w)) x) = Node.data (node_at w x).
Proof.
  unfold length_of, node_at. rewrite Edge_init_node_tbl.
  by destruct (node_tbl w !! x).
Qed.

Lemma Edge_init_outbound tl hd z w x :
  node_exists w tl →
  outbound_of (snd (Edge_init tl hd z w)) x =
    if decide (x = tl) then outbound_of w x ++ [fst (Edge_init tl hd z w)]
    else outbound_of w x.
Proof.
  intros Ht. unfold outbound_of, node_at. rewrite Edge_init_node_tbl.
  destruct (decide (x = tl)) as [->|Hne].
  - destruct Ht as [nd ->]. done.
  - by destruct (node_tbl w !! x).
Qed.

Lemma Edge_init_node_other tl hd z w x :
  x ≠ tl → x ≠ hd → node_tbl (snd (Edge_init tl hd z w)) !! x = node_tbl w !! x.
Proof.
  intros Ht Hh. rewrite Edge_init_node_tbl.
  destruct (decide (x = hd)); [done|]. destruct (decide (x = tl)); [done|].
  by destruct (node_tbl w !! x) as [[]|].
Qed.

Lemma Edge_init_edge_new tl hd z w :
  edge_at (snd (Edge_init tl hd z w)) (fst (Edge_init tl hd z w)) = Edge.mk tl hd z.
Proof. unfold edge_at. rewrite Edge_init_edge_tbl. by rewrite lookup_insert_eq. Qed.

Lemma Edge_init_edge_old tl hd z w e :
  edge_exists w e →
  edge_tbl (snd (Edge_init tl hd z w)) !! e = edge_tbl w !! e.
Proof.
  intros He. rewrite Edge_init_edge_tbl. apply lookup_insert_ne. intros Heq.
  rewrite <- Heq in He. unfold edge_exists in He. rewrite Edge_init_fresh in He.
  by destruct He.
Qed.

Lemma edges_built_start wn nodes :
  (∀ x, x ∈ nodes → outbound_of wn x = []) →
  edges_built wn nodes ([], wn) [].
Proof.
  intros Hout. unfold edges_built. simpl.
  refine (conj _ (conj _ (conj _ (conj _ (conj _ (conj _ (conj _ (conj _ (conj _
            (conj _ (conj _ _))))))))))); try done.
  - intros x e Hx He. rewrite (Hout x Hx) in He. by apply elem_of_nil in He.
  - intros e He. by apply elem_of_nil in He.
  - constructor.
  - intros x Hx. rewrite (Hout x Hx). constructor.
Qed.

Lemma edges_built_step wn nodes edges w1 entries r c z tl hd :
  Forall (node_exists wn) nodes →
  edges_built wn nodes (edges, w1) entries →
  nodes !! r = Some tl → nodes !! c = Some hd →
  edges_built wn nodes
    (edges ++ [fst (Edge_init tl hd z w1)], snd (Edge_init tl hd z w1))
    (entries ++ [(r, c, z)]).
Proof.
  intros Hex (B1 & B2 & B3 & B4 & B5 & B6 & B7 & B8 & B9 & B10 & B11 & B12) Hr Hc.
  cbn [fst snd] in *. rewrite Forall_forall in Hex.
  assert (tl ∈ nodes) as Htl by (by eapply list_elem_of_lookup_2).
  assert (hd ∈ nodes) as Hhd by (by eapply list_elem_of_lookup_2).
  assert (node_exists w1 tl) as Et by (apply B4; auto).
  assert (node_exists w1 hd) as Eh by (apply B4; auto).
  set (e := fst (Edge_init tl hd z w1)).
  set (w2 := snd (Edge_init tl hd z w1)).
  assert (edge_tbl w1 !! e = None) as Hfresh by apply (Edge_init_fresh tl hd z w1).
  assert (∀ e', e' ∈ edges → edge_exists w1 e') as Hedges.
  { intros e' He'. apply list_elem_of_lookup in He' as [i Hi].
    destruct (Forall2_lookup_l _ _ _ _ _ B8 Hi) as (en & _ & _ & tl' & hd' & _ & _ & Hl).
    unfold edge_exists. rewrite Hl. eauto. }
  assert (∀ e', edge_exists w1 e' → edge_at w2 e' = edge_at w1 e') as Hold.
  { intros e' He'. unfold edge_at, w2. by rewrite Edge_init_edge_old. }
  unfold edges_built. cbn [fst snd].
  refine (conj _ (conj _ (conj _ (conj _ (conj _ (conj _ (conj _ (conj _ (conj _
            (conj _ (conj _ _))))))))))).
  - intros C. apply Edge_init_closed; auto.
  - done.
  - done.
  - intros x. unfold w2. rewrite Edge_init_node_exists. apply B4.
  - intros x. unfold w2. destruct (Edge_init_length tl hd z w1 x) as [-> ->]. apply B5.
  - intros x Hx. unfold w2. rewrite Edge_init_node_other; [by apply B6| |]; by intros ->.
  - intros e' He'. unfold w2. rewrite Edge_init_edge_old; [by apply B7|].
    unfold edge_exists. rewrite B7 by done. done.
  - apply Forall2_app.
    + eapply Forall2_impl; [exact B8|]. intros e' en (Hn & tl' & hd' & H1 & H2 & H3).
      split; [done|]. exists tl', hd'. split; [done|]. split; [done|].
      unfold w2. rewrite Edge_init_edge_old; [done|]. unfold edge_exists. rewrite H3. eauto.
    + constructor; [|constructor]. split.
      * intros He. apply B7 in He as He'. destruct He as [ed He]. rewrite He in He'.
        fold e in Hfresh. congruence.
      * exists tl, hd. split; [done|]. split; [done|]. unfold w2.
        rewrite Edge_init_edge_tbl. by rewrite lookup_insert_eq.
  - intros x e' Hx He'. unfold w2 in He'. rewrite Edge_init_outbound in He' by done.
    assert (e' ∈ outbound_of w1 x → (e' ∈ edges ++ [e]) ∧ tail_of w2 e' = x) as Hcase.
    { intros Hin. destruct (B9 x e' Hx Hin) as [Hi Ht]. split; [apply elem_of_app; auto|].
      unfold tail_of. rewrite Hold; [done|]. by apply Hedges. }
    destruct (decide (x = tl)) as [->|Hne]; [|by apply Hcase].
    apply elem_of_app in He' as [He'|He']; [by apply Hcase|].
    apply list_elem_of_singleton in He' as ->. split.
    + apply elem_of_app. right. by apply list_elem_of_singleton.
    + unfold tail_of, w2. by rewrite Edge_init_edge_new.
  - intros e' He'. apply elem_of_app in He' as [He'|He'].
    + unfold tail_of. rewrite Hold by (by apply Hedges). fold (tail_of w1 e').
      unfold w2. rewrite Edge_init_outbound by done.
      destruct (decide _); [apply elem_of_app; left|]; by apply B10.
    + apply list_elem_of_singleton in He' as ->.
      unfold tail_of, w2. rewrite Edge_init_edge_new. cbn [Edge.tail].
      rewrite Edge_init_outbound by done. rewrite decide_True by done.
      apply elem_of_app. right. by apply list_elem_of_singleton.
  - apply NoDup_app. split; [done|]. split; [|apply NoDup_singleton].
    intros e' He' ->%list_elem_of_singleton. apply Hedges in He' as [ed He'].
    fold e in Hfresh. congruence.
  - intros x Hx. unfold w2. rewrite Edge_init_outbound by done.
    destruct (decide (x = tl)) as [->|Hne]; [|by apply B12].
    apply NoDup_app. split; [by apply B12|]. split; [|apply NoDup_singleton].
    intros e' He' ->%list_elem_of_singleton.
    destruct (B9 tl e Htl He') as [Hin _]. apply Hedges in Hin as [ed Hin]. congruence.
Qed.

Lemma matrix_cell_step wn nodes matrix row :
  square (List.length nodes) matrix →
  Forall (node_exists wn) nodes →
  (row < List.length nodes)%nat →
  ∀ st acc col, (col < List.length nodes)%nat →
    edges_built wn nodes st acc →
    ∃ st', matrix_cell matrix nodes row st col = Ok st' ∧
      edges_built wn nodes st'
        (acc ++ match matrix !! row with
                | Some r => match r !! col with
                            | Some (Fin z) => [(row, col, z)]
                            | _ => []
                            end
                | None => []
                end).
Proof.
  intros [Hlen Hrows] Hex Hrow st acc col Hcol HI.
  rewrite Forall_forall in Hrows.
  destruct (lookup_lt_is_Some_2 matrix row) as [r Hr]; [lia|].
  assert (List.length r = List.length nodes) as Hrl.
  { apply Hrows. by eapply list_elem_of_lookup_2. }
  destruct (lookup_lt_is_Some_2 r col) as [v Hv]; [lia|].
  destruct (lookup_lt_is_Some_2 nodes row) as [tl Htl]; [lia|].
  destruct (lookup_lt_is_Some_2 nodes col) as [hd Hhd]; [lia|].
  unfold matrix_cell, list_get. rewrite Hr. simpl. rewrite Hv. simpl.
  destruct v as [z|].
  - rewrite Htl. simpl. rewrite Hhd. simpl.
    destruct st as [edges w1].
    exists (edges ++ [fst (Edge_init tl hd z w1)], snd (Edge_init tl hd z w1)).
    split; [done|]. by apply edges_built_step.
  - exists st. split; [done|]. by rewrite app_nil_r.
Qed.

Lemma matrix_rows_run wn nodes matrix :
  square (List.length nodes) matrix →
  Forall (node_exists wn) nodes →
  (∀ x, x ∈ nodes → outbound_of wn x = []) →
  ∃ st,
    fold_result
      (fun st row => fold_result (matrix_cell matrix nodes row) st (seq 0 (List.length nodes)))
      ([], wn) (seq 0 (List.length nodes)) = Ok st ∧
    edges_built wn nodes st (matrix_entries matrix).
Proof.
  intros Hsq Hex Hout.
  assert (Forall (fun i => (i < List.length nodes)%nat) (seq 0 (List.length nodes))) as Hseq.
  { apply Forall_forall. intros i Hi. apply list_elem_of_In, in_seq in Hi. lia. }
  destruct (fold_result_inv (edges_built wn nodes)
              (fun st row => fold_result (matrix_cell matrix nodes row) st
                               (seq 0 (List.length nodes)))
              (fun row => flat_map (fun col =>
                 match matrix !! row with
                 | Some r => match r !! col with
                             | Some (Fin z) => [(row, col, z)]
                             | _ => []
                             end
                 | None => []
                 end) (seq 0 (List.length nodes)))
              (fun i => (i < List.length nodes)%nat)) with (l := seq 0 (List.length nodes))
              (st := (@nil nat, wn)) (acc := @nil (nat * nat * Z))
    as (st & E & I); [|done|by apply edges_built_start|].
  - intros st acc row Hrow HI.
    apply (fold_result_inv (edges_built wn nodes) (matrix_cell matrix nodes row) _
             (fun i => (i < List.length nodes)%nat)); [|done|done].
    intros st1 acc1 col Hcol HI1. by apply matrix_cell_step.
  - exists st. split; [done|]. unfold matrix_entries. destruct Hsq as [-> _]. exact I.
Qed.

Lemma forallb_square matrix :
  forallb (fun row => Nat.eqb (List.length row) (List.length matrix)) matrix = true
  ↔ square (List.length matrix) matrix.
Proof.
  unfold square. rewrite forallb_forall, Forall_forall. split.
  - intros Hall. split; [done|]. intros r Hr. apply Nat.eqb_eq, Hall. by apply list_elem_of_In.
  - intros [_ Hall] r Hr. apply Nat.eqb_eq, Hall. by apply list_elem_of_In.
Qed.

Lemma matrix_to_graph_not_square matrix w :
  ¬ square (List.length matrix) matrix → matrix_to_graph matrix w = Err ValueError.
Proof.
  intros Hn. unfold matrix_to_graph.
  destruct (forallb _ matrix) eqn:E; [|done]. by apply forallb_square in E.
Qed.

Lemma matrix_to_graph_run matrix w :
  square (List.length matrix) matrix →
  ∃ edges w1,
    matrix_to_graph matrix w
      = Ok (Graph_init (fst (make_nodes (List.length matrix) w)) edges w1) ∧
    edges_built (snd (make_nodes (List.length matrix) w))
      (fst (make_nodes (List.length matrix) w)) (edges, w1) (matrix_entries matrix).
Proof.
  intros Hsq. unfold matrix_to_graph. rewrite (proj2 (forallb_square _) Hsq).
  cbn [negb].
  destruct (make_nodes_spec (List.length matrix) w) as (M1 & M2 & M3 & M4 & M5 & M6 & M7).
  destruct (make_nodes (List.length matrix) w) as [nodes wn]. cbn [fst snd] in *.
  destruct (matrix_rows_run wn nodes matrix) as ([edges w1] & E & I).
  - by rewrite M1.
  - apply Forall_forall. intros x Hx. apply list_elem_of_lookup in Hx as [i Hi].
    destruct (M7 _ _ Hi) as [_ Hl]. unfold node_exists. rewrite Hl. eauto.
  - intros x Hx. apply list_elem_of_lookup in Hx as [i Hi].
    destruct (M7 _ _ Hi) as [_ Hl]. unfold outbound_of, node_at. by rewrite Hl.
  - rewrite M1 in E. rewrite E. exists edges, w1. done.
Qed.

Lemma Graph_init_graph_at ns es w :
  graph_at (snd (Graph_init ns es w)) (fst (Graph_init ns es w)) = Graph.mk ns es.
Proof. unfold graph_at. simpl. by rewrite lookup_insert_eq. Qed.

Lemma Graph_init_fresh ns es w : graph_tbl w !! fst (Graph_init ns es w) = None.
Proof. simpl. apply not_elem_of_dom. apply is_fresh. Qed.

Lemma Graph_init_wf ns es w :
  (∀ e, e ∈ es → tail_of w e ∈ ns ∧ head_of w e ∈ ns ∧ e ∈ outbound_of w (tail_of w e)) →
  (∀ x e, x ∈ ns → e ∈ outbound_of w x → e ∈ es ∧ tail_of w e = x) →
  graph_wf (snd (Graph_init ns es w)) (fst (Graph_init ns es w)).
Proof.
  intros He Hn. unfold graph_wf. rewrite Graph_init_graph_at. cbn [Graph.nodes Graph.edges].
  split; apply Forall_forall.
  - intros e Hin. exact (He e Hin).
  - intros x Hx. apply Forall_forall. intros e Hin. exact (Hn x e Hx Hin).
Qed.

Lemma edges_built_edge wn nodes edges w1 entries e :
  edges_built wn nodes (edges, w1) entries → e ∈ edges →
  edge_exists w1 e ∧ tail_of w1 e ∈ nodes ∧ head_of w1 e ∈ nodes.
Proof.
  intros (_ & _ & _ & _ & _ & _ & _ & B8 & _) He. cbn [fst snd] in B8.
  apply list_elem_of_lookup in He as [i Hi].
  destruct (Forall2_lookup_l _ _ _ _ _ B8 Hi) as (en & _ & _ & tl & hd & H1 & H2 & H3).
  unfold edge_exists, tail_of, head_of, edge_at. rewrite H3. simpl.
  split; [eauto|]. split; by eapply list_elem_of_lookup_2.
Qed.

Lemma make_nodes_closed n w : closed w → closed (snd (make_nodes n w)).
Proof.
  intros C. induction n as [|n IH]; [done|]. rewrite make_nodes_S.
  destruct (make_nodes n w) as [nodes w1]. cbn [snd] in IH.
  exact (Node_init_closed (PyInt (Z.of_nat n)) Inf w1 IH).
Qed.

(** X13.  [matrix_to_graph] raises ValueError exactly when some row's
    length is not the number of rows, and it never raises IndexError. *)
Theorem matrix_to_graph_raises_iff_not_square matrix w :
  (matrix_to_graph matrix w = Err ValueError
     ↔ ∃ row, row ∈ matrix ∧ List.length row ≠ List.length matrix) ∧
  matrix_to_graph matrix w ≠ Err IndexError.
Proof.
  destruct (decide (Forall (fun r => List.length r = List.length matrix) matrix)) as [Hs|Hn].
  - destruct (matrix_to_graph_run matrix w) as (edges & w1 & E & _); [by split|].
    rewrite E. split; [|done]. split; [done|]. intros (row & Hin & Hne).
    rewrite Forall_forall in Hs. by apply Hs in Hin.
  - rewrite matrix_to_graph_not_square by (by intros [_ ?]). split; [|done].
    split; [|done]. intros _. apply not_Forall_Exists in Hn; [|apply _].
    apply Exists_exists in Hn as (row & Hin & Hne). by exists row.
Qed.

Lemma matrix_to_graph_built matrix w :
  square (List.length matrix) matrix →
  ∃ g w',
    matrix_to_graph matrix w = Ok (g, w') ∧
    graph_tbl w !! g = None ∧
    List.length (Graph.nodes (graph_at w' g)) = List.length matrix ∧
    NoDup (Graph.nodes (graph_at w' g)) ∧
    NoDup (Graph.edges (graph_at w' g)) ∧
    (∀ i x, Graph.nodes (graph_at w' g) !! i = Some x →
       ¬ node_exists w x ∧ node_exists w' x ∧
       Node.data (node_at w' x) = PyInt (Z.of_nat i) ∧ length_of w' x = Inf) ∧
    Forall2 (fun e en =>
               ¬ edge_exists w e ∧ edge_exists w' e ∧
               Graph.nodes (graph_at w' g) !! en.1.1 = Some (tail_of w' e) ∧
               Graph.nodes (graph_at w' g) !! en.1.2 = Some (head_of w' e) ∧
               weight_of w' e = en.2)
            (Graph.edges (graph_at w' g)) (matrix_entries matrix) ∧
    graph_wf w' g ∧
    (closed w → closed w') ∧
    tracker w' = tracker w ∧
    (∀ x, node_exists w x → node_tbl w' !! x = node_tbl w !! x) ∧
    (∀ e, edge_exists w e → edge_tbl w' !! e = edge_tbl w !! e) ∧
    (∀ g', is_Some (graph_tbl w !! g') → graph_tbl w' !! g' = graph_tbl w !! g') ∧
    (∀ x, x ∈ Graph.nodes (graph_at w' g) → NoDup (outbound_of w' x)).
Proof.
  intros Hsq. destruct (matrix_to_graph_run matrix w Hsq) as (edges & w1 & E & I).
  pose proof (make_nodes_closed (List.length matrix) w) as Cn.
  destruct (make_nodes_spec (List.length matrix) w) as (M1 & M2 & M3 & M4 & M5 & M6 & M7).
  destruct (make_nodes (List.length matrix) w) as [nodes wn]. cbn [fst snd] in *.
  pose proof I as (B1 & B2 & B3 & B4 & B5 & B6 & B7 & B8 & B9 & B10 & B11 & B12).
  cbn [fst snd] in *.
  exists (fst (Graph_init nodes edges w1)), (snd (Graph_init nodes edges w1)).
  split; [by rewrite E; destruct (Graph_init nodes edges w1)|].
  rewrite Graph_init_graph_at. cbn [Graph.nodes Graph.edges].
  split. { rewrite <- M4, <- B2. apply Graph_init_fresh. }
  split; [done|]. split; [done|]. split; [done|]. split.
  { intros i x Hi. destruct (M7 i x Hi) as [Hnew Hl].
    split. { unfold node_exists. rewrite Hnew. by intros []. }
    split. { apply (B4 x). unfold node_exists. rewrite Hl. eauto. }
    destruct (B5 x) as [Hlen Hdata].
    change (Node.data (node_at w1 x) = PyInt (Z.of_nat i) ∧ length_of w1 x = Inf).
    rewrite Hlen, Hdata. unfold length_of, node_at. by rewrite Hl. }
  split.
  { eapply Forall2_impl; [exact B8|]. intros e en (Hn & tl & hd & H1 & H2 & H3).
    change (¬ edge_exists w e ∧ edge_exists w1 e ∧
            nodes !! en.1.1 = Some (tail_of w1 e) ∧
            nodes !! en.1.2 = Some (head_of w1 e) ∧ weight_of w1 e = en.2).
    unfold edge_exists, tail_of, head_of, weight_of, edge_at in *. rewrite H3.
    rewrite <- M3. split; [done|]. split; [eauto|]. done. }
  split.
  { apply Graph_init_wf.
    - intros e He. destruct (edges_built_edge _ _ _ _ _ e I He) as (_ & Ht & Hh).
      split; [done|]. split; [done|]. by apply B10.
    - intros x e Hx He. by apply B9. }
  split.
  { intros C. apply Graph_init_closed; [by apply B1, Cn| |]; apply Forall_forall.
    - intros x Hx. apply list_elem_of_lookup in Hx as [i Hi]. apply B4.
      destruct (M7 i x Hi) as [_ Hl]. unfold node_exists. rewrite Hl. eauto.
    - intros e He. by destruct (edges_built_edge _ _ _ _ _ e I He). }
  split; [by rewrite <- M5, <- B3|]. split; [|split; [|split]].
  - intros x Hx. change (node_tbl w1 !! x = node_tbl w !! x).
    assert (x ∉ nodes) as Hxn.
    { intros Hin. apply list_elem_of_lookup in Hin as [i Hi].
      destruct (M7 i x Hi) as [Hnew _]. destruct Hx as [nd Hx]. congruence. }
    rewrite B6 by done. by apply M6.
  - intros e He. change (edge_tbl w1 !! e = edge_tbl w !! e). rewrite <- M3.
    apply B7. unfold edge_exists. by rewrite M3.
  - intros g' Hg'. simpl. rewrite B2, M4. apply lookup_insert_ne. intros Heq.
    pose proof (Graph_init_fresh nodes edges w1) as Hf. simpl in Hf.
    rewrite B2, M4, Heq in Hf. rewrite Hf in Hg'. by destruct Hg'.
  - exact B12.
Qed.

Lemma matrix_to_graph_nonneg matrix w g w' :
  Forall2 (fun e en =>
             ¬ edge_exists w e ∧ edge_exists w' e ∧
             Graph.nodes (graph_at w' g) !! en.1.1 = Some (tail_of w' e) ∧
             Graph.nodes (graph_at w' g) !! en.1.2 = Some (head_of w' e) ∧
             weight_of w' e = en.2)
          (Graph.edges (graph_at w' g)) (matrix_entries matrix) →
  Forall (fun en => 0 ≤ en.2) (matrix_entries matrix) → nonneg_weights w' g.
Proof.
  intros HF Hnn. unfold nonneg_weights. apply Forall_forall. intros e He.
  apply list_elem_of_lookup in He as [i Hi].
  destruct (Forall2_lookup_l _ _ _ _ _ HF Hi) as (en & Hen & _ & _ & _ & _ & Hw).
  rewrite Forall_forall in Hnn. rewrite Hw. apply Hnn. by eapply list_elem_of_lookup_2.
Qed.

(** X14.  On a square matrix [matrix_to_graph] returns a new graph.  Its
    nodes are as many new nodes as the matrix has rows, the node at
    position [i] with data [i] and infinite length.  Its edges are new
    edges, one for each finite entry of the matrix in the order of the
    rows and, within a row, of the columns: the entry at [(r, c)] gives an
    edge from the node at [r] to the node at [c] with the entry as its
    weight. *)
Theorem matrix_to_graph_nodes_and_edges matrix w :
  square (List.length matrix) matrix →
  ∃ g w',
    matrix_to_graph matrix w = Ok (g, w') ∧
    graph_tbl w !! g = None ∧
    List.length (Graph.nodes (graph_at w' g)) = List.length matrix ∧
    NoDup (Graph.nodes (graph_at w' g)) ∧
    NoDup (Graph.edges (graph_at w' g)) ∧
    (∀ i x, Graph.nodes (graph_at w' g) !! i = Some x →
       ¬ node_exists w x ∧ node_exists w' x ∧
       Node.data (node_at w' x) = PyInt (Z.of_nat i) ∧ length_of w' x = Inf) ∧
    Forall2 (fun e en =>
               ¬ edge_exists w e ∧ edge_exists w' e ∧
               Graph.nodes (graph_at w' g) !! en.1.1 = Some (tail_of w' e) ∧
               Graph.nodes (graph_at w' g) !! en.1.2 = Some (head_of w' e) ∧
               weight_of w' e = en.2)
            (Graph.edges (graph_at w' g)) (matrix_entries matrix).
Proof.
  intros Hsq.
  destruct (matrix_to_graph_built matrix w Hsq)
    as (g & w' & E & Hg & Hl & Hn & He & Hnodes & Hedges & _).
  exists g, w'. auto 10.
Qed.

(** X15.  On a store whose references all exist and a square matrix,
    [matrix_to_graph] returns a store whose references all exist and a
    graph built as the shortest-path functions expect: its edges join
    nodes of the graph and the adjacency lists of its nodes hold exactly
    such edges.  No weight is negative when no entry is.  The objects that
    were in the store before, and the counters, are as they were. *)
Theorem matrix_to_graph_well_formed matrix w :
  closed w → square (List.length matrix) matrix →
  ∃ g w',
    matrix_to_graph matrix w = Ok (g, w') ∧
    closed w' ∧ graph_wf w' g ∧
    (Forall (fun en => 0 ≤ en.2) (matrix_entries matrix) → nonneg_weights w' g) ∧
    tracker w' = tracker w ∧
    (∀ x, node_exists w x → node_tbl w' !! x = node_tbl w !! x) ∧
    (∀ e, edge_exists w e → edge_tbl w' !! e = edge_tbl w !! e) ∧
    (∀ g', is_Some (graph_tbl w !! g') → graph_tbl w' !! g' = graph_tbl w !! g').
Proof.
  intros C Hsq.
  destruct (matrix_to_graph_built matrix w Hsq)
    as (g & w' & E & _ & _ & _ & _ & _ & Hedges & Wf & Cl & Ht & Hon & Hoe & Hog & _).
  exists g, w'. split; [done|]. split; [by apply Cl|]. split; [done|].
  split; [by apply (matrix_to_graph_nonneg matrix w)|]. auto.
Qed.

(** ** [Graph.to_matrix] *)

Lemma node_index_lt w l x i : node_index w l x = Ok i → (i < List.length l)%nat.
Proof.
  revert i. induction l as [|y l IH]; intros i E; [done|]. simpl in E.
  destruct (_ || _); [injection E as <-; simpl; lia|].
  destruct (node_index w l x) as [k|]; [|done]. injection E as <-.
  simpl. specialize (IH k eq_refl). lia.
Qed.

Lemma node_index_found w l x :
  match node_index w l x with
  | Ok _ => node_in w x l = true
  | Err e => e = ValueError ∧ node_in w x l = false
  end.
Proof.
  induction l as [|y l IH]; [done|]. simpl.
  destruct (_ || _); [done|]. simpl. destruct (node_index w l x); simpl; done.
Qed.

Lemma node_index_first w x l :
  length_of w (default x (head l)) = length_of w x → l ≠ [] → node_index w l x = Ok 0%nat.
Proof.
  destruct l as [|y l]; [done|]. simpl. intros E _. unfold Node_eq. rewrite E.
  rewrite (proj2 (num_eqb_eq _ _) eq_refl). by rewrite orb_true_r.
Qed.

Lemma node_index_distinct w l i x :
  (∀ i j y y', l !! i = Some y → l !! j = Some y' →
               length_of w y = length_of w y' → i = j) →
  l !! i = Some x → node_index w l x = Ok i.
Proof.
  revert i. induction l as [|y l IH]; intros i Hd Hi; [done|]. simpl.
  destruct i as [|i].
  - injection Hi as ->. by rewrite Nat.eqb_refl.
  - simpl in Hi. destruct (_ || _) eqn:E.
    + apply orb_true_iff in E.
      assert (length_of w y = length_of w x) as Hl.
      { destruct E as [E|E]; [by apply Nat.eqb_eq in E as ->|by apply num_eqb_eq]. }
      by specialize (Hd 0%nat (S i) y x eq_refl Hi Hl).
    + rewrite (IH i); [done| |done]. intros a b u v Ha Hb Hl.
      specialize (Hd (S a) (S b) u v Ha Hb Hl). lia.
Qed.

Lemma square_replicate n : square n (replicate n (replicate n Inf)).
Proof.
  split; [apply length_replicate|]. apply Forall_replicate. apply length_replicate.
Qed.

Lemma matrix_get_replicate n i j :
  matrix_get (replicate n (replicate n Inf)) i j
    = if decide ((i < n)%nat ∧ (j < n)%nat) then Some Inf else None.
Proof.
  unfold matrix_get. destruct (decide (i < n)%nat) as [Hi|Hi].
  - rewrite lookup_replicate_2 by done. destruct (decide (j < n)%nat) as [Hj|Hj].
    + rewrite lookup_replicate_2 by done. by rewrite decide_True.
    + rewrite decide_False by tauto. apply lookup_replicate_None. lia.
  - rewrite decide_False by tauto.
    assert (replicate n (replicate n Inf) !! i = None) as ->; [|done].
    apply lookup_replicate_None. lia.
Qed.

Lemma matrix_get_lt n M i j :
  square n M → is_Some (matrix_get M i j) ↔ (i < n)%nat ∧ (j < n)%nat.
Proof.
  intros [Hl Hr]. unfold matrix_get. rewrite Forall_forall in Hr. split.
  - destruct (M !! i) as [r|] eqn:E; [|by intros []]. intros Hj.
    apply lookup_lt_Some in E as Hi. apply lookup_lt_is_Some_1 in Hj.
    rewrite (Hr r) in Hj by (by eapply list_elem_of_lookup_2). lia.
  - intros [Hi Hj]. destruct (lookup_lt_is_Some_2 M i) as [r E]; [lia|]. rewrite E.
    apply lookup_lt_is_Some_2. rewrite (Hr r) by (by eapply list_elem_of_lookup_2). done.
Qed.

Lemma matrix_set_spec n M r c v :
  square n M → (r < n)%nat → (c < n)%nat →
  ∃ M', matrix_set M r c v = Ok M' ∧ square n M' ∧
    ∀ i j, matrix_get M' i j
           = if decide (i = r ∧ j = c) then Some v else matrix_get M i j.
Proof.
  intros [Hl Hr] Hrn Hcn.
  destruct (lookup_lt_is_Some_2 M r) as [row Hrow]; [lia|].
  assert (List.length row = n) as Hlen.
  { rewrite Forall_forall in Hr. apply Hr. by eapply list_elem_of_lookup_2. }
  unfold matrix_set, list_get. rewrite Hrow. simpl.
  rewrite (proj2 (Nat.ltb_lt _ _)) by lia.
  exists (<[r := <[c := v]> row]> M). split; [done|]. split.
  - split; [by rewrite length_insert|]. apply Forall_insert; [done|].
    by rewrite length_insert.
  - intros i j. unfold matrix_get. destruct (decide (i = r)) as [->|Hne].
    + rewrite list_lookup_insert_eq by lia. rewrite Hrow.
      destruct (decide (j = c)) as [->|Hne].
      * rewrite decide_True by done. apply list_lookup_insert_eq. lia.
      * rewrite decide_False by tauto. by apply list_lookup_insert_ne.
    + rewrite decide_False by tauto. by rewrite list_lookup_insert_ne.
Qed.

Lemma cell_of_edges_cons w nodes e es i j acc :
  cell_of_edges w nodes (e :: es) i j acc
  = cell_of_edges w nodes es i j
      match node_index w nodes (tail_of w e), node_index w nodes (head_of w e) with
      | Ok r, Ok c => if Nat.eqb r i && Nat.eqb c j then Fin (weight_of w e) else acc
      | _, _ => acc
      end.
Proof. reflexivity. Qed.

Lemma to_matrix_fold w nodes edges :
  ∀ M0, square (List.length nodes) M0 →
  match fold_result (to_matrix_edge w nodes) M0 edges with
  | Ok M =>
      Forall (fun e => node_in w (tail_of w e) nodes = true ∧
                       node_in w (head_of w e) nodes = true) edges ∧
      square (List.length nodes) M ∧
      ∀ i j, matrix_get M i j = cell_of_edges w nodes edges i j <$> matrix_get M0 i j
  | Err e =>
      e = ValueError ∧
      Exists (fun e => node_in w (tail_of w e) nodes = false ∨
                       node_in w (head_of w e) nodes = false) edges
  end.
Proof.
  induction edges as [|e es IH]; intros M0 Hsq.
  - simpl. split; [constructor|]. split; [done|]. intros i j.
    unfold cell_of_edges. simpl. by destruct (matrix_get M0 i j).
  - cbn [fold_result]. unfold to_matrix_edge at 1.
    pose proof (node_index_found w nodes (tail_of w e)) as Ft.
    pose proof (node_index_lt w nodes (tail_of w e)) as Lt.
    destruct (node_index w nodes (tail_of w e)) as [r|er] eqn:Er; cbn [bind];
      [|destruct Ft as [-> Ft]; split; [done|]; apply Exists_cons_hd; by left].
    pose proof (node_index_found w nodes (head_of w e)) as Fh.
    pose proof (node_index_lt w nodes (head_of w e)) as Lh.
    destruct (node_index w nodes (head_of w e)) as [c|ec] eqn:Ec; cbn [bind];
      [|destruct Fh as [-> Fh]; split; [done|]; apply Exists_cons_hd; by right].
    specialize (Lt r eq_refl). specialize (Lh c eq_refl).
    destruct (matrix_set_spec _ M0 r c (Fin (weight_of w e)) Hsq Lt Lh) as (M1 & E1 & S1 & G1).
    rewrite E1. cbn [bind]. specialize (IH M1 S1).
    destruct (fold_result (to_matrix_edge w nodes) M1 es) as [M|err].
    + destruct IH as (Hall & S & G). split; [by constructor|]. split; [done|].
      intros i j. rewrite G, G1.
      destruct (decide (i = r ∧ j = c)) as [[-> ->]|Hne].
      * destruct (proj2 (matrix_get_lt _ M0 r c Hsq) (conj Lt Lh)) as [x ->].
        cbn [fmap option_fmap option_map]. rewrite cell_of_edges_cons, Er, Ec.
        by rewrite !Nat.eqb_refl.
      * destruct (matrix_get M0 i j) as [x|]; [|done].
        cbn [fmap option_fmap option_map]. rewrite cell_of_edges_cons, Er, Ec.
        destruct (Nat.eqb_spec r i) as [->|?], (Nat.eqb_spec c j) as [->|?];
          try done. by destruct Hne.
    + destruct IH as [-> Hex]. split; [done|]. by apply Exists_cons_tl.
Qed.

Lemma to_matrix_run graph w :
  match to_matrix graph w with
  | Ok M =>
      Forall (fun e => node_in w (tail_of w e) (Graph.nodes (graph_at w graph)) = true ∧
                       node_in w (head_of w e) (Graph.nodes (graph_at w graph)) = true)
             (Graph.edges (graph_at w graph)) ∧
      square (List.length (Graph.nodes (graph_at w graph))) M ∧
      ∀ i j, (i < List.length (Graph.nodes (graph_at w graph)))%nat →
             (j < List.length (Graph.nodes (graph_at w graph)))%nat →
             matrix_get M i j
             = Some (cell_of_edges w (Graph.nodes (graph_at w graph))
                       (Graph.edges (graph_at w graph)) i j Inf)
  | Err e =>
      e = ValueError ∧
      Exists (fun e => node_in w (tail_of w e) (Graph.nodes (graph_at w graph)) = false ∨
                       node_in w (head_of w e) (Graph.nodes (graph_at w graph)) = false)
             (Graph.edges (graph_at w graph))
  end.
Proof.
  unfold to_matrix.
  pose proof (to_matrix_fold w (Graph.nodes (graph_at w graph))
                (Graph.edges (graph_at w graph)) _ (square_replicate _)) as Hf.
  destruct (fold_result _ _ _) as [M|e]; [|done].
  destruct Hf as (Hall & S & G). split; [done|]. split; [done|].
  intros i j Hi Hj. rewrite G, matrix_get_replicate. by rewrite decide_True.
Qed.

(** X16.  [to_matrix] returns a matrix with as many rows and columns as
    the graph has nodes, which [matrix_to_graph] accepts, or raises
    ValueError: it raises exactly when, for some edge, no node of the
    graph is or equals (has the length of) the edge's tail or head.  It
    never raises IndexError. *)
Theorem to_matrix_square_or_value_error graph w :
  match to_matrix graph w with
  | Ok M =>
      square (List.length (Graph.nodes (graph_at w graph))) M ∧
      Forall (fun e => node_in w (tail_of w e) (Graph.nodes (graph_at w graph)) = true ∧
                       node_in w (head_of w e) (Graph.nodes (graph_at w graph)) = true)
             (Graph.edges (graph_at w graph)) ∧
      ∃ g' w', matrix_to_graph M w = Ok (g', w')
  | Err e =>
      e = ValueError ∧
      ∃ edge, edge ∈ Graph.edges (graph_at w graph) ∧
        (node_in w (tail_of w edge) (Graph.nodes (graph_at w graph)) = false ∨
         node_in w (head_of w edge) (Graph.nodes (graph_at w graph)) = false)
  end.
Proof.
  pose proof (to_matrix_run graph w) as Hr.
  destruct (to_matrix graph w) as [M|e].
  - destruct Hr as (Hall & S & _). split; [done|]. split; [done|].
    assert (square (List.length M) M) as S'.
    { destruct S as [Hl Hrows]. split; [done|]. by rewrite Hl. }
    destruct (matrix_to_graph_run M w S') as (edges & w1 & E & _).
    rewrite E. destruct (Graph_init _ edges w1) as [g' w']. eauto.
  - destruct Hr as [-> Hex]. split; [done|]. by apply Exists_exists in Hex.
Qed.

Lemma last_cons_filter (P : nat → Prop) `{∀ x, Decision (P x)} (e : nat) (es : list nat) (d : num)
    (f : nat → num) :
  match last (filter P (e :: es)) with Some e' => f e' | None => d end
  = match last (filter P es) with
    | Some e' => f e'
    | None => if decide (P e) then f e else d
    end.
Proof.
  rewrite filter_cons. destruct (decide (P e)); [|done].
  rewrite last_cons. by destruct (last (filter P es)).
Qed.

Lemma cell_of_edges_distinct w nodes edges i j u v :
  (∀ i j y y', nodes !! i = Some y → nodes !! j = Some y' →
               length_of w y = length_of w y' → i = j) →
  Forall (fun e => tail_of w e ∈ nodes ∧ head_of w e ∈ nodes) edges →
  nodes !! i = Some u → nodes !! j = Some v →
  ∀ acc, cell_of_edges w nodes edges i j acc
         = match last (filter (fun e => tail_of w e = u ∧ head_of w e = v) edges) with
           | Some e => Fin (weight_of w e)
           | None => acc
           end.
Proof.
  intros Hd Hall Hi Hj. induction edges as [|e es IH]; intros acc; [done|].
  apply Forall_cons in Hall as [[Ht Hh] Hall].
  rewrite (last_cons_filter _ e es acc (fun e => Fin (weight_of w e))).
  rewrite cell_of_edges_cons.
  apply list_elem_of_lookup in Ht as [r Hr]. apply list_elem_of_lookup in Hh as [c Hc].
  rewrite (node_index_distinct w nodes r _ Hd Hr), (node_index_distinct w nodes c _ Hd Hc).
  rewrite IH by done. destruct (last (filter _ es)); [done|].
  destruct (decide (tail_of w e = u ∧ head_of w e = v)) as [[Eu Ev]|Hne].
  - rewrite Eu in Hr. rewrite Ev in Hc.
    rewrite (Hd r i u u Hr Hi eq_refl), (Hd c j v v Hc Hj eq_refl).
    by rewrite !Nat.eqb_refl.
  - destruct (Nat.eqb_spec r i) as [->|?], (Nat.eqb_spec c j) as [->|?]; try done.
    destruct Hne. split; congruence.
Qed.

(** X17.  When the nodes of the graph have lengths that differ from one
    another and the edges of the graph join nodes of the graph, [to_matrix] returns the
    adjacency matrix: the entry at [(i, j)] is the weight of the last edge
    of the graph from the node at [i] to the node at [j], and infinite
    when there is none. *)
Theorem to_matrix_of_distinct_lengths graph w :
  NoDup (length_of w <$> Graph.nodes (graph_at w graph)) →
  Forall (fun e => tail_of w e ∈ Graph.nodes (graph_at w graph) ∧
                   head_of w e ∈ Graph.nodes (graph_at w graph))
         (Graph.edges (graph_at w graph)) →
  ∃ M, to_matrix graph w = Ok M ∧
    ∀ i j u v, Graph.nodes (graph_at w graph) !! i = Some u →
               Graph.nodes (graph_at w graph) !! j = Some v →
      matrix_get M i j
      = Some (last_weight w (filter (fun e => tail_of w e = u ∧ head_of w e = v)
                               (Graph.edges (graph_at w graph)))).
Proof.
  intros ND Hall.
  assert (∀ i j y y', Graph.nodes (graph_at w graph) !! i = Some y →
                      Graph.nodes (graph_at w graph) !! j = Some y' →
                      length_of w y = length_of w y' → i = j) as Hd.
  { intros i j y y' Hi Hj Hl.
    apply (NoDup_lookup _ i j (length_of w y) ND); rewrite list_lookup_fmap.
    - by rewrite Hi.
    - by rewrite Hj, Hl. }
  pose proof (to_matrix_run graph w) as Hr.
  destruct (to_matrix graph w) as [M|e].
  - destruct Hr as (_ & S & G). exists M. split; [done|]. intros i j u v Hi Hj.
    rewrite G by (by eapply lookup_lt_Some). f_equal.
    by apply cell_of_edges_distinct.
  - destruct Hr as [_ Hex]. apply Exists_exists in Hex as (e' & Hin & Hno).
    rewrite Forall_forall in Hall. destruct (Hall e' Hin) as [Ht Hh].
    assert (∀ x, x ∈ Graph.nodes (graph_at w graph) →
                 node_in w x (Graph.nodes (graph_at w graph)) = true) as Hin'.
    { intros x Hx. apply node_in_spec. exists x. auto. }
    rewrite (Hin' _ Ht), (Hin' _ Hh) in Hno. by destruct Hno.
Qed.

Lemma cell_of_edges_equal w s rest edges i j :
  Forall (fun e => length_of w (tail_of w e) = length_of w s ∧
                   length_of w (head_of w e) = length_of w s) edges →
  ∀ acc, cell_of_edges w (s :: rest) edges i j acc
         = if decide (i = 0%nat ∧ j = 0%nat)
           then match last edges with Some e => Fin (weight_of w e) | None => acc end
           else acc.
Proof.
  intros Hall. induction edges as [|e es IH]; intros acc; [by destruct (decide _)|].
  apply Forall_cons in Hall as [[Ht Hh] Hall].
  rewrite cell_of_edges_cons.
  rewrite !node_index_first by done. rewrite IH by done.
  destruct (decide (i = 0%nat ∧ j = 0%nat)) as [[-> ->]|Hne].
  - cbn [Nat.eqb andb]. rewrite last_cons. by destruct (last es).
  - destruct i, j; try done. by destruct Hne.
Qed.

(** X18.  [to_matrix] finds the row and the column of an edge with
    [nodes.index], which compares nodes by length.  When the tail and the
    head of every edge have the length of the first node of the graph, as
    on a graph whose nodes all have infinite length, every weight is
    written to row 0, column 0: that entry ends as the weight of the last
    edge of the graph and every other entry is infinite. *)
Theorem to_matrix_of_equal_lengths graph w s rest :
  Graph.nodes (graph_at w graph) = s :: rest →
  Forall (fun e => length_of w (tail_of w e) = length_of w s ∧
                   length_of w (head_of w e) = length_of w s)
         (Graph.edges (graph_at w graph)) →
  ∃ M, to_matrix graph w = Ok M ∧
    square (S (List.length rest)) M ∧
    ∀ i j, (i ≤ List.length rest)%nat → (j ≤ List.length rest)%nat →
      matrix_get M i j
      = Some (if decide (i = 0%nat ∧ j = 0%nat)
              then last_weight w (Graph.edges (graph_at w graph))
              else Inf).
Proof.
  intros Hn Hall. pose proof (to_matrix_run graph w) as Hr.
  assert (∀ x, length_of w x = length_of w s →
               node_in w x (Graph.nodes (graph_at w graph)) = true) as Hin.
  { intros x Hx. apply node_in_spec. exists s. rewrite Hn. split; [by left|by right]. }
  destruct (to_matrix graph w) as [M|e].
  - destruct Hr as (_ & S & G). rewrite Hn in S, G. exists M. split; [done|].
    split; [done|]. intros i j Hi Hj. rewrite G by (simpl; lia). f_equal.
    rewrite cell_of_edges_equal by done. unfold last_weight.
    destruct (decide _); [|done]. done.
  - destruct Hr as [_ Hex]. apply Exists_exists in Hex as (e' & Hin' & Hno).
    rewrite Forall_forall in Hall. destruct (Hall e' Hin') as [Ht Hh].
    rewrite (Hin _ Ht), (Hin _ Hh) in Hno. by destruct Hno.
Qed.

(** ** The conversions together, and with the shortest-path functions *)

Lemma matrix_entries_elem matrix r c z :
  square (List.length matrix) matrix →
  (r, c, z) ∈ matrix_entries matrix ↔ matrix_get matrix r c = Some (Fin z).
Proof.
  intros Hsq. unfold matrix_entries. rewrite list_elem_of_In, in_flat_map. split.
  - intros (row & Hrow & Hin). apply in_flat_map in Hin as (col & Hcol & Hin).
    unfold matrix_get. destruct (matrix !! row) as [rw|] eqn:Er; [|done].
    destruct (rw !! col) as [[z'|]|] eqn:Ec; try done.
    destruct Hin as [Heq|[]]. injection Heq as -> -> ->. by rewrite Er.
  - intros Hg.
    destruct (proj1 (matrix_get_lt _ matrix r c Hsq)) as [Hr Hc]; [by rewrite Hg|].
    exists r. split; [apply in_seq; lia|]. apply in_flat_map. exists c.
    split; [apply in_seq; lia|]. unfold matrix_get in Hg.
    destruct (matrix !! r); [|done]. rewrite Hg. by left.
Qed.

(** X19.  Writing a graph made by [matrix_to_graph] back with [to_matrix]
    does not give the matrix again: the nodes all have infinite length, so
    every edge is found at row 0 and column 0.  The result has the size of
    the matrix, its entry at [(0, 0)] is the last finite entry of the
    matrix in the order of rows and columns (infinite when there is none)
    and every other entry is infinite. *)
Theorem to_matrix_after_matrix_to_graph matrix w :
  square (List.length matrix) matrix →
  ∃ g w' M,
    matrix_to_graph matrix w = Ok (g, w') ∧
    to_matrix g w' = Ok M ∧
    square (List.length matrix) M ∧
    ∀ i j, (i < List.length matrix)%nat → (j < List.length matrix)%nat →
      matrix_get M i j
      = Some (if decide (i = 0%nat ∧ j = 0%nat)
              then match last (matrix_entries matrix) with
                   | Some en => Fin en.2
                   | None => Inf
                   end
              else Inf).
Proof.
  intros Hsq.
  destruct (matrix_to_graph_built matrix w Hsq)
    as (g & w' & E & _ & Hl & _ & _ & Hnodes & Hedges & _).
  exists g, w'.
  assert (∀ x, x ∈ Graph.nodes (graph_at w' g) → length_of w' x = Inf) as Hinf.
  { intros x Hx. apply list_elem_of_lookup in Hx as [i Hi].
    by destruct (Hnodes i x Hi) as (_ & _ & _ & ?). }
  assert (∀ e, e ∈ Graph.edges (graph_at w' g) →
               tail_of w' e ∈ Graph.nodes (graph_at w' g) ∧
               head_of w' e ∈ Graph.nodes (graph_at w' g)) as Hends.
  { intros e He. apply list_elem_of_lookup in He as [i Hi].
    destruct (Forall2_lookup_l _ _ _ _ _ Hedges Hi) as (en & _ & _ & _ & Ht & Hh & _).
    split; by eapply list_elem_of_lookup_2. }
  pose proof (to_matrix_run g w') as Hr.
  destruct (to_matrix g w') as [M|err].
  - destruct Hr as (_ & S & G). rewrite Hl in S, G. exists M.
    split; [done|]. split; [done|]. split; [done|]. intros i j Hi Hj.
    rewrite G by done. f_equal.
    destruct (Graph.nodes (graph_at w' g)) as [|s rest] eqn:En; [simpl in Hl; lia|].
    rewrite cell_of_edges_equal.
    + destruct (decide _); [|done].
      pose proof (Forall2_last _ _ _ Hedges) as Hlast.
      destruct Hlast as [e en (_ & _ & _ & _ & Hw)|]; [by rewrite Hw|done].
    + apply Forall_forall. intros e He. destruct (Hends e He) as [Ht Hh].
      rewrite (Hinf _ Ht), (Hinf _ Hh), (Hinf s); [done|by left].
  - destruct Hr as [_ Hex]. apply Exists_exists in Hex as (e & He & Hno).
    destruct (Hends e He) as [Ht Hh].
    assert (∀ x, x ∈ Graph.nodes (graph_at w' g) →
                 node_in w' x (Graph.nodes (graph_at w' g)) = true) as Hin.
    { intros x Hx. apply node_in_spec. exists x. auto. }
    rewrite (Hin _ Ht), (Hin _ Hh) in Hno. by destruct Hno.
Qed.


Lemma built_walk_matrix matrix w' g start :
  square (List.length matrix) matrix →
  NoDup (Graph.nodes (graph_at w' g)) →
  graph_wf w' g →
  Forall2 (fun e en =>
             Graph.nodes (graph_at w' g) !! en.1.1 = Some (tail_of w' e) ∧
             Graph.nodes (graph_at w' g) !! en.1.2 = Some (head_of w' e) ∧
             weight_of w' e = en.2)
          (Graph.edges (graph_at w' g)) (matrix_entries matrix) →
  Graph.nodes (graph_at w' g) !! 0%nat = Some start →
  ∀ j x, Graph.nodes (graph_at w' g) !! j = Some x →
  ∀ z, walk_weight w' start x z ↔ matrix_walk matrix 0 j z.
Proof.
  intros Hsq ND Wf Hedges Hs.
  assert (∀ x z, walk_weight w' start x z →
          ∃ j, Graph.nodes (graph_at w' g) !! j = Some x ∧ matrix_walk matrix 0 j z) as Hto.
  { intros x z Hw. induction Hw as [|u e z Hw IH He].
    - exists 0%nat. split; [done|constructor].
    - destruct IH as (i & Hi & Hm).
      destruct (graph_wf_outbound w' g u e Wf (list_elem_of_lookup_2 _ _ _ Hi) He)
        as (Hin & Ht & _).
      apply list_elem_of_lookup in Hin as [k Hk].
      destruct (Forall2_lookup_l _ _ _ _ _ Hedges Hk) as ([[r c] d] & Hen & H1 & H2 & H3).
      cbn [fst snd] in *. rewrite Ht in H1.
      rewrite (NoDup_lookup _ _ _ _ ND H1 Hi) in Hen.
      exists c. split; [done|]. rewrite H3. apply (matrix_walk_step _ _ i); [done|].
      apply matrix_entries_elem; [done|]. by eapply list_elem_of_lookup_2. }
  assert (∀ j z, matrix_walk matrix 0 j z →
          ∃ x, Graph.nodes (graph_at w' g) !! j = Some x ∧ walk_weight w' start x z) as Hfrom.
  { intros j z Hm. induction Hm as [|i j z d Hm IH Hg].
    - exists start. split; [done|constructor].
    - destruct IH as (u & Hi & Hw).
      apply matrix_entries_elem in Hg; [|done].
      apply list_elem_of_lookup in Hg as [k Hk].
      destruct (Forall2_lookup_r _ _ _ _ _ Hedges Hk) as (e & He & H1 & H2 & H3).
      cbn [fst snd] in *. exists (head_of w' e). split; [done|]. rewrite <- H3.
      rewrite Hi in H1. injection H1 as ->.
      apply (walk_weight_edge w' start (tail_of w' e)); [done|].
      destruct Wf as [We _]. rewrite Forall_forall in We.
      by destruct (We e (list_elem_of_lookup_2 _ _ _ He)) as (_ & _ & ?). }
  intros j x Hj z. split.
  - intros Hw. destruct (Hto x z Hw) as (j' & Hj' & Hm).
    by rewrite (NoDup_lookup _ _ _ _ ND Hj Hj').
  - intros Hm. destruct (Hfrom j z Hm) as (x' & Hx' & Hw). congruence.
Qed.

(** X21.  On the graph that [matrix_to_graph] makes of a square matrix
    of integers and [inf], with at least one row and no negative entry,
    the simple variant from the first node computes the distances in the
    matrix: the length of the node at position [j] ends as the least sum
    of finite entries along a walk from row 0 to row [j], and stays
    infinite exactly when there is no such walk. *)
Theorem simple_shortest_path_after_matrix_to_graph matrix w :
  closed w → square (List.length matrix) matrix → matrix ≠ [] →
  Forall (fun en => 0 ≤ en.2) (matrix_entries matrix) →
  ∃ g w' start,
    matrix_to_graph matrix w = Ok (g, w') ∧
    Graph.nodes (graph_at w' g) !! 0%nat = Some start ∧
    ∀ fuel, (simple_fuel w' ≤ fuel)%nat →
      ∃ ws,
        simple_shortest_path fuel g start w' = Some (Ok ws) ∧
        ∀ j x, Graph.nodes (graph_at w' g) !! j = Some x →
          match length_of ws x with
          | Fin z => matrix_walk matrix 0 j z ∧ ∀ z', matrix_walk matrix 0 j z' → z ≤ z'
          | Inf => ∀ z', ¬ matrix_walk matrix 0 j z'
          end.
Proof.
  intros C Hsq Hne Hnn.
  destruct (matrix_to_graph_built matrix w Hsq)
    as (g & w' & E & _ & Hl & ND & _ & _ & Hedges & Wf & Cl & _).
  destruct (lookup_lt_is_Some_2 (Graph.nodes (graph_at w' g)) 0) as [start Hs].
  { rewrite Hl. destruct matrix; [done|simpl; lia]. }
  exists g, w', start. split; [done|]. split; [done|]. intros fuel Hf.
  destruct (simple_run_distances fuel g start w' (Cl C) Wf
              (matrix_to_graph_nonneg matrix w g w' Hedges Hnn)
              (list_elem_of_lookup_2 _ _ _ Hs) Hf) as (ws & Es & Hd).
  exists ws. split; [done|]. intros j x Hj.
  assert (∀ z, walk_weight w' start x z ↔ matrix_walk matrix 0 j z) as Hiff.
  { apply (built_walk_matrix matrix w' g start); try done.
    eapply Forall2_impl; [exact Hedges|]. intros e en (_ & _ & ? & ? & ?). done. }
  specialize (Hd x (list_elem_of_lookup_2 _ _ _ Hj)).
  destruct (length_of ws x) as [z|].
  - destruct Hd as [Hw Hmin]. split; [by apply Hiff|].
    intros z' Hm. apply Hmin. by apply Hiff.
  - intros z' Hm. apply (Hd z'). by apply Hiff.
Qed.

(** ** [Graph.add_node] and [Graph.add_edge] *)

Lemma add_edge_graph_at graph e w :
  is_Some (graph_tbl w !! graph) →
  graph_at (add_edge graph e w) graph
  = Graph.mk (Graph.nodes (graph_at w graph)) (Graph.edges (graph_at w graph) ++ [e]).
Proof.
  intros [gr Hg]. unfold graph_at, add_edge. simpl. rewrite lookup_alter_eq, Hg. done.
Qed.

Lemma add_node_graph_at graph x w :
  is_Some (graph_tbl w !! graph) →
  graph_at (add_node graph x w) graph
  = Graph.mk (Graph.nodes (graph_at w graph) ++ [x]) (Graph.edges (graph_at w graph)).
Proof.
  intros [gr Hg]. unfold graph_at, add_node. simpl. rewrite lookup_alter_eq, Hg. done.
Qed.

Lemma closed_graph w graph :
  closed w →
  Forall (node_exists w) (Graph.nodes (graph_at w graph)) ∧
  Forall (edge_exists w) (Graph.edges (graph_at w graph)).
Proof.
  intros (_ & _ & Cg). unfold graph_at.
  destruct (graph_tbl w !! graph) as [gr|] eqn:E; [|by split; constructor].
  exact (Cg graph gr E).
Qed.

Lemma with_graphs_closed m w :
  closed w →
  (∀ g gr, m !! g = Some gr →
     Forall (node_exists w) (Graph.nodes gr) ∧ Forall (edge_exists w) (Graph.edges gr)) →
  closed (with_graphs m w).
Proof.
  intros C Hm. apply (closed_extend w); try done; simpl.
  - intros n nd' Hl. left. exists nd'. split; [done|]. split; apply Forall_forall; auto.
  - auto.
  - intros g gr Hl. right. exact (Hm g gr Hl).
Qed.

(** X22.  A new edge [Edge(tail, head, weight)] between nodes of a graph
    is in its tail's adjacency list but not among the graph's edges, so
    the graph is not as the shortest-path functions expect until
    [add_edge] is called with it; after that call the edge is the last of
    the graph's edges, the nodes are as before, and the graph is as
    expected again. *)
Theorem add_edge_after_Edge_init graph tl hd z w :
  closed w → graph_wf w graph → is_Some (graph_tbl w !! graph) →
  tl ∈ Graph.nodes (graph_at w graph) → hd ∈ Graph.nodes (graph_at w graph) →
  ∃ e w1,
    Edge_init tl hd z w = (e, w1) ∧
    ¬ edge_exists w e ∧
    ¬ graph_wf w1 graph ∧
    Graph.nodes (graph_at (add_edge graph e w1) graph) = Graph.nodes (graph_at w graph) ∧
    Graph.edges (graph_at (add_edge graph e w1) graph)
      = Graph.edges (graph_at w graph) ++ [e] ∧
    closed (add_edge graph e w1) ∧
    graph_wf (add_edge graph e w1) graph.
Proof.
  intros C Wf Hg Htl Hhd.
  destruct (closed_graph w graph C) as [Cn Ce]. rewrite Forall_forall in Cn, Ce.
  pose proof (Cn tl Htl) as Etl. pose proof (Cn hd Hhd) as Ehd.
  exists (fst (Edge_init tl hd z w)), (snd (Edge_init tl hd z w)).
  set (e := fst (Edge_init tl hd z w)). set (w1 := snd (Edge_init tl hd z w)).
  assert (¬ edge_exists w e) as Hfresh.
  { unfold edge_exists, e. rewrite Edge_init_fresh. by intros []. }
  assert (graph_at w1 graph = graph_at w graph) as Hgr by done.
  assert (e ∉ Graph.edges (graph_at w graph)) as Hnot.
  { intros Hin. by apply Hfresh, Ce. }
  assert (∀ e', edge_exists w e' → edge_at w1 e' = edge_at w e') as Hold.
  { intros e' He'. unfold edge_at, w1. by rewrite Edge_init_edge_old. }
  assert (edge_at w1 e = Edge.mk tl hd z) as Hnew by apply Edge_init_edge_new.
  assert (∀ x, outbound_of w1 x
               = if decide (x = tl) then outbound_of w x ++ [e] else outbound_of w x) as Hout.
  { intros x. by apply Edge_init_outbound. }
  assert (closed w1) as C1 by (by apply Edge_init_closed).
  split; [done|]. split; [done|]. split.
  { intros [_ Wn]. rewrite Hgr in Wn. rewrite Forall_forall in Wn.
    specialize (Wn tl Htl). rewrite Forall_forall in Wn.
    destruct (Wn e) as [Hin _]; [|done].
    rewrite Hout, decide_True by done. apply elem_of_app. right.
    by apply list_elem_of_singleton. }
  assert (is_Some (graph_tbl w1 !! graph)) as Hg1 by done.
  rewrite (add_edge_graph_at graph e w1 Hg1), Hgr. cbn [Graph.nodes Graph.edges].
  split; [done|]. split; [done|]. split.
  { apply with_graphs_closed; [done|]. intros g gr Hl.
    apply lookup_alter_Some in Hl as [(<- & gr0 & Hl & ->)|[_ Hl]].
    - destruct C1 as (_ & _ & Cg). destruct (Cg graph gr0 Hl) as [Hn He].
      split; [done|]. cbn [Graph.edges]. apply Forall_app. split; [done|].
      constructor; [|constructor]. unfold edge_exists, w1, e.
      rewrite Edge_init_edge_tbl, lookup_insert_eq. eauto.
    - destruct C1 as (_ & _ & Cg). exact (Cg g gr Hl). }
  unfold graph_wf. rewrite (add_edge_graph_at graph e w1 Hg1), Hgr.
  cbn [Graph.nodes Graph.edges].
  change (Forall (fun e' => tail_of w1 e' ∈ Graph.nodes (graph_at w graph) ∧
                            head_of w1 e' ∈ Graph.nodes (graph_at w graph) ∧
                            e' ∈ outbound_of w1 (tail_of w1 e'))
                 (Graph.edges (graph_at w graph) ++ [e]) ∧
          Forall (fun n => Forall (fun e' => e' ∈ Graph.edges (graph_at w graph) ++ [e] ∧
                                             tail_of w1 e' = n) (outbound_of w1 n))
                 (Graph.nodes (graph_at w graph))).
  destruct Wf as [We Wn]. rewrite Forall_forall in We, Wn. split.
  - apply Forall_app. split.
    + apply Forall_forall. intros e' He'. destruct (We e' He') as (H1 & H2 & H3).
      unfold tail_of, head_of. rewrite Hold by (by apply Ce).
      split; [done|]. split; [done|]. fold (tail_of w e'). rewrite Hout.
      destruct (decide _); [apply elem_of_app; by left|done].
    + constructor; [|constructor]. unfold tail_of, head_of. rewrite Hnew.
      cbn [Edge.tail Edge.head]. split; [done|]. split; [done|].
      rewrite Hout, decide_True by done. apply elem_of_app. right.
      by apply list_elem_of_singleton.
  - apply Forall_forall. intros x Hx. apply Forall_forall. intros e' He'.
    specialize (Wn x Hx). rewrite Forall_forall in Wn.
    assert (e' ∈ outbound_of w x →
            e' ∈ Graph.edges (graph_at w graph) ++ [e] ∧ tail_of w1 e' = x) as Hcase.
    { intros Hin. destruct (Wn e' Hin) as [Hi Ht]. split; [apply elem_of_app; by left|].
      unfold tail_of. rewrite Hold by (by apply Ce). done. }
    rewrite Hout in He'. destruct (decide (x = tl)) as [->|Hne]; [|by apply Hcase].
    apply elem_of_app in He' as [He'|He']; [by apply Hcase|].
    apply list_elem_of_singleton in He' as ->. split.
    + apply elem_of_app. right. by apply list_elem_of_singleton.
    + unfold tail_of. by rewrite Hnew.
Qed.

(** X23.  [add_node] with a new node [Node(data, length)] appends it to the
    graph's nodes: the node was not among them, the edges are as before,
    every reference of the store still exists and the graph is still as
    the shortest-path functions expect. *)
Theorem add_node_after_Node_init graph d len w :
  closed w → graph_wf w graph → is_Some (graph_tbl w !! graph) →
  ∃ x w1,
    Node_init d len w = (x, w1) ∧
    (x ∉ Graph.nodes (graph_at w graph)) ∧
    Graph.nodes (graph_at (add_node graph x w1) graph)
      = Graph.nodes (graph_at w graph) ++ [x] ∧
    Graph.edges (graph_at (add_node graph x w1) graph) = Graph.edges (graph_at w graph) ∧
    length_of (add_node graph x w1) x = len ∧
    closed (add_node graph x w1) ∧
    graph_wf (add_node graph x w1) graph.
Proof.
  intros C Wf Hg.
  destruct (closed_graph w graph C) as [Cn Ce]. rewrite Forall_forall in Cn, Ce.
  exists (fst (Node_init d len w)), (snd (Node_init d len w)).
  set (x := fst (Node_init d len w)). set (w1 := snd (Node_init d len w)).
  assert (node_tbl w !! x = None) as Hfresh.
  { apply not_elem_of_dom. apply is_fresh. }
  assert (x ∉ Graph.nodes (graph_at w graph)) as Hnot.
  { intros Hin. destruct (Cn x Hin) as [nd Hnd]. congruence. }
  assert (graph_at w1 graph = graph_at w graph) as Hgr by done.
  assert (∀ e, edge_at w1 e = edge_at w e) as Hedge by done.
  assert (node_tbl w1 !! x = Some (Node.mk d [] [] len)) as Hx.
  { unfold w1, x. simpl. by rewrite lookup_insert_eq. }
  assert (∀ y, y ≠ x → node_at w1 y = node_at w y) as Hnode.
  { intros y Hy. unfold node_at, w1. simpl. rewrite lookup_insert_ne; [done|].
    intros Heq. apply Hy. by rewrite <- Heq. }
  assert (closed w1) as C1 by apply (Node_init_closed d len w C).
  assert (is_Some (graph_tbl w1 !! graph)) as Hg1 by done.
  split; [done|]. split; [done|].
  rewrite (add_node_graph_at graph x w1 Hg1), Hgr. cbn [Graph.nodes Graph.edges].
  split; [done|]. split; [done|]. split.
  { change (length_of w1 x = len). unfold length_of, node_at. by rewrite Hx. }
  split.
  { apply with_graphs_closed; [done|]. intros g gr Hl.
    apply lookup_alter_Some in Hl as [(<- & gr0 & Hl & ->)|[_ Hl]].
    - destruct C1 as (_ & _ & Cg). destruct (Cg graph gr0 Hl) as [Hn He].
      split; [|done]. cbn [Graph.nodes]. apply Forall_app. split; [done|].
      constructor; [|constructor]. unfold node_exists. rewrite Hx. eauto.
    - destruct C1 as (_ & _ & Cg). exact (Cg g gr Hl). }
  unfold graph_wf. rewrite (add_node_graph_at graph x w1 Hg1), Hgr.
  cbn [Graph.nodes Graph.edges].
  change (Forall (fun e => tail_of w e ∈ Graph.nodes (graph_at w graph) ++ [x] ∧
                           head_of w e ∈ Graph.nodes (graph_at w graph) ++ [x] ∧
                           e ∈ outbound_of w1 (tail_of w e))
                 (Graph.edges (graph_at w graph)) ∧
          Forall (fun n => Forall (fun e => e ∈ Graph.edges (graph_at w graph) ∧
                                            tail_of w e = n) (outbound_of w1 n))
                 (Graph.nodes (graph_at w graph) ++ [x])).
  destruct Wf as [We Wn]. rewrite Forall_forall in We, Wn. split.
  - apply Forall_forall. intros e He. destruct (We e He) as (H1 & H2 & H3).
    split; [apply elem_of_app; by left|]. split; [apply elem_of_app; by left|].
    unfold outbound_of. rewrite Hnode; [done|]. intros Heq. apply Hnot. by rewrite <- Heq.
  - apply Forall_app. split.
    + apply Forall_forall. intros y Hy. unfold outbound_of. rewrite Hnode; [by apply Wn|].
      intros ->. done.
    + constructor; [|constructor]. unfold outbound_of, node_at. rewrite Hx. constructor.
Qed.

End MatrixProofs.


(** * The claims on concrete graphs *)

Ltac by_eval := apply (bool_decide_eq_true_1 _); vm_compute; reflexivity.

(** C1 (a defect of the code).  On [A -> B (0)], [B -> C (5)] from [A], a
    graph that meets every precondition, the simple variant leaves
    [0, 0, 5] and the heap variant [0, 0, inf]: the zero-weight edge gives
    [B] the length of the visited node [A], the membership test of the
    heap variant takes [B] for visited, and [B] is never pushed.  With
    positive weights only, [stale_heap_graph], the two variants differ as
    well ([Z] is 5 and 6): a length lowered while its node sits in the
    heap breaks the heap order. *)
Theorem simple_and_heap_lengths_differ :
  (let x := zero_edge_graph in
   closed (world_of x) ∧ graph_wf (world_of x) (graph_of x) ∧
   nonneg_weights (world_of x) (graph_of x) ∧
   start_of x ∈ Graph.nodes (graph_at (world_of x) (graph_of x)) ∧
   lengths_after (simple_shortest_path (simple_fuel (world_of x)) (graph_of x)
                    (start_of x) (world_of x)) (nodes_of x)
     = Some [Fin 0; Fin 0; Fin 5] ∧
   lengths_after (heap_shortest_path (heap_fuel (world_of x)) (graph_of x)
                    (start_of x) (world_of x)) (nodes_of x)
     = Some [Fin 0; Fin 0; Inf]) ∧
  (let x := stale_heap_graph in
   closed (world_of x) ∧ graph_wf (world_of x) (graph_of x) ∧
   Forall (fun e => 0 < weight_of (world_of x) e)
          (Graph.edges (graph_at (world_of x) (graph_of x))) ∧
   start_of x ∈ Graph.nodes (graph_at (world_of x) (graph_of x)) ∧
   lengths_after (simple_shortest_path (simple_fuel (world_of x)) (graph_of x)
                    (start_of x) (world_of x)) (nodes_of x)
     = Some [Fin 0; Fin 4; Fin 6; Fin 7; Fin 2; Fin 1; Fin 3; Fin 5] ∧
   lengths_after (heap_shortest_path (heap_fuel (world_of x)) (graph_of x)
                    (start_of x) (world_of x)) (nodes_of x)
     = Some [Fin 0; Fin 4; Fin 6; Fin 7; Fin 2; Fin 1; Fin 3; Fin 6]).
Proof.
  split; cbv zeta;
    (split; [by_eval|]); (split; [by_eval|]); (split; [by_eval|]); (split; [by_eval|]);
    split; vm_compute; reflexivity.
Qed.

(** C2 (a defect of the code).  After the heap variant ran on
    [A -> B (0)], [B -> C (5)] from [A], the edge from [B] to [C] has a
    reachable tail, of length 0, and a head of length [inf], above
    [0 + 5]; the simple variant relaxes every edge of that graph.  On
    [stale_heap_graph] the heap variant leaves [P] at 4 and [Z] at 6 over
    the edge [P -> Z (1)]. *)
Theorem heap_run_leaves_edge_unrelaxed :
  (let x := zero_edge_graph in
   match heap_shortest_path (heap_fuel (world_of x)) (graph_of x) (start_of x) (world_of x),
         simple_shortest_path (simple_fuel (world_of x)) (graph_of x) (start_of x) (world_of x)
   with
   | Some (Ok wh), Some (Ok ws) =>
       Graph.edges (graph_at wh (graph_of x)) = [0; 1]%nat ∧
       (tail_of wh 1, head_of wh 1, weight_of wh 1) = (1%nat, 2%nat, 5) ∧
       length_of wh 1 = Fin 0 ∧ length_of wh 2 = Inf ∧
       edge_relaxed wh 1 = false ∧
       forallb (edge_relaxed ws) (Graph.edges (graph_at ws (graph_of x))) = true
   | _, _ => False
   end) ∧
  (let x := stale_heap_graph in
   match heap_shortest_path (heap_fuel (world_of x)) (graph_of x) (start_of x) (world_of x),
         simple_shortest_path (simple_fuel (world_of x)) (graph_of x) (start_of x) (world_of x)
   with
   | Some (Ok wh), Some (Ok ws) =>
       (tail_of wh 8, head_of wh 8, weight_of wh 8) = (1%nat, 7%nat, 1) ∧
       length_of wh 1 = Fin 4 ∧ length_of wh 7 = Fin 6 ∧
       edge_relaxed wh 8 = false ∧
       forallb (edge_relaxed ws) (Graph.edges (graph_at ws (graph_of x))) = true
   | _, _ => False
   end).
Proof. vm_compute. repeat split; reflexivity. Qed.

(** C3 (a defect of the code).  A head that was just relaxed is not
    always pushed.  On [A -> B (0)], [B -> C (5)] from [A], a graph that
    meets every precondition, the first iteration pops [A], marks it
    visited and processes [A -> B (0)]: 0 + 0 is strictly less than the
    length [inf] of [B], and [B] gets length 0; [B] was never visited, but
    the membership test compares lengths, takes [B] for the visited [A],
    and [B] is not pushed: the heap is the popped heap, the empty one.
    With positive weights only, in the run on [stale_heap_graph], the
    sixth iteration pops [Y] (length 3), marks it visited and processes
    [Y -> P (1)]: 3 + 1 is strictly less than the length 5 of [P], and [P]
    gets length 4, but [P] is not pushed: the stale heap entry had it
    popped and visited before [Y]. *)
Theorem relaxed_head_is_not_pushed :
  (let x := zero_edge_graph in
   closed (world_of x) ∧ graph_wf (world_of x) (graph_of x) ∧
   nonneg_weights (world_of x) (graph_of x) ∧
   start_of x ∈ Graph.nodes (graph_at (world_of x) (graph_of x)) ∧
   match heap_start (graph_of x) (start_of x) (world_of x) with
   | (w, visited, heap) =>
       match heappop (Node_lt w) heap with
       | Ok (current, heap1) =>
           visited = [] ∧ current = 0%nat ∧ heap1 = [] ∧
           outbound_of w current = [0%nat] ∧ head_of w 0 = 1%nat ∧
           length_of w current = Fin 0 ∧ weight_of w 0 = 0 ∧ length_of w 1 = Inf ∧
           num_ltb (num_add (length_of w current) (weight_of w 0)) (length_of w 1) = true ∧
           id_in 1 (visited ++ [current]) = false ∧
           match relax_edge (visited ++ [current]) current 0 (w, heap1),
                 heap_iter (w, visited, heap) with
           | Ok (w', heap'), Ok (w'', visited'', heap'') =>
               length_of w' 1 = Fin 0 ∧
               node_in w' 1 (visited ++ [current]) = true ∧
               heap' = heap1 ∧
               heap' ≠ heappush (Node_lt w') heap1 1 ∧
               length_of w'' 1 = Fin 0 ∧ visited'' = visited ++ [current] ∧
               heap'' = heap1
           | _, _ => False
           end
       | Err _ => False
       end
   end) ∧
  (let x := stale_heap_graph in
   closed (world_of x) ∧ graph_wf (world_of x) (graph_of x) ∧
   Forall (fun e => 0 < weight_of (world_of x) e)
          (Graph.edges (graph_at (world_of x) (graph_of x))) ∧
   start_of x ∈ Graph.nodes (graph_at (world_of x) (graph_of x)) ∧
   match heap_iters 5 (heap_start (graph_of x) (start_of x) (world_of x)) with
   | Ok (w, visited, heap) =>
       match heappop (Node_lt w) heap with
       | Ok (current, heap1) =>
           current = 6%nat ∧ id_in current visited = false ∧
           outbound_of w current = [7%nat] ∧ head_of w 7 = 1%nat ∧
           length_of w current = Fin 3 ∧ weight_of w 7 = 1 ∧ length_of w 1 = Fin 5 ∧
           num_ltb (num_add (length_of w current) (weight_of w 7)) (length_of w 1) = true ∧
           id_in 1 visited = true ∧
           match relax_edge (visited ++ [current]) current 7 (w, heap1),
                 heap_iter (w, visited, heap) with
           | Ok (w', heap'), Ok (w'', visited'', heap'') =>
               length_of w' 1 = Fin 4 ∧ heap' = heap1 ∧
               heap' ≠ heappush (Node_lt w') heap1 1 ∧
               length_of w'' 1 = Fin 4 ∧ visited'' = visited ++ [current] ∧
               heap'' = heap1
           | _, _ => False
           end
       | Err _ => False
       end
   | Err _ => False
   end).
Proof.
  split; cbv zeta;
    (split; [by_eval|]); (split; [by_eval|]); (split; [by_eval|]); (split; [by_eval|]);
    vm_compute; repeat split; try reflexivity; discriminate.
Qed.



(** C5, refuted as stated.  [add_heap_op(0)] raises: [math.log2(0)] is a
    ValueError, and the operation itself does not clamp its argument. *)
Lemma add_heap_op_zero_raises :
  add_heap_op 0 empty_world = Err ValueError.
Proof. reflexivity. Qed.

Lemma add_heap_op_adds_log2_witness :
  (∃ w',
     add_heap_op 3 empty_world = Ok w' ∧
     heap_ops (tracker w') =
       f_add (heap_ops (tracker empty_world)) (f_add (f_log2 3) (f_of_Z 1)) ∧
     simple_ops (tracker w') = simple_ops (tracker empty_world) ∧
     same_store empty_world w') ∧
  (∀ len : nat, ∃ w',
     add_heap_op (Z.max 1 (Z.of_nat len)) empty_world = Ok w' ∧
     heap_ops (tracker w') =
       f_add (heap_ops (tracker empty_world))
             (f_add (f_log2 (Z.max (Z.of_nat len) 1)) (f_of_Z 1))).
Proof. apply (add_heap_op_adds_log2 3 empty_world). lia. Defined.

Lemma unreachable_nodes_keep_inf_witness :
  let x := scenario_c in
  let w := world_of x in
  ∃ ws wh,
    simple_shortest_path (simple_fuel w) (graph_of x) (start_of x) w = Some (Ok ws) ∧
    heap_shortest_path (heap_fuel w) (graph_of x) (start_of x) w = Some (Ok wh) ∧
    (∀ n, n ∈ Graph.nodes (graph_at w (graph_of x)) → ¬ walk w (start_of x) n →
          length_of ws n = Inf ∧ length_of wh n = Inf) ∧
    (graph_wf w (graph_of x) → start_of x ∈ Graph.nodes (graph_at w (graph_of x)) →
     ∀ n, n ∈ Graph.nodes (graph_at w (graph_of x)) → ¬ path w (graph_of x) (start_of x) n →
          length_of ws n = Inf ∧ length_of wh n = Inf).
Proof.
  intros x w.
  apply (unreachable_nodes_keep_inf _ _ (graph_of x) (start_of x) w);
    [by_eval | by_eval | lia | lia].
Defined.

Lemma start_length_is_zero_witness :
  let x := scenario_a in
  let w := world_of x in
  ∃ ws wh,
    simple_shortest_path (simple_fuel w) (graph_of x) (start_of x) w = Some (Ok ws) ∧
    heap_shortest_path (heap_fuel w) (graph_of x) (start_of x) w = Some (Ok wh) ∧
    length_of ws (start_of x) = Fin 0 ∧ length_of wh (start_of x) = Fin 0.
Proof.
  intros x w.
  apply (start_length_is_zero _ _ (graph_of x) (start_of x) w);
    [by_eval | by_eval | by_eval | by_eval | lia | lia].
Defined.

Lemma shortest_paths_change_lengths_only_witness :
  let x := scenario_a in
  let w := world_of x in
  ∃ ws wh,
    simple_shortest_path (simple_fuel w) (graph_of x) (start_of x) w = Some (Ok ws) ∧
    heap_shortest_path (heap_fuel w) (graph_of x) (start_of x) w = Some (Ok wh) ∧
    frame w ws ∧ frame w wh.
Proof.
  intros x w.
  apply (shortest_paths_change_lengths_only _ _ (graph_of x) (start_of x) w);
    [by_eval | by_eval | lia | lia].
Defined.

(** Scenario A of the specification: both variants give 0, 1 and 2. *)
Example scenario_a_lengths :
  let x := scenario_a in
  lengths_after (simple_shortest_path (simple_fuel (world_of x)) (graph_of x)
                   (start_of x) (world_of x)) (nodes_of x)
    = Some [Fin 0; Fin 1; Fin 2] ∧
  lengths_after (heap_shortest_path (heap_fuel (world_of x)) (graph_of x)
                   (start_of x) (world_of x)) (nodes_of x)
    = Some [Fin 0; Fin 1; Fin 2].
Proof. vm_compute. split; reflexivity. Qed.

(** On scenario A the simple variant relaxes every edge. *)
Example scenario_a_simple_edges_relaxed :
  let x := scenario_a in
  let w := world_of x in
  ∃ ws,
    simple_shortest_path (simple_fuel w) (graph_of x) (start_of x) w = Some (Ok ws) ∧
    ∀ e, e ∈ Graph.edges (graph_at w (graph_of x)) →
         length_of ws (tail_of ws e) ≠ Inf → edge_relaxed ws e = true.
Proof.
  intros x w.
  apply (simple_run_relaxes_every_edge _ (graph_of x) (start_of x) w);
    [by_eval | by_eval | by_eval | by_eval | lia].
Qed.

(** Scenario C of the specification: the second node keeps [math.inf]. *)
Example scenario_c_lengths :
  let x := scenario_c in
  lengths_after (simple_shortest_path (simple_fuel (world_of x)) (graph_of x)
                   (start_of x) (world_of x)) (nodes_of x)
    = Some [Fin 0; Inf] ∧
  lengths_after (heap_shortest_path (heap_fuel (world_of x)) (graph_of x)
                   (start_of x) (world_of x)) (nodes_of x)
    = Some [Fin 0; Inf].
Proof. vm_compute. split; reflexivity. Qed.

(** * The further properties on concrete graphs *)


Lemma counters_do_not_influence_runs_witness :
  let x := scenario_a in
  let w1 := world_of x in
  let w2 := with_tracker (mkOps 41 (FLog2 7)) w1 in
  ∃ s1 s2 h1 h2,
    simple_shortest_path (simple_fuel w1) (graph_of x) (start_of x) w1 = Some (Ok s1) ∧
    simple_shortest_path (simple_fuel w1) (graph_of x) (start_of x) w2 = Some (Ok s2) ∧
    heap_shortest_path (heap_fuel w1) (graph_of x) (start_of x) w1 = Some (Ok h1) ∧
    heap_shortest_path (heap_fuel w1) (graph_of x) (start_of x) w2 = Some (Ok h2) ∧
    same_store s1 s2 ∧ same_store h1 h2.
Proof.
  intros x w1 w2.
  apply (counters_do_not_influence_runs _ _ (graph_of x) (start_of x) w1 w2);
    [by_eval | by_eval | lia | lia | split; [reflexivity | split; reflexivity]].
Defined.

Lemma stale_lengths_do_not_influence_runs_witness :
  let x := scenario_a in
  let w1 := world_of x in
  let w2 := set_length (start_of x) (Fin 9) w1 in
  ∃ s1 s2 h1 h2,
    simple_shortest_path (simple_fuel w1) (graph_of x) (start_of x) w1 = Some (Ok s1) ∧
    simple_shortest_path (simple_fuel w1) (graph_of x) (start_of x) w2 = Some (Ok s2) ∧
    heap_shortest_path (heap_fuel w1) (graph_of x) (start_of x) w1 = Some (Ok h1) ∧
    heap_shortest_path (heap_fuel w1) (graph_of x) (start_of x) w2 = Some (Ok h2) ∧
    same_store s1 s2 ∧ same_store h1 h2.
Proof.
  intros x w1 w2.
  apply (stale_lengths_do_not_influence_runs _ _ (graph_of x) (start_of x) w1 w2);
    [by_eval | by_eval | lia | lia | apply frame_set_length |].
  intros n _ Hn. by apply length_set_length_ne.
Defined.

Lemma lengths_are_weights_of_walks_witness :
  let x := scenario_a in
  let w := world_of x in
  ∃ ws wh,
    simple_shortest_path (simple_fuel w) (graph_of x) (start_of x) w = Some (Ok ws) ∧
    heap_shortest_path (heap_fuel w) (graph_of x) (start_of x) w = Some (Ok wh) ∧
    ∀ n z, n ∈ Graph.nodes (graph_at w (graph_of x)) →
      (length_of ws n = Fin z → walk_weight w (start_of x) n z) ∧
      (length_of wh n = Fin z → walk_weight w (start_of x) n z).
Proof.
  intros x w.
  apply (lengths_are_weights_of_walks _ _ (graph_of x) (start_of x) w);
    [by_eval | by_eval | by_eval | lia | lia].
Defined.


Lemma simple_shortest_path_computes_distances_witness :
  let x := stale_heap_graph in
  let w := world_of x in
  ∃ ws,
    simple_shortest_path (simple_fuel w) (graph_of x) (start_of x) w = Some (Ok ws) ∧
    ∀ n, n ∈ Graph.nodes (graph_at w (graph_of x)) →
      match length_of ws n with
      | Fin z => walk_weight w (start_of x) n z
                 ∧ ∀ z', walk_weight w (start_of x) n z' → z ≤ z'
      | Inf => ∀ z', ¬ walk_weight w (start_of x) n z'
      end.
Proof.
  intros x w.
  apply (simple_shortest_path_computes_distances _ (graph_of x) (start_of x) w);
    [by_eval | by_eval | by_eval | by_eval | lia].
Defined.

Lemma second_run_as_on_fresh_store_witness :
  let x := stale_heap_graph in
  let w := world_of x in
  let fs := simple_fuel w in
  let fh := heap_fuel w in
  ∃ ws wh wss wsh whs whh,
    simple_shortest_path fs (graph_of x) (start_of x) w = Some (Ok ws) ∧
    heap_shortest_path fh (graph_of x) (start_of x) w = Some (Ok wh) ∧
    simple_shortest_path fs (graph_of x) (start_of x) ws = Some (Ok wss) ∧
    heap_shortest_path fh (graph_of x) (start_of x) ws = Some (Ok wsh) ∧
    simple_shortest_path fs (graph_of x) (start_of x) wh = Some (Ok whs) ∧
    heap_shortest_path fh (graph_of x) (start_of x) wh = Some (Ok whh) ∧
    same_store ws wss ∧ same_store wh wsh ∧ same_store ws whs ∧ same_store wh whh.
Proof.
  intros x w fs fh.
  apply (second_run_as_on_fresh_store _ _ (graph_of x) (start_of x) w);
    [by_eval | by_eval | by_eval | unfold fs; lia | unfold fh; lia].
Defined.


Lemma heap_lengths_not_below_simple_witness :
  let x := stale_heap_graph in
  let w := world_of x in
  ∃ ws wh,
    simple_shortest_path (simple_fuel w) (graph_of x) (start_of x) w = Some (Ok ws) ∧
    heap_shortest_path (heap_fuel w) (graph_of x) (start_of x) w = Some (Ok wh) ∧
    ∀ n, num_le (length_of ws n) (length_of wh n).
Proof.
  intros x w.
  apply (heap_lengths_not_below_simple _ _ (graph_of x) (start_of x) w);
    [by_eval | by_eval | by_eval | by_eval | lia | lia].
Defined.

Lemma matrix_to_graph_nodes_and_edges_witness :
  let matrix := scenario_a_matrix in
  let w := empty_world in
  ∃ g w',
    matrix_to_graph matrix w = Ok (g, w') ∧
    graph_tbl w !! g = None ∧
    List.length (Graph.nodes (graph_at w' g)) = List.length matrix ∧
    NoDup (Graph.nodes (graph_at w' g)) ∧
    NoDup (Graph.edges (graph_at w' g)) ∧
    (∀ i x, Graph.nodes (graph_at w' g) !! i = Some x →
       ¬ node_exists w x ∧ node_exists w' x ∧
       Node.data (node_at w' x) = PyInt (Z.of_nat i) ∧ length_of w' x = Inf) ∧
    Forall2 (fun e en =>
               ¬ edge_exists w e ∧ edge_exists w' e ∧
               Graph.nodes (graph_at w' g) !! en.1.1 = Some (tail_of w' e) ∧
               Graph.nodes (graph_at w' g) !! en.1.2 = Some (head_of w' e) ∧
               weight_of w' e = en.2)
            (Graph.edges (graph_at w' g)) (matrix_entries matrix).
Proof.
  intros matrix w.
  apply (matrix_to_graph_nodes_and_edges matrix w); by_eval.
Defined.

Lemma matrix_to_graph_well_formed_witness :
  let matrix := scenario_a_matrix in
  let w := empty_world in
  ∃ g w',
    matrix_to_graph matrix w = Ok (g, w') ∧
    closed w' ∧ graph_wf w' g ∧
    (Forall (fun en => 0 ≤ en.2) (matrix_entries matrix) → nonneg_weights w' g) ∧
    tracker w' = tracker w ∧
    (∀ x, node_exists w x → node_tbl w' !! x = node_tbl w !! x) ∧
    (∀ e, edge_exists w e → edge_tbl w' !! e = edge_tbl w !! e) ∧
    (∀ g', is_Some (graph_tbl w !! g') → graph_tbl w' !! g' = graph_tbl w !! g').
Proof.
  intros matrix w.
  apply (matrix_to_graph_well_formed matrix w); [by_eval | by_eval].
Defined.

Lemma to_matrix_of_distinct_lengths_witness :
  let x := scenario_a_solved in
  let w := world_of x in
  let graph := graph_of x in
  ∃ M, to_matrix graph w = Ok M ∧
    ∀ i j u v, Graph.nodes (graph_at w graph) !! i = Some u →
               Graph.nodes (graph_at w graph) !! j = Some v →
      matrix_get M i j
      = Some (last_weight w (filter (fun e => tail_of w e = u ∧ head_of w e = v)
                               (Graph.edges (graph_at w graph)))).
Proof.
  intros x w graph.
  apply (to_matrix_of_distinct_lengths graph w); [by_eval | by_eval].
Defined.

Lemma to_matrix_of_equal_lengths_witness :
  let x := scenario_a in
  let w := world_of x in
  let graph := graph_of x in
  let rest := [1%nat; 2%nat] in
  ∃ M, to_matrix graph w = Ok M ∧
    square (S (List.length rest)) M ∧
    ∀ i j, (i ≤ List.length rest)%nat → (j ≤ List.length rest)%nat →
      matrix_get M i j
      = Some (if decide (i = 0%nat ∧ j = 0%nat)
              then last_weight w (Graph.edges (graph_at w graph))
              else Inf).
Proof.
  intros x w graph rest.
  apply (to_matrix_of_equal_lengths graph w 0%nat rest); [by_eval | by_eval].
Defined.

Lemma to_matrix_after_matrix_to_graph_witness :
  let matrix := scenario_a_matrix in
  let w := empty_world in
  ∃ g w' M,
    matrix_to_graph matrix w = Ok (g, w') ∧
    to_matrix g w' = Ok M ∧
    square (List.length matrix) M ∧
    ∀ i j, (i < List.length matrix)%nat → (j < List.length matrix)%nat →
      matrix_get M i j
      = Some (if decide (i = 0%nat ∧ j = 0%nat)
              then match last (matrix_entries matrix) with
                   | Some en => Fin en.2
                   | None => Inf
                   end
              else Inf).
Proof.
  intros matrix w.
  apply (to_matrix_after_matrix_to_graph matrix w); by_eval.
Defined.


Lemma simple_shortest_path_after_matrix_to_graph_witness :
  let matrix := scenario_a_matrix in
  let w := empty_world in
  ∃ g w' start,
    matrix_to_graph matrix w = Ok (g, w') ∧
    Graph.nodes (graph_at w' g) !! 0%nat = Some start ∧
    ∀ fuel, (simple_fuel w' ≤ fuel)%nat →
      ∃ ws,
        simple_shortest_path fuel g start w' = Some (Ok ws) ∧
        ∀ j x, Graph.nodes (graph_at w' g) !! j = Some x →
          match length_of ws x with
          | Fin z => matrix_walk matrix 0 j z ∧ ∀ z', matrix_walk matrix 0 j z' → z ≤ z'
          | Inf => ∀ z', ¬ matrix_walk matrix 0 j z'
          end.
Proof.
  intros matrix w.
  apply (simple_shortest_path_after_matrix_to_graph matrix w);
    [by_eval | by_eval | by_eval | by_eval].
Defined.

Lemma add_edge_after_Edge_init_witness :
  let x := scenario_c in
  let w := world_of x in
  let graph := graph_of x in
  ∃ e w1,
    Edge_init 0 1 4 w = (e, w1) ∧
    ¬ edge_exists w e ∧
    ¬ graph_wf w1 graph ∧
    Graph.nodes (graph_at (add_edge graph e w1) graph) = Graph.nodes (graph_at w graph) ∧
    Graph.edges (graph_at (add_edge graph e w1) graph)
      = Graph.edges (graph_at w graph) ++ [e] ∧
    closed (add_edge graph e w1) ∧
    graph_wf (add_edge graph e w1) graph.
Proof.
  intros x w graph.
  apply (add_edge_after_Edge_init graph 0%nat 1%nat 4 w);
    [by_eval | by_eval | by_eval | by_eval | by_eval].
Defined.

Lemma add_node_after_Node_init_witness :
  let x := scenario_a in
  let w := world_of x in
  let graph := graph_of x in
  let d := PyStr "D" in
  ∃ n w1,
    Node_init d Inf w = (n, w1) ∧
    (n ∉ Graph.nodes (graph_at w graph)) ∧
    Graph.nodes (graph_at (add_node graph n w1) graph)
      = Graph.nodes (graph_at w graph) ++ [n] ∧
    Graph.edges (graph_at (add_node graph n w1) graph) = Graph.edges (graph_at w graph) ∧
    length_of (add_node graph n w1) n = Inf ∧
    closed (add_node graph n w1) ∧
    graph_wf (add_node graph n w1) graph.
Proof.
  intros x w graph d.
  apply (add_node_after_Node_init graph d Inf w); [by_eval | by_eval | by_eval].
Defined.

Lemma simple_ops_upper_bound_witness :
  let x := stale_heap_graph in
  let w := world_of x in
  let graph := graph_of x in
  ∃ ws,
    simple_shortest_path (simple_fuel w) graph (start_of x) w = Some (Ok ws) ∧
    simple_ops (tracker ws)
      ≤ simple_ops (tracker w) + 2
        + 2 * Z.of_nat (List.length (Graph.nodes (graph_at w graph)))
        + Z.of_nat (List.length (Graph.nodes (graph_at w graph)))
          * (5 + Z.of_nat (List.length (Graph.nodes (graph_at w graph)))
             + 4 * Z.of_nat (out_total w (Graph.nodes (graph_at w graph)))) ∧
    (NoDup (Graph.nodes (graph_at w graph)) →
     (∀ x, x ∈ Graph.nodes (graph_at w graph) → NoDup (outbound_of w x)) →
     (out_total w (Graph.nodes (graph_at w graph))
        ≤ List.length (Graph.edges (graph_at w graph)))%nat).
Proof.
  intros x w graph.
  apply (simple_ops_upper_bound _ graph (start_of x) w);
    [by_eval | by_eval | by_eval | lia].
Defined.
